(** * nostk: event construction, tag validation, content scanning and
      relay fan-out

    A shallow embedding of [common.go] and of the command file of the
    nostk command-line client, with the properties of its construction and
    publication pipeline.

    Conventions of the embedding:
    - a Go [string] is a [string] (a sequence of bytes);
    - a Go [int] that is a kind or a key of a map is a [Z], an index of a
      slice or a length is a [nat] (no arithmetic is done on them that could
      overflow);
    - a Go slice is a [list]; the nil slice and the empty slice are both
      [[]] (the code only ranges over, appends to and indexes its slices);
    - a Go [map] is a [gmap]; reading a missing key gives the zero value of
      the element type, written out at each read;
    - a Go [error] is its message; a function that returns [error] or
      [(T, error)] returns a [result], which also records a run-time panic
      (index out of range), since the run-time aborts the program there. *)

From Stdlib Require Import ZArith List Ascii String Lia.
From stdpp Require Import base option list gmap strings pretty.
Import ListNotations.

Local Open Scope string_scope.
Local Open Scope Z_scope.
Local Open Scope list_scope.

(** ** Results of fallible code *)

Inductive result (A : Type) : Type :=
  | Ok (a : A)
  | Err (e : string)
  | Panic (msg : string).
Arguments Ok {A} a.
Arguments Err {A} e.
Arguments Panic {A} msg.

Definition bind {A B : Type} (r : result A) (k : A -> result B) : result B :=
  match r with
  | Ok a => k a
  | Err e => Err e
  | Panic m => Panic m
  end.

Definition is_ok {A : Type} (r : result A) : bool :=
  match r with Ok _ => true | _ => false end.

Definition is_err {A : Type} (r : result A) : bool :=
  match r with Err _ => true | _ => false end.

Definition is_panic {A : Type} (r : result A) : bool :=
  match r with Panic _ => true | _ => false end.

(** The run-time error of an index expression [s[i]] with [i] out of range. *)
Definition index_out_of_range : string := "runtime error: index out of range".

(** [s[i]] on a slice. *)
Definition index {A : Type} (s : list A) (i : nat) : result A :=
  match s !! i with
  | Some x => Ok x
  | None => Panic index_out_of_range
  end.

(** ** Tags *)

(** [nostr.Tag] is [[]string], [nostr.Tags] is [[]nostr.Tag]. *)
Abbreviation Tag := (list string).
Abbreviation Tags := (list (list string)).

(** Modelled from the spec: the constant [indexTagName], which [checkTags]
    uses and which is declared in a file that is not at hand.  The data
    model of the spec says that position 0 of a tag is the tag name. *)
Definition indexTagName : nat := 0%nat.

(** [Tags.hasPrefix]: some field of some tag begins with [pref]. *)
Definition hasPrefix (tgs : Tags) (pref : string) : bool :=
  existsb (fun tg => existsb (fun s => String.prefix pref s) tg) tgs.

(** ** checkTags: the tag schema and its validator *)

Module TagSchema.

(** [type ChkTblMap map[int][]string] and its constructor. *)
Definition NewChkTblMap : gmap Z (list string) :=
  list_to_map
    [ (1, ["content-warning"; "client"; "e"; "emoji"; "expiration";
           "p"; "q"; "r"; "t"]);
      (6, ["e"; "p"]);
      (10000, ["e"; "p"; "t"; "word"]);
      (10001, ["e"]);
      (30315, ["d"; "emoji"; "expiration"; "r"]) ].

(** [sliceToMap]: the set of the names listed for [kind]; [r[kind]] is the
    nil slice when [kind] is not a key. *)
Definition sliceToMap (r : gmap Z (list string)) (kind : Z) : gset string :=
  foldl (fun m v => {[ v ]} ∪ m) ∅ (default [] (r !! kind)).

(** [contains]. *)
Definition contains (r : gmap Z (list string)) (kind : Z) (target : string)
  : bool :=
  bool_decide (target ∈ sliceToMap r kind).

(** The line [log.Printf("kind : %v, tagName : %v\n", kind, name)] writes
    (the logger's time stamp left out). *)
Definition log_invalid (kind : Z) (name : string) : string :=
  "kind : " +:+ pretty kind +:+ ", tagName : " +:+ name.

Definition invalid_tag : string :=
  "Inclusion of invalid tag in specified kind".

(** The loop of [checkTags] over the tags that remain: the returned error
    and the lines logged. *)
Fixpoint checkTags_from (tbl : gmap Z (list string)) (kind : Z) (tgs : Tags)
  : result unit * list string :=
  match tgs with
  | [] => (Ok tt, [])
  | tg :: rest =>
      match index tg indexTagName with
      | Ok name =>
          if contains tbl kind name
          then checkTags_from tbl kind rest
          else (Err invalid_tag, [log_invalid kind name])
      | Err e => (Err e, [])
      | Panic m => (Panic m, [])
      end
  end.

Definition checkTags (kind : Z) (tgs : Tags) : result unit * list string :=
  checkTags_from NewChkTblMap kind tgs.

(** The allowed set of a kind as the data model states it: the names the
    table lists for the kind, none for a kind that is not a key. *)
Definition listed (kind : Z) (name : string) : Prop :=
  ∃ names, NewChkTblMap !! kind = Some names ∧ name ∈ names.

(** The name of a tag. *)
Definition tag_name (tg : Tag) : option string := tg !! indexTagName.

(** A tag conforms to the schema of [kind]: it has a name, which is
    listed. *)
Definition conforms (kind : Z) (tg : Tag) : Prop :=
  ∃ name, tag_name tg = Some name ∧ listed kind name.

End TagSchema.

(** ** The regular expressions of the content scanner

    The scanner relies on Go's [regexp] package.  Its matching is embedded
    here as the package documents it: the text is read rune by rune
    ([utf8.DecodeRuneInString]: an invalid or truncated encoding is the
    one-byte rune U+FFFD), and among the matches that begin at the leftmost
    possible position the one chosen is the one a backtracking search finds
    first (alternatives left to right, repetitions greedy). *)

Module Regexp.

(** The value of the byte at offset [pos], if any. *)
Definition byte_at (t : list ascii) (pos : nat) : option Z :=
  (fun a => Z.of_N (N_of_ascii a)) <$> t !! pos.

Definition RuneError : Z := 65533.

(** Continuation bytes are 0x80..0xBF; the second byte of a sequence is
    further restricted after the leading bytes E0, ED, F0 and F4. *)
Definition is_cont (b : Z) : bool := (128 <=? b) && (b <=? 191).

Definition second_ok (s0 s1 : Z) : bool :=
  ((if s0 =? 224 then 160 else if s0 =? 240 then 144 else 128) <=? s1) &&
  (s1 <=? (if s0 =? 237 then 159 else if s0 =? 244 then 143 else 191)).

(** The number of bytes announced by a leading byte (0: not a leading
    byte). *)
Definition seq_len (s0 : Z) : nat :=
  if s0 <? 194 then 0
  else if s0 <? 224 then 2
  else if s0 <? 240 then 3
  else if s0 <? 245 then 4
  else 0.

(** [inputString.step]: the rune at [pos] and its width, [None] at the end
    of the text.  The payload bits of each byte are taken by subtracting the
    marker bits, which is what the masks of the library do on the accepted
    ranges. *)
Definition step (t : list ascii) (pos : nat) : option (Z * nat) :=
  match byte_at t pos with
  | None => None
  | Some s0 =>
      if s0 <? 128 then Some (s0, 1%nat)
      else
        let invalid := Some (RuneError, 1%nat) in
        match seq_len s0, byte_at t (pos + 1), byte_at t (pos + 2),
              byte_at t (pos + 3) with
        | 2%nat, Some s1, _, _ =>
            if second_ok s0 s1
            then Some ((s0 - 192) * 64 + (s1 - 128), 2%nat)
            else invalid
        | 3%nat, Some s1, Some s2, _ =>
            if second_ok s0 s1 && is_cont s2
            then Some ((s0 - 224) * 4096 + (s1 - 128) * 64 + (s2 - 128),
                       3%nat)
            else invalid
        | 4%nat, Some s1, Some s2, Some s3 =>
            if second_ok s0 s1 && is_cont s2 && is_cont s3
            then Some ((s0 - 240) * 262144 + (s1 - 128) * 4096
                       + (s2 - 128) * 64 + (s3 - 128), 4%nat)
            else invalid
        | _, _, _, _ => invalid
        end
  end.

(** The syntax the patterns of the scanner use. *)
Inductive regex : Type :=
  | Eps                       (* the empty pattern *)
  | Bol                       (* ^ : the beginning of the text *)
  | Cls (p : Z -> bool)       (* one rune of a class, or a literal rune *)
  | Cat (r1 r2 : regex)
  | Alt (r1 r2 : regex)       (* r1|r2, r1 preferred *)
  | Star (r : regex).         (* r*, greedy *)

(** [r+] and [r{n}] *)
Definition Plus (r : regex) : regex := Cat r (Star r).

Fixpoint Rep (n : nat) (r : regex) : regex :=
  match n with
  | O => Eps
  | S n' => Cat r (Rep n' r)
  end.

(** A literal string of ASCII characters. *)
Fixpoint Lit (l : list ascii) : regex :=
  match l with
  | [] => Eps
  | a :: l' => Cat (Cls (Z.eqb (Z.of_N (N_of_ascii a)))) (Lit l')
  end.

(** The loop of a greedy repetition: [body] matches one iteration and is
    tried first, [k] continues after the repetition.  An iteration that
    consumes nothing is not repeated. *)
Fixpoint star_loop (body : nat -> (nat -> option nat) -> option nat)
    (k : nat -> option nat) (fuel pos : nat) {struct fuel} : option nat :=
  match fuel with
  | O => k pos
  | S fuel' =>
      match body pos (fun pos' => if Nat.ltb pos pos'
                                  then star_loop body k fuel' pos'
                                  else None) with
      | Some e => Some e
      | None => k pos
      end
  end.

(** Backtracking match of [r] at [pos]; [k] continues with the rest of the
    pattern from the position reached and answers with the end of the
    match. *)
Fixpoint run (r : regex) (t : list ascii) (pos : nat)
    (k : nat -> option nat) {struct r} : option nat :=
  match r with
  | Eps => k pos
  | Bol => if Nat.eqb pos 0 then k pos else None
  | Cls p =>
      match step t pos with
      | Some (c, w) => if p c then k (pos + w)%nat else None
      | None => None
      end
  | Cat r1 r2 => run r1 t pos (fun pos' => run r2 t pos' k)
  | Alt r1 r2 =>
      match run r1 t pos k with
      | Some e => Some e
      | None => run r2 t pos k
      end
  | Star r1 => star_loop (run r1 t) k (S (length t - pos)) pos
  end.

(** A match of [r] that begins exactly at [pos]: its end. *)
Definition match_at (r : regex) (t : list ascii) (pos : nat) : option nat :=
  run r t pos Some.

(** [doExecute]: the leftmost match that begins at [pos] or later, as
    (begin, end). *)
Fixpoint search (r : regex) (t : list ascii) (fuel pos : nat)
  : option (nat * nat) :=
  match match_at r t pos with
  | Some e => Some (pos, e)
  | None =>
      match fuel, step t pos with
      | S fuel', Some (_, w) => search r t fuel' (pos + w)
      | _, _ => None
      end
  end.

Definition slice (t : list ascii) (b e : nat) : list ascii :=
  take (e - b) (drop b t).

(** The loop of [allMatches]: successive matches, the search resuming at
    the end of the previous one; after an empty match it resumes one rune
    further, and an empty match that touches the previous match is not
    delivered. *)
Fixpoint allMatches (r : regex) (t : list ascii) (fuel pos : nat)
    (prevMatchEnd : option nat) : list (nat * nat) :=
  match fuel with
  | O => []
  | S fuel' =>
      match search r t (length t) pos with
      | None => []
      | Some (b, e) =>
          let accept :=
            negb (Nat.eqb e pos && bool_decide (prevMatchEnd = Some b)) in
          let pos' :=
            if Nat.eqb e pos
            then match step t pos with
                 | Some (_, w) => (pos + w)%nat
                 | None => S (length t)
                 end
            else e in
          let rest :=
            if Nat.leb pos' (length t)
            then allMatches r t fuel' pos' (Some e) else [] in
          if accept then (b, e) :: rest else rest
      end
  end.

(** [FindAllString(s, -1)] *)
Definition FindAllString (r : regex) (s : string) : list string :=
  let t := list_ascii_of_string s in
  (fun m => string_of_list_ascii (slice t m.1 m.2))
    <$> allMatches r t (S (length t)) 0 None.

(** [FindAllStringIndex(s, -1)]: the offsets of the matches that
    [FindAllString] returns, each as begin and end. *)
Definition FindAllStringIndex (r : regex) (s : string) : list (nat * nat) :=
  let t := list_ascii_of_string s in
  allMatches r t (S (length t)) 0 None.

(** [MatchString]: the pattern matches somewhere. *)
Definition MatchString (r : regex) (s : string) : bool :=
  let t := list_ascii_of_string s in
  bool_decide (is_Some (search r t (length t) 0)).

(** The loop of [replaceAll] with the empty replacement: the text between
    the matches is kept. *)
Fixpoint replaceAll (r : regex) (t : list ascii) (fuel searchPos
    lastMatchEnd : nat) : list ascii :=
  match fuel with
  | O => drop lastMatchEnd t
  | S fuel' =>
      match search r t (length t) searchPos with
      | None => drop lastMatchEnd t
      | Some (b, e) =>
          let width :=
            match step t searchPos with Some (_, w) => w | None => O end in
          let searchPos' :=
            if Nat.ltb e (searchPos + width) then (searchPos + width)%nat
            else if Nat.ltb e (searchPos + 1) then S searchPos
            else e in
          slice t lastMatchEnd b ++
          (if Nat.leb searchPos' (length t)
           then replaceAll r t fuel' searchPos' e
           else drop e t)
      end
  end.

(** [ReplaceAllString(src, "")] *)
Definition ReplaceAllString_empty (r : regex) (src : string) : string :=
  let t := list_ascii_of_string src in
  string_of_list_ascii (replaceAll r t (S (length t)) 0 0).

(** Character classes *)
Definition code (c : ascii) : Z := Z.of_N (N_of_ascii c).

(** [\s] is [[\t\n\f\r ]]. *)
Definition space (c : Z) : bool :=
  (c =? 9) || (c =? 10) || (c =? 12) || (c =? 13) || (c =? 32).

(** [[a-zA-Z0-9]] *)
Definition alnum (c : Z) : bool :=
  ((97 <=? c) && (c <=? 122)) || ((65 <=? c) && (c <=? 90)) ||
  ((48 <=? c) && (c <=? 57)).

(** [[#﹟＃]]: U+0023, U+FE5F and U+FF03. *)
Definition hash (c : Z) : bool :=
  (c =? 35) || (c =? 65119) || (c =? 65283).

(** The number of bytes at the head of [l] whose value is in the class. *)
Fixpoint run_length (p : Z -> bool) (l : list ascii) : nat :=
  match l with
  | c :: l' => if p (code c) then S (run_length p l') else O
  | [] => O
  end.

(** The first answer of [k] at [pos + n], [pos + n - 1], ..., [pos]. *)
Fixpoint try_down (k : nat -> option nat) (pos n : nat) : option nat :=
  match n with
  | O => k pos
  | S n' =>
      match k (pos + S n')%nat with
      | Some e => Some e
      | None => try_down k pos n'
      end
  end.

(** [l] occurs in [t] at offset [q]. *)
Definition occurs_at (l t : list ascii) (q : nat) : Prop :=
  take (length l) (drop q t) = l.

End Regexp.

(** ** buildJson: from the arguments to the draft event *)

Module EventBuilder.
Import TagSchema.

Definition subCommandName : nat := 1%nat.

(** [fmt.Errorf("index %d out of range in args", subCommandName)] *)
Definition err_index : string :=
  "index " +:+ pretty (Z.of_nat subCommandName) +:+ " out of range in args".

(** [fmt.Errorf("Not supported subcommand %s", cmd)] *)
Definition err_unsupported (cmd : string) : string :=
  "Not supported subcommand " +:+ cmd.

(** [type SubCmdKindTbl map[string]int] and its constructor. *)
Definition NewSubCmdKindTbl : gmap string Z :=
  list_to_map [ ("pubMessage", 1); ("pubMessageTo", 1) ].

(** [type ConvArgsTagsTbl map[string]map[int][]string] and its
    constructor. *)
Definition NewConvArgsTagsTbl : gmap string (gmap Z (list string)) :=
  list_to_map
    [ ("pubMessage", list_to_map [ (3, ["content-warning"]) ]);
      ("pubMessageTo", list_to_map [ (3, ["p"]) ]) ].

(** The method [hasSubcommand], which the two tables define with the same
    body. *)
Definition hasSubcommand {V : Type} (r : gmap string V) (args : list string)
  : result unit :=
  if Nat.leb (length args) subCommandName then Err err_index
  else
    bind (index args subCommandName) (fun cmd =>
    match r !! cmd with
    | Some _ => Ok tt
    | None => Err (err_unsupported cmd)
    end).

(** [SubCmdKindTbl.get] *)
Definition get (r : gmap string Z) (args : list string) : result Z :=
  bind (hasSubcommand r args) (fun _ =>
  bind (index args subCommandName) (fun cmd =>
  Ok (default 0 (r !! cmd)))).

(** [RawArg]; the field [Tags] is [Tags_] here, [Tags] being the type. *)
Record RawArg : Type := mkRawArg {
  Kind : Z;
  Content : string;
  Tags_ : Tags
}.

(** [addTags]: the tag appended for the argument at [index_]. A missing key
    of the inner map reads as the nil slice, whose element 0 is out of
    range. *)
Definition addTags (args : list string) (index_ : nat) (tgs : Tags)
  : result Tags :=
  let list_ := NewConvArgsTagsTbl in
  bind (hasSubcommand list_ args) (fun _ =>
  bind (index args subCommandName) (fun cmd =>
  bind (index (default [] (default ∅ (list_ !! cmd) !! Z.of_nat index_))
              0) (fun name =>
  bind (index args index_) (fun value =>
  Ok (tgs ++ [[name; value]]))))).

(** One turn of the loop [for i := range args] of [buildJson]. *)
Definition buildJson_step (args : list string) (i : nat) (ret : RawArg)
  : result RawArg :=
  match i with
  | 0%nat => Ok ret
  | 1%nat =>
      bind (get NewSubCmdKindTbl args) (fun tmpKind =>
      Ok (mkRawArg tmpKind (Content ret) (Tags_ ret)))
  | 2%nat =>
      bind (index args i) (fun a => Ok (mkRawArg (Kind ret) a (Tags_ ret)))
  | _ =>
      bind (addTags args i (Tags_ ret)) (fun tgs =>
      Ok (mkRawArg (Kind ret) (Content ret) tgs))
  end.

(** The loop from index [i] on, [n] indices remaining. *)
Fixpoint buildJson_loop (args : list string) (n i : nat) (ret : RawArg)
  : result RawArg :=
  match n with
  | O => Ok ret
  | S n' =>
      bind (buildJson_step args i ret) (fun ret' =>
      buildJson_loop args n' (S i) ret')
  end.

(** [buildJson] up to the call of [json.Marshal]: the value marshalled. *)
Definition buildRawArg (args : list string) : result RawArg :=
  bind (hasSubcommand NewConvArgsTagsTbl args) (fun _ =>
  buildJson_loop args (length args) 0 (mkRawArg 0 "" [])).

(** [buildJson]; [json_Marshal] is the encoder of the standard library. *)
Definition buildJson (json_Marshal : RawArg -> result string)
    (args : list string) : result string :=
  bind (buildRawArg args) json_Marshal.

(** The calls that a run of [buildJson] makes, its own and those of the
    functions it calls, in the order of the run: the constructors of the two
    tables, [hasSubcommand], [SubCmdKindTbl.get], [addTags] and
    [json.Marshal].  [Call_checkTags] is the call of the validator, which
    no line of these functions makes. *)
Inductive call : Type :=
  | Call_NewConvArgsTagsTbl
  | Call_NewSubCmdKindTbl
  | Call_hasSubcommand (args : list string)
  | Call_get (args : list string)
  | Call_addTags (args : list string) (index_ : nat) (tgs : Tags)
  | Call_checkTags (kind : Z) (tgs : Tags)
  | Call_json_Marshal (ret : RawArg).

Definition is_checkTags (c : call) : bool :=
  match c with Call_checkTags _ _ => true | _ => false end.

(** [get] calls [hasSubcommand]; [addTags] builds the table and calls
    [hasSubcommand]. *)
Definition get_calls (args : list string) : list call :=
  [Call_get args; Call_hasSubcommand args].

Definition addTags_calls (args : list string) (index_ : nat) (tgs : Tags)
  : list call :=
  [Call_addTags args index_ tgs; Call_NewConvArgsTagsTbl;
   Call_hasSubcommand args].

(** The calls of one turn of the loop, and of the loop from index [i] on. *)
Definition buildJson_step_calls (args : list string) (i : nat) (ret : RawArg)
  : list call :=
  match i with
  | 0%nat => []
  | 1%nat => get_calls args
  | 2%nat => []
  | _ => addTags_calls args i (Tags_ ret)
  end.

Fixpoint buildJson_loop_calls (args : list string) (n i : nat) (ret : RawArg)
  : list call :=
  match n with
  | O => []
  | S n' =>
      buildJson_step_calls args i ret ++
      match buildJson_step args i ret with
      | Ok ret' => buildJson_loop_calls args n' (S i) ret'
      | _ => []
      end
  end.

(** The calls of [buildJson]: the two tables, [hasSubcommand], the loop,
    and the encoder when the loop has come to its end. *)
Definition buildJson_calls (args : list string) : list call :=
  [Call_NewConvArgsTagsTbl; Call_NewSubCmdKindTbl; Call_hasSubcommand args] ++
  match hasSubcommand NewConvArgsTagsTbl args with
  | Ok _ =>
      buildJson_loop_calls args (length args) 0 (mkRawArg 0 "" []) ++
      match buildJson_loop args (length args) 0 (mkRawArg 0 "" []) with
      | Ok ret => [Call_json_Marshal ret]
      | _ => []
      end
  | _ => []
  end.

End EventBuilder.

(** ** The content scanner *)

Module ContentScanner.
Import Regexp.

(** The pattern "(?:^|\s)" followed by the group
    "[#﹟＃][^#﹟＃]\S*[#﹟＃]\S*" *)
Definition re_parsign : regex :=
  Cat (Alt Bol (Cls space))
   (Cat (Cls hash)
    (Cat (Cls (fun c => negb (hash c)))
     (Cat (Star (Cls (fun c => negb (space c))))
      (Cat (Cls hash)
           (Star (Cls (fun c => negb (space c)))))))).

(** [excludeHashtagsParsign]; the pattern compiles, so the error is nil. *)
Definition excludeHashtagsParsign (src : string) : result string :=
  Ok (ReplaceAllString_empty re_parsign src).

(** The pattern "(?:^|\s)([#﹟＃][^#\s﹟＃]+[^\s|$])"; inside a class | and $ are
    the characters themselves. *)
Definition re_hashtag : regex :=
  Cat (Alt Bol (Cls space))
   (Cat (Cls hash)
    (Cat (Plus (Cls (fun c => negb (hash c || space c))))
         (Cls (fun c => negb (space c || (c =? 124) || (c =? 36)))))).

(** The pattern "[\s﹟＃#]" *)
Definition re_strip : regex := Cls (fun c => space c || hash c).

(** Modelled from the spec: the type [ExTag] with [addTagName],
    [addTagValue] and [getNostrTag], which [setHashTags] uses and which is
    declared in a file that is not at hand.  The spec says that each match
    becomes a [t] tag whose value is the stripped token: the tag is the name
    followed by the value. *)
Definition ExTag_getNostrTag (name value : string) : Tag := [name; value].

(** [setHashTags]: the tags appended to [tgs]. *)
Definition setHashTags (buf : string) (tgs : Tags) : Tags :=
  foldl (fun tgs m =>
           tgs ++ [ExTag_getNostrTag "t" (ReplaceAllString_empty re_strip m)])
        tgs (FindAllString re_hashtag buf).

(** [setContentWarning] and [setPerson] *)
Definition setContentWarning (r : string) (tgs : Tags) : Tags :=
  tgs ++ [["content-warning"; r]].

Definition setPerson (p : string) (tgs : Tags) : Tags :=
  tgs ++ [["p"; p]].

Definition nsec1 : list ascii := list_ascii_of_string "nsec1".

(** The pattern "nsec1[a-zA-Z0-9]{58}" *)
Definition re_nsec1_key : regex := Cat (Lit nsec1) (Rep 58 (Cls alnum)).

(** [match[5:]]; a match of the pattern has 63 bytes. *)
Definition from5 (m : string) : string :=
  string_of_list_ascii (drop 5 (list_ascii_of_string m)).

(** The loop of [containsNsec1] over the matches. *)
Fixpoint containsNsec1_loop (matches : list string) : bool :=
  match matches with
  | [] => false
  | m :: rest =>
      let alphanumericPart := from5 m in
      if negb (MatchString (Lit nsec1) alphanumericPart) then true
      else containsNsec1_loop rest
  end.

Definition containsNsec1 (text : string) : bool :=
  containsNsec1_loop (FindAllString re_nsec1_key text).

(** [strings.Contains(s, sub)] as a proposition. *)
Definition str_contains (sub s : string) : Prop :=
  ∃ a b, s = a +:+ sub +:+ b.

(** [strings.Repeat(s, n)] *)
Fixpoint str_repeat (s : string) (n : nat) : string :=
  match n with
  | O => ""
  | S n' => s +:+ str_repeat s n'
  end.

(** A token made only of copies of the prefix, the last one possibly cut. *)
Definition only_prefix_copies (token : string) : Prop :=
  ∃ n rest, str_repeat "nsec1" n = token +:+ rest.

(** The bytes of a string are all in [[a-zA-Z0-9]]. *)
Definition alphanumeric (s : string) : Prop :=
  Forall (fun c => alnum (code c) = true) (list_ascii_of_string s).



End ContentScanner.

(** ** The publish commands

    The command file reads the environment, the file system and the clock,
    signs through the protocol library and talks to the relays.  These
    collaborators are the fields of a [System] over a state of the world
    [W]; [R] is the type of an open relay connection.  What the program
    prints and which relay calls it makes, in order, is its [trace]. *)

Module Publisher.
Import Regexp.

(** [nostr.Event]; the fields [Kind], [Tags] and [Content] are [EvKind],
    [EvTags] and [EvContent] here. *)
Record Event : Type := mkEvent {
  ID : string;
  PubKey : string;
  CreatedAt : Z;
  EvKind : Z;
  EvTags : Tags;
  EvContent : string;
  Sig : string
}.

Inductive effect : Type :=
  | Print (line : string)                  (* fmt.Println, fmt.Printf *)
  | Connect (url : string)                 (* nostr.RelayConnect *)
  | Publish (url : string) (ev : Event).   (* relay.Publish *)

Abbreviation trace := (list effect).

Record System (W R : Type) : Type := mkSystem {
  (** [os.Getenv] *)
  os_Getenv : string -> W -> string;
  (** [os.Stat]: the error, if any *)
  os_Stat : string -> W -> W * option string;
  (** [os.Mkdir] *)
  os_Mkdir : string -> W -> W * option string;
  (** [ioutil.ReadFile]: the bytes read and the error, if any *)
  ioutil_ReadFile : string -> W -> W * (string * option string);
  (** [json.Unmarshal] into a [map[string]RwFlag], then [range] over the
      map: the keys in the order the iteration yields them, or the error of
      the decoder *)
  relay_keys : string -> W -> W * result (list string);
  (** [nostr.GetPublicKey] *)
  nostr_GetPublicKey : string -> result string;
  (** [nostr.Now] *)
  nostr_Now : W -> Z;
  (** what [Event.Sign] leaves in the fields it writes, the public key, the
      event id and the signature, whether it returns an error or not *)
  nostr_sign : Event -> string -> string * string * string;
  (** [nostr.RelayConnect] *)
  nostr_RelayConnect : string -> W -> W * (string + R);
  (** [Relay.Publish]: the error, if any *)
  relay_Publish : R -> Event -> W -> W * option string
}.
Arguments os_Getenv {W R}.
Arguments os_Stat {W R}.
Arguments os_Mkdir {W R}.
Arguments ioutil_ReadFile {W R}.
Arguments relay_keys {W R}.
Arguments nostr_GetPublicKey {W R}.
Arguments nostr_Now {W R}.
Arguments nostr_sign {W R}.
Arguments nostr_RelayConnect {W R}.
Arguments relay_Publish {W R}.

Definition secretDir : string := "/.nostk".
Definition hsec : string := ".hsec".
Definition relays : string := "relays.json".

(** [nostr.KindTextNote] *)
Definition KindTextNote : Z := 1.

Definition newline : ascii := "010"%char.

(** [strings.Split(s, "\n")]: the pieces between the line feeds. *)
Fixpoint split_lines (cur : list ascii) (t : list ascii) : list string :=
  match t with
  | [] => [string_of_list_ascii (rev cur)]
  | c :: t' =>
      if Ascii.eqb c newline
      then string_of_list_ascii (rev cur) :: split_lines [] t'
      else split_lines (c :: cur) t'
  end.

Definition strings_Split_lf (s : string) : list string :=
  split_lines [] (list_ascii_of_string s).

(** [strings.ReplaceAll(s, "\n", "")] *)
Definition remove_lf (s : string) : string :=
  string_of_list_ascii
    (filter (fun c => c <> newline) (list_ascii_of_string s)).

Section WithSystem.
Context {W R : Type} (sys : System W R).

(** [getDir] *)
Definition getDir (w : W) : W * result string :=
  let home := os_Getenv sys "HOME" w in
  if String.eqb home "" then
    (w, Err "Not set HOME environmental variables")
  else
    let home := home +:+ secretDir in
    match os_Stat sys home w with
    | (w1, Some _) =>
        match os_Mkdir sys home w1 with
        | (w2, Some err) => (w2, Err err)
        | (w2, None) => (w2, Ok home)
        end
    | (w1, None) => (w1, Ok home)
    end.

(** [readPrivateKey]; the error of [ioutil.ReadFile] is not looked at, and
    [k[0]] is read whatever the number of non-empty lines. *)
Definition readPrivateKey (w : W) : W * result string :=
  match getDir w with
  | (w1, Ok dir) =>
      let path := dir +:+ "/" +:+ hsec in
      match os_Stat sys path w1 with
      | (w2, Some err) => (w2, Err err)
      | (w2, None) =>
          match ioutil_ReadFile sys path w2 with
          | (w3, (b, _)) =>
              let rs := strings_Split_lf b in
              let k := filter (fun r => r <> "") rs in
              (w3, index k 0)
          end
      end
  | (w1, Err e) => (w1, Err e)
  | (w1, Panic m) => (w1, Panic m)
  end.

(** [readRelayList] *)
Definition readRelayList (w : W) : W * result string :=
  match getDir w with
  | (w1, Ok d) =>
      let path := d +:+ "/" +:+ relays in
      match os_Stat sys path w1 with
      | (w2, Some err) => (w2, Err err)
      | (w2, None) =>
          match ioutil_ReadFile sys path w2 with
          | (w3, (_, Some err)) => (w3, Err err)
          | (w3, (b, None)) => (w3, Ok (remove_lf b))
          end
      end
  | (w1, Err e) => (w1, Err e)
  | (w1, Panic m) => (w1, Panic m)
  end.

(** [getRelayList]: the URLs appended to [rl]. *)
Definition getRelayList (rl : list string) (w : W)
  : W * result (list string) :=
  match readRelayList w with
  | (w1, Ok b) =>
      match relay_keys sys b w1 with
      | (w2, Ok keys) => (w2, Ok (rl ++ keys))
      | (w2, Err e) => (w2, Err e)
      | (w2, Panic m) => (w2, Panic m)
      end
  | (w1, Err e) => (w1, Err e)
  | (w1, Panic m) => (w1, Panic m)
  end.

(** [ev.Sign(sk)]: the signer writes the public key, the id and the
    signature of the event and nothing else (it turns nil tags into empty
    tags, which are the same list here); its error is not looked at. *)
Definition Sign (ev : Event) (sk : string) : Event :=
  let '(pk, id, sg) := nostr_sign sys ev sk in
  mkEvent id pk (CreatedAt ev) (EvKind ev) (EvTags ev) (EvContent ev) sg.

(** The body of the loop [for _, url := range rl] of [publishMessage]: the
    state of the world after the attempt and what the attempt did. *)
Definition publish_attempt (ev : Event) (url : string) (w : W) : W * trace :=
  match nostr_RelayConnect sys url w with
  | (w1, inl err) => (w1, [Connect url; Print err])
  | (w1, inr relay) =>
      match relay_Publish sys relay ev w1 with
      | (w2, Some err) => (w2, [Connect url; Publish url ev; Print err])
      | (w2, None) =>
          (w2, [Connect url; Publish url ev;
                Print ("published to " +:+ url)])
      end
  end.

(** The loop. *)
Fixpoint publish_loop (ev : Event) (rl : list string) (w : W) : W * trace :=
  match rl with
  | [] => (w, [])
  | url :: rl' =>
      let '(w1, tr1) := publish_attempt ev url w in
      let '(w2, tr2) := publish_loop ev rl' w1 in
      (w2, tr1 ++ tr2)
  end.

(** The terminal states of one relay attempt. *)
Inductive outcome : Type :=
  | Published
  | PublishFailed (err : string)
  | ConnectFailed (err : string).

(** The terminal state the attempt at [url] reaches from the world [w]. *)
Definition attempt_outcome (ev : Event) (url : string) (w : W) : outcome :=
  match nostr_RelayConnect sys url w with
  | (w1, inl err) => ConnectFailed err
  | (w1, inr relay) =>
      match relay_Publish sys relay ev w1 with
      | (_, Some err) => PublishFailed err
      | (_, None) => Published
      end
  end.

(** The state of the world in which the loop attempts the relay at index
    [i]: the one the attempts before it leave. *)
Definition world_before (ev : Event) (rl : list string) (w : W) (i : nat) : W :=
  (publish_loop ev (take i rl) w).1.

(** [publishMessage] *)
Definition publishMessage (s : string) (w : W) : W * trace * result unit :=
  let rl := [] in
  if Nat.ltb (String.length s) 1 then
    (w, [Print "Nothing text message."], Err "Not set text message")
  else
    match readPrivateKey w with
    | (w1, Err err) =>
        (w1, [Print "Nothing key pair. Make key pair."], Err err)
    | (w1, Panic m) => (w1, [], Panic m)
    | (w1, Ok sk) =>
        match nostr_GetPublicKey sys sk with
        | Err err => (w1, [], Err err)
        | Panic m => (w1, [], Panic m)
        | Ok pk =>
            match getRelayList rl w1 with
            | (w2, Err err) =>
                (w2, [Print "Nothing relay list. Make a relay list."],
                 Err err)
            | (w2, Panic m) => (w2, [], Panic m)
            | (w2, Ok rl) =>
                let ev :=
                  mkEvent "" pk (nostr_Now sys w2) KindTextNote [] s "" in
                let ev := Sign ev sk in
                let '(w3, tr) := publish_loop ev rl w2 in
                (w3, tr, Ok tt)
            end
        end
    end.

(** How the process ends. *)
Inductive exit : Type :=
  | Exit (status : Z)
  | Fatal (msg : string)      (* log.Fatal: the message, then status 1 *)
  | Crash (msg : string).     (* an uncaught panic *)

(** The case ["pubMessage"] of the switch of [main]. *)
Definition main_pubMessage (args : list string) (w : W) : W * trace * exit :=
  if Nat.ltb (length args) 3 then
    (w, [Print "Nothing text message."], Fatal "Not set text message")
  else
    match index args 2 with
    | Ok s =>
        match publishMessage s w with
        | (w1, tr, Ok _) => (w1, tr, Exit 0)
        | (w1, tr, Err err) => (w1, tr, Fatal err)
        | (w1, tr, Panic m) => (w1, tr, Crash m)
        end
    | Err e => (w, [], Fatal e)
    | Panic m => (w, [], Crash m)
    end.

End WithSystem.

(** The calls and the line that belong to an outcome at [url]. *)
Definition outcome_trace (ev : Event) (url : string) (o : outcome) : trace :=
  match o with
  | ConnectFailed err => [Connect url; Print err]
  | PublishFailed err => [Connect url; Publish url ev; Print err]
  | Published =>
      [Connect url; Publish url ev; Print ("published to " +:+ url)]
  end.

(** The relay calls of a trace. *)
Definition connects (tr : trace) : list string :=
  omap (fun e => match e with Connect url => Some url | _ => None end) tr.

Definition published (tr : trace) : list (string * Event) :=
  omap (fun e => match e with Publish url ev => Some (url, ev) | _ => None end)
       tr.

Definition printed (tr : trace) : list string :=
  omap (fun e => match e with Print l => Some l | _ => None end) tr.

(** A world without state in which every file exists, the key file reads as
    [key_read], the relay list holds the URLs [urls], and exactly the relays
    of [down] refuse the connection.  It serves to run the commands. *)
Definition simple_system (key_read : string * option string)
    (urls down : list string) : System unit string :=
  {| os_Getenv := fun name _ => if String.eqb name "HOME" then "/home/u" else "";
     os_Stat := fun _ w => (w, None);
     os_Mkdir := fun _ w => (w, None);
     ioutil_ReadFile := fun path w =>
       (w, if String.eqb path "/home/u/.nostk/.hsec" then key_read
           else ("{}", None));
     relay_keys := fun _ w => (w, Ok urls);
     nostr_GetPublicKey := fun sk => Ok ("pub-" +:+ sk);
     nostr_Now := fun _ => 1700000000;
     nostr_sign := fun ev _ => (PubKey ev, "id", "sig");
     nostr_RelayConnect := fun url w =>
       (w, if bool_decide (url ∈ down) then inl "connection refused"
           else inr url);
     relay_Publish := fun _ _ w => (w, None) |}.

End Publisher.

(** ** Hexadecimal strings *)

Module HexStrings.
Import Regexp.

(** [$] as the last item of a pattern: without the flag [m] it holds at the
    end of the text only, so the rest of the pattern succeeds at [e] exactly
    when [e] is the length of the text. *)
Definition at_end (t : list ascii) (e : nat) : option nat :=
  if Nat.eqb e (length t) then Some e else None.

(** A match of [r$] that begins exactly at [pos]. *)
Definition match_at_dollar (r : regex) (t : list ascii) (pos : nat)
  : option nat :=
  run r t pos (at_end t).

(** The leftmost match of [r$] that begins at [pos] or later. *)
Fixpoint search_dollar (r : regex) (t : list ascii) (fuel pos : nat)
  : option (nat * nat) :=
  match match_at_dollar r t pos with
  | Some e => Some (pos, e)
  | None =>
      match fuel, step t pos with
      | S fuel', Some (_, w) => search_dollar r t fuel' (pos + w)
      | _, _ => None
      end
  end.

(** [regexp.MatchString] for a pattern [r$]. *)
Definition MatchString_dollar (r : regex) (s : string) : bool :=
  let t := list_ascii_of_string s in
  bool_decide (is_Some (search_dollar r t (length t) 0)).

(** [[a-fA-F0-9]] *)
Definition hexdigit (c : Z) : bool :=
  ((97 <=? c) && (c <=? 102)) || ((65 <=? c) && (c <=? 70)) ||
  ((48 <=? c) && (c <=? 57)).

(** The pattern "^[a-fA-F0-9]{64}$", without its last item. *)
Definition re_hex64 : regex := Cat Bol (Rep 64 (Cls hexdigit)).

(** The pattern "^[a-fA-F0-9]+$", without its last item. *)
Definition re_hex : regex := Cat Bol (Plus (Cls hexdigit)).

(** [is64HexString] *)
Definition is64HexString (s : string) : bool :=
  if negb (Nat.eqb (String.length s) 64) then false
  else MatchString_dollar re_hex64 s.

(** [isHexString] *)
Definition isHexString (s : string) : bool := MatchString_dollar re_hex s.

(** Every byte of the string is a hexadecimal digit. *)
Definition hexadecimal (s : string) : Prop :=
  Forall (fun c => hexdigit (code c) = true) (list_ascii_of_string s).

End HexStrings.

(** ** Texts without hash sign, lines *)

Module PlainContent.
Import Regexp.

(** No byte of the string is [#] or 0xEF, the first byte of the encodings
    of U+FE5F and U+FF03. *)
Definition hash_free (s : string) : Prop :=
  Forall (fun c => code c ≠ 35 ∧ code c ≠ 239) (list_ascii_of_string s).

(** The string is made of line feeds only. *)
Definition blank_lines (s : string) : Prop :=
  Forall (fun c => c = "010"%char) (list_ascii_of_string s).

(** The string has no line feed. *)
Definition one_line (s : string) : Prop :=
  Forall (fun c => c ≠ "010"%char) (list_ascii_of_string s).

End PlainContent.

(** ** The other commands

    The commands that write files, start the editor, generate keys and read
    the flags of the relay list need more of the outside world: a [Host]
    adds these collaborators to a [System]; [F] is the type of an open
    file.  What a command does is a list of [action]s: the effects of the
    publish commands, the files created, written and closed, and the editor
    runs. *)

Module Commands.
Import Publisher.

(** [type RwFlag struct] *)
Record RwFlag : Type := mkRwFlag {
  Read : bool;
  Write : bool
}.

Inductive action : Type :=
  | Out (e : effect)                      (* a line printed, a relay call *)
  | Create (path : string)                (* os.Create *)
  | FileWrite (path data : string)        (* fp.WriteString *)
  | Close (path : string)                 (* fp.Close *)
  | Run (editor path : string).           (* exec.Command(e, path).Run *)

Record Host (W R F : Type) : Type := mkHost {
  host_system : System W R;
  (** [os.Create] *)
  os_Create : string -> W -> W * (string + F);
  (** [File.WriteString]: the error, if any *)
  file_WriteString : F -> string -> W -> W * option string;
  (** [File.Close] *)
  file_Close : F -> W -> W;
  (** [exec.Command(e, path)] with the standard streams of the process,
      then [Run]: the error, if any *)
  exec_Run : string -> string -> W -> W * option string;
  (** [json.Unmarshal] into a [map[string]RwFlag], then [range] over the
      map: the entries in the order the iteration yields them, or the error
      of the decoder *)
  relay_entries : string -> W -> W * result (list (string * RwFlag));
  (** [nostr.GeneratePrivateKey] *)
  nostr_GeneratePrivateKey : W -> W * string;
  (** [nip19.EncodePrivateKey] and [nip19.EncodePublicKey] *)
  nip19_EncodePrivateKey : string -> result string;
  nip19_EncodePublicKey : string -> result string
}.
Arguments host_system {W R F}.
Arguments os_Create {W R F}.
Arguments file_WriteString {W R F}.
Arguments file_Close {W R F}.
Arguments exec_Run {W R F}.
Arguments relay_entries {W R F}.
Arguments nostr_GeneratePrivateKey {W R F}.
Arguments nip19_EncodePrivateKey {W R F}.
Arguments nip19_EncodePublicKey {W R F}.

Definition nsec : string := ".nsec".
Definition hpub : string := ".hpub".
Definition npub : string := ".npub".
Definition profile : string := "profile.json".
Definition emoji : string := "customemoji.json".

(** [nostr.KindSetMetadata] and [nostr.KindRelayListMetadata] *)
Definition KindSetMetadata : Z := 0.
Definition KindRelayListMetadata : Z := 10002.

(** A text in which each apostrophe stands for a double quote. *)
Definition quoted (s : string) : string :=
  string_of_list_ascii
    (map (fun c => if Ascii.eqb c "'"%char then "034"%char else c)
         (list_ascii_of_string s)).

(** The lines [dispHelp] prints. *)
Definition dispHelp : trace :=
  [ Print ("Usage :" +:+ String newline "  nostk <sub-command> [param...]");
    Print "    sub-command :";
    Print "        init : Initializing the nostk environment";
    Print "        genkey : create Prive Key and Public Key";
    Print "        lsRelay : Show relay list";
    Print "        editRelays : edit relay list.";
    Print "        pubRelays : Publish relay list.";
    Print "        editProfile : Edit your profile.";
    Print "        pubProfile: Publish your profile.";
    Print "        pubMessage <text message>: Publish message to relays." ].

(** [fmt.Sprintf("%v", b)] for a boolean. *)
Definition show_bool (b : bool) : string := if b then "true" else "false".

(** The tag [publishRelayList] builds for the relay [i]: a marker is added
    only when exactly one of the flags is set. *)
Definition relay_tag (i : string) (f : RwFlag) : Tag :=
  let t := ["r"; i] in
  if Read f && Write f then t
  else if Read f then t ++ ["read"]
  else if Write f then t ++ ["write"]
  else t.

(** What [json.Marshal] gives for the skeletons [createProfile],
    [createRelayList] and [createCustomEmojiList] build: the profile with
    eight empty fields, the relay list with the relay [""] read and written,
    and the emoji list with the entry name, url. *)
Definition profile_skeleton : string :=
  quoted ("{'name':'','display_name':'','about':'','website':'','picture':''," +:+
          "'banner':'','nip05':'','lud16':''}").
Definition relays_skeleton : string :=
  quoted "{'':{'read':true,'write':true}}".
Definition emoji_skeleton : string := quoted "{'name':'url'}".

Section WithHost.
Context {W R F : Type} (host : Host W R F).

(** The end of a command that returns an error. *)
Definition finish {A : Type} (r : result A) : exit :=
  match r with
  | Ok _ => Exit 0
  | Err err => Fatal err
  | Panic m => Crash m
  end.

(** [readProfile]; the error of [ioutil.ReadFile] is not looked at. *)
Definition readProfile (w : W) : W * result string :=
  match getDir (host_system host) w with
  | (w1, Ok d) =>
      let path := d +:+ "/" +:+ profile in
      match os_Stat (host_system host) path w1 with
      | (w2, Some err) => (w2, Err err)
      | (w2, None) =>
          match ioutil_ReadFile (host_system host) path w2 with
          | (w3, (b, _)) => (w3, Ok (remove_lf b))
          end
      end
  | (w1, Err e) => (w1, Err e)
  | (w1, Panic m) => (w1, Panic m)
  end.

(** The body the four functions [saveHSecKey], [saveNSecKey], [saveHPubKey]
    and [saveNPubKey] share, up to the name of the file; the result of
    [fp.WriteString] is not looked at, the deferred [fp.Close] runs at the
    return. *)
Definition save_key (name dn key : string) (w : W)
  : W * list action * result unit :=
  let path := dn +:+ "/" +:+ name in
  match os_Create host path w with
  | (w1, inl err) => (w1, [Create path], Err err)
  | (w1, inr fp) =>
      match file_WriteString host fp key w1 with
      | (w2, _) =>
          (file_Close host fp w2,
           [Create path; FileWrite path key; Close path], Ok tt)
      end
  end.

Definition saveHSecKey (dn sk : string) := save_key hsec dn sk.
Definition saveNSecKey (dn nkey : string) := save_key nsec dn nkey.
Definition saveHPubKey (dn pk : string) := save_key hpub dn pk.
Definition saveNPubKey (dn nkey : string) := save_key npub dn nkey.

(** [genHexKey] *)
Definition genHexKey (w : W) : W * result (string * string) :=
  match nostr_GeneratePrivateKey host w with
  | (w1, sk) =>
      (w1, bind (nostr_GetPublicKey (host_system host) sk) (fun pk =>
           Ok (sk, pk)))
  end.

(** [genNKey] *)
Definition genNKey (sk pk : string) : result (string * string) :=
  bind (nip19_EncodePrivateKey host sk) (fun nsec =>
  bind (nip19_EncodePublicKey host pk) (fun npub =>
  Ok (nsec, npub))).

(** A step of a command that runs [next] after a successful [step] and
    returns the error of [step] otherwise. *)
Definition and_then (step : W -> W * list action * result unit)
    (next : W -> W * list action * result unit) (w : W)
  : W * list action * result unit :=
  match step w with
  | (w1, tr1, Ok _) =>
      match next w1 with
      | (w2, tr2, r) => (w2, tr1 ++ tr2, r)
      end
  | (w1, tr1, Err e) => (w1, tr1, Err e)
  | (w1, tr1, Panic m) => (w1, tr1, Panic m)
  end.

Definition done_ (w : W) : W * list action * result unit := (w, [], Ok tt).

(** [genKey] *)
Definition genKey (w : W) : W * list action * result unit :=
  match getDir (host_system host) w with
  | (w1, Ok dirName) =>
      match genHexKey w1 with
      | (w2, Ok (sk, pk)) =>
          match genNKey sk pk with
          | Ok (nsec, npub) =>
              and_then (saveHSecKey dirName sk)
             (and_then (saveHPubKey dirName pk)
             (and_then (saveNSecKey dirName nsec)
             (and_then (saveNPubKey dirName npub) done_))) w2
          | Err e => (w2, [], Err e)
          | Panic m => (w2, [], Panic m)
          end
      | (w2, Err e) => (w2, [], Err e)
      | (w2, Panic m) => (w2, [], Panic m)
      end
  | (w1, Err e) => (w1, [], Err e)
  | (w1, Panic m) => (w1, [], Panic m)
  end.

(** The body [createProfile], [createRelayList] and [createCustomEmojiList]
    share after [json.Marshal], up to the file and the text: the text is
    written to the file, and the error of the write is returned. *)
Definition create_file (name text : string) (w : W)
  : W * list action * result unit :=
  match getDir (host_system host) w with
  | (w1, Ok d) =>
      let path := d +:+ "/" +:+ name in
      match os_Create host path w1 with
      | (w2, inl err) => (w2, [Create path], Err err)
      | (w2, inr fp) =>
          match file_WriteString host fp text w2 with
          | (w3, Some err) =>
              (file_Close host fp w3,
               [Create path; FileWrite path text; Close path], Err err)
          | (w3, None) =>
              (file_Close host fp w3,
               [Create path; FileWrite path text; Close path], Ok tt)
          end
      end
  | (w1, Err e) => (w1, [], Err e)
  | (w1, Panic m) => (w1, [], Panic m)
  end.

Definition createProfile := create_file profile profile_skeleton.
Definition createRelayList := create_file relays relays_skeleton.
Definition createCustomEmojiList := create_file emoji emoji_skeleton.

(** [initEnv] *)
Definition initEnv : W -> W * list action * result unit :=
  and_then createProfile
 (and_then createRelayList
 (and_then createCustomEmojiList done_)).

(** The loop of [saveRelays] over the lines that remain. *)
Fixpoint saveRelays_loop (fp : F) (path : string) (rl : list string) (w : W)
  : W * list action * result unit :=
  match rl with
  | [] => (w, [], Ok tt)
  | l :: rl' =>
      let data := l +:+ String newline "" in
      match file_WriteString host fp data w with
      | (w1, Some err) => (w1, [FileWrite path data], Err err)
      | (w1, None) =>
          match saveRelays_loop fp path rl' w1 with
          | (w2, tr, r) => (w2, FileWrite path data :: tr, r)
          end
      end
  end.

(** [saveRelays] *)
Definition saveRelays (rl : list string) (w : W)
  : W * list action * result unit :=
  match getDir (host_system host) w with
  | (w1, Ok dn) =>
      let path := dn +:+ "/" +:+ relays in
      match os_Create host path w1 with
      | (w2, inl err) => (w2, [Create path], Err err)
      | (w2, inr fp) =>
          match saveRelays_loop fp path rl w2 with
          | (w3, tr, r) =>
              (file_Close host fp w3, Create path :: tr ++ [Close path], r)
          end
      end
  | (w1, Err e) => (w1, [], Err e)
  | (w1, Panic m) => (w1, [], Panic m)
  end.

(** The line [listRelays] prints for an entry. *)
Definition relay_line (e : string * RwFlag) : string :=
  e.1 +:+ " R:" +:+ show_bool (Read e.2) +:+ " W:" +:+ show_bool (Write e.2).

(** [listRelays] *)
Definition listRelays (w : W) : W * list action * result unit :=
  match readRelayList (host_system host) w with
  | (w1, Ok b) =>
      match relay_entries host b w1 with
      | (w2, Ok p) => (w2, (fun e => Out (Print (relay_line e))) <$> p, Ok tt)
      | (w2, Err e) => (w2, [], Err e)
      | (w2, Panic m) => (w2, [], Panic m)
      end
  | (w1, Err e) => (w1, [], Err e)
  | (w1, Panic m) => (w1, [], Panic m)
  end.

(** The body [editRelayList] and [editProfile] share, up to the file, the
    line printed and the error returned when the file is missing. *)
Definition edit_file (name line missing : string) (w : W)
  : W * list action * result unit :=
  let e := os_Getenv (host_system host) "EDITOR" w in
  if String.eqb e "" then
    (w, [], Err "Not set EDITOR environmental variables")
  else
    match getDir (host_system host) w with
    | (w1, Ok d) =>
        let path := d +:+ "/" +:+ name in
        match os_Stat (host_system host) path w1 with
        | (w2, Some _) => (w2, [Out (Print line)], Err missing)
        | (w2, None) =>
            match exec_Run host e path w2 with
            | (w3, Some err) => (w3, [Run e path], Err err)
            | (w3, None) => (w3, [Run e path], Ok tt)
            end
        end
    | (w1, Err err) => (w1, [], Err err)
    | (w1, Panic m) => (w1, [], Panic m)
    end.

Definition editRelayList :=
  edit_file relays (quoted "Not found relay list. Use 'nostk init'")
            "Not found relay list".
Definition editProfile :=
  edit_file profile "Not found profile file." "Not found profile file".

(** [publishProfile]; its loop over the relays is the one of
    [publishMessage]. *)
Definition publishProfile (w : W) : W * trace * result unit :=
  let rl := [] in
  match readProfile w with
  | (w0, Err err) =>
      (w0, [Print (quoted ("Not found your profile. Use 'nostk init' and " +:+
                           "'nostk editProfile'."))], Err err)
  | (w0, Panic m) => (w0, [], Panic m)
  | (w0, Ok s) =>
      match readPrivateKey (host_system host) w0 with
      | (w1, Err err) =>
          (w1, [Print "Nothing key pair. Make key pair."], Err err)
      | (w1, Panic m) => (w1, [], Panic m)
      | (w1, Ok sk) =>
          match nostr_GetPublicKey (host_system host) sk with
          | Err err => (w1, [], Err err)
          | Panic m => (w1, [], Panic m)
          | Ok pk =>
              match getRelayList (host_system host) rl w1 with
              | (w2, Err err) =>
                  (w2, [Print "Nothing relay list. Make a relay list."],
                   Err err)
              | (w2, Panic m) => (w2, [], Panic m)
              | (w2, Ok rl) =>
                  let ev :=
                    mkEvent "" pk (nostr_Now (host_system host) w2)
                            KindSetMetadata [] s "" in
                  let ev := Sign (host_system host) ev sk in
                  let '(w3, tr) :=
                    publish_loop (host_system host) ev rl w2 in
                  (w3, tr, Ok tt)
              end
          end
      end
  end.

(** The body of the loop of [publishRelayList] over the relays. *)
Definition publishRelayList_attempt (ev : Event) (url : string) (w : W)
  : W * trace :=
  match nostr_RelayConnect (host_system host) url w with
  | (w1, inl err) => (w1, [Connect url; Print err])
  | (w1, inr relay) =>
      match relay_Publish (host_system host) relay ev w1 with
      | (w2, Some err) => (w2, [Connect url; Publish url ev; Print err])
      | (w2, None) =>
          (w2, [Connect url; Publish url ev;
                Print ("published relay list to " +:+ url)])
      end
  end.

Fixpoint publishRelayList_loop (ev : Event) (rl : list string) (w : W)
  : W * trace :=
  match rl with
  | [] => (w, [])
  | url :: rl' =>
      let '(w1, tr1) := publishRelayList_attempt ev url w in
      let '(w2, tr2) := publishRelayList_loop ev rl' w1 in
      (w2, tr1 ++ tr2)
  end.

(** [publishRelayList] *)
Definition publishRelayList (w : W) : W * trace * result unit :=
  match readRelayList (host_system host) w with
  | (w0, Err err) => (w0, [], Err err)
  | (w0, Panic m) => (w0, [], Panic m)
  | (w0, Ok b) =>
      match relay_entries host b w0 with
      | (w0', Err err) => (w0', [], Err err)
      | (w0', Panic m) => (w0', [], Panic m)
      | (w0', Ok p) =>
          let tags := (fun e => relay_tag e.1 e.2) <$> p in
          match readPrivateKey (host_system host) w0' with
          | (w1, Err err) =>
              (w1, [Print "Nothing key pair. Make key pair."], Err err)
          | (w1, Panic m) => (w1, [], Panic m)
          | (w1, Ok sk) =>
              match nostr_GetPublicKey (host_system host) sk with
              | Err err => (w1, [], Err err)
              | Panic m => (w1, [], Panic m)
              | Ok pk =>
                  match getRelayList (host_system host) [] w1 with
                  | (w2, Err err) =>
                      (w2, [Print "Nothing relay list. Make a relay list."],
                       Err err)
                  | (w2, Panic m) => (w2, [], Panic m)
                  | (w2, Ok rl) =>
                      let ev :=
                        mkEvent "" pk (nostr_Now (host_system host) w2)
                                KindRelayListMetadata tags "" "" in
                      let ev := Sign (host_system host) ev sk in
                      let '(w3, tr) := publishRelayList_loop ev rl w2 in
                      (w3, tr, Ok tt)
                  end
              end
          end
      end
  end.

(** The end of a case of [main] that calls a command and passes its error
    to [log.Fatal]. *)
Definition run_command (c : W * list action * result unit)
  : W * list action * exit :=
  (c.1.1, c.1.2, finish c.2).

Definition run_publish (c : W * trace * result unit)
  : W * list action * exit :=
  (c.1.1, Out <$> c.1.2, finish c.2).

(** [main] *)
Definition main (args : list string) (w : W) : W * list action * exit :=
  if Nat.ltb (length args) 2 then (w, Out <$> dispHelp, Exit 0)
  else
    match index args 1 with
    | Ok cmd =>
        if String.eqb cmd "help" then (w, Out <$> dispHelp, Exit 0)
        else if String.eqb cmd "--help" then (w, Out <$> dispHelp, Exit 0)
        else if String.eqb cmd "-h" then (w, Out <$> dispHelp, Exit 0)
        else if String.eqb cmd "init" then run_command (initEnv w)
        else if String.eqb cmd "genkey" then run_command (genKey w)
        else if String.eqb cmd "lsRelays" then run_command (listRelays w)
        else if String.eqb cmd "editRelays" then run_command (editRelayList w)
        else if String.eqb cmd "editProfile" then run_command (editProfile w)
        else if String.eqb cmd "pubProfile" then run_publish (publishProfile w)
        else if String.eqb cmd "pubRelays" then
          run_publish (publishRelayList w)
        else if String.eqb cmd "pubMessage" then
          match main_pubMessage (host_system host) args w with
          | (w1, tr, e) => (w1, Out <$> tr, e)
          end
        else (w, [], Exit 0)
    | Err e => (w, [], Fatal e)
    | Panic m => (w, [], Crash m)
    end.

End WithHost.

(** The files created, the data written and the editor runs of a list of
    actions. *)
Definition created (tr : list action) : list string :=
  omap (fun a => match a with Create p => Some p | _ => None end) tr.

Definition written (tr : list action) : list (string * string) :=
  omap (fun a => match a with FileWrite p d => Some (p, d) | _ => None end) tr.

Definition closed (tr : list action) : list string :=
  omap (fun a => match a with Close p => Some p | _ => None end) tr.

(** The writes of [saveRelays] as the host answers them: the world in which
    the write number [i] is made, the earlier ones having succeeded, and
    what [WriteString] returns there. *)
Definition world_at_write {W R F : Type} (host : Host W R F) (fp : F)
    (rl : list string) (w : W) (i : nat) : W :=
  foldl (fun w l => (file_WriteString host fp (l +:+ String newline "") w).1)
        w (take i rl).

Definition write_result {W R F : Type} (host : Host W R F) (fp : F)
    (rl : list string) (w : W) (i : nat) : option (option string) :=
  (fun l => (file_WriteString host fp (l +:+ String newline "")
               (world_at_write host fp rl w i)).2) <$> rl !! i.

(** The files of [initEnv] as the host answers them.  For one file in the
    world [w]: the error that [os.Create] or else [WriteString] returns, if
    any; whether it is [os.Create] that fails; and the world after the
    file, which is closed when it has been created. *)
Definition file_error {W R F : Type} (host : Host W R F) (path text : string)
    (w : W) : option string :=
  match os_Create host path w with
  | (_, inl err) => Some err
  | (w1, inr fp) => (file_WriteString host fp text w1).2
  end.

Definition create_refused {W R F : Type} (host : Host W R F) (path : string)
    (w : W) : bool :=
  match os_Create host path w with
  | (_, inl _) => true
  | (_, inr _) => false
  end.

Definition world_after_file {W R F : Type} (host : Host W R F)
    (path text : string) (w : W) : W :=
  match os_Create host path w with
  | (w1, inl _) => w1
  | (w1, inr fp) => file_Close host fp (file_WriteString host fp text w1).1
  end.

(** The three files of [initEnv] in the directory [d], with their texts, and
    the world in which [initEnv] comes to the file number [k]. *)
Definition skeleton_files (d : string) : list (string * string) :=
  [ (d +:+ "/" +:+ profile, profile_skeleton);
    (d +:+ "/" +:+ relays, relays_skeleton);
    (d +:+ "/" +:+ emoji, emoji_skeleton) ].

Definition world_at_file {W R F : Type} (host : Host W R F)
    (files : list (string * string)) (w : W) (k : nat) : W :=
  foldl (fun w f => world_after_file host f.1 f.2 w) w (take k files).

Definition file_result {W R F : Type} (host : Host W R F)
    (files : list (string * string)) (w : W) (k : nat)
  : option (option string) :=
  (fun f => file_error host f.1 f.2 (world_at_file host files w k))
    <$> files !! k.

(** The host [host] on which the writes of the texts of [bad] fail. *)
Definition failing_writes {W R F : Type} (host : Host W R F)
    (bad : list string) : Host W R F :=
  {| host_system := host_system host;
     os_Create := os_Create host;
     file_WriteString := fun fp data w =>
       if bool_decide (data ∈ bad) then (w, Some "no space left on device")
       else file_WriteString host fp data w;
     file_Close := file_Close host;
     exec_Run := exec_Run host;
     relay_entries := relay_entries host;
     nostr_GeneratePrivateKey := nostr_GeneratePrivateKey host;
     nip19_EncodePrivateKey := nip19_EncodePrivateKey host;
     nip19_EncodePublicKey := nip19_EncodePublicKey host |}.

(** Hosts to run the commands on.  [simple_host sys entries unwritable] is
    the host over [sys] on which the relay list decodes to [entries],
    [os.Create] fails on the paths of [unwritable] and succeeds on the
    others, and writes and editor runs succeed; [with_ReadFile] and
    [with_Getenv] replace one call of a system. *)
Definition simple_host (sys : System unit string)
    (entries : list (string * RwFlag)) (unwritable : list string)
  : Host unit string string :=
  {| host_system := sys;
     os_Create := fun path w =>
       (w, if bool_decide (path ∈ unwritable) then inl "permission denied"
           else inr path);
     file_WriteString := fun _ _ w => (w, None);
     file_Close := fun _ w => w;
     exec_Run := fun _ _ w => (w, None);
     relay_entries := fun _ w => (w, Ok entries);
     nostr_GeneratePrivateKey := fun w => (w, "5ec");
     nip19_EncodePrivateKey := fun sk => Ok ("nsec1" +:+ sk);
     nip19_EncodePublicKey := fun pk => Ok ("npub1" +:+ pk) |}.

Definition with_ReadFile {W R : Type} (sys : System W R)
    (read : string -> W -> W * (string * option string)) : System W R :=
  {| os_Getenv := os_Getenv sys;
     os_Stat := os_Stat sys;
     os_Mkdir := os_Mkdir sys;
     ioutil_ReadFile := read;
     relay_keys := relay_keys sys;
     nostr_GetPublicKey := nostr_GetPublicKey sys;
     nostr_Now := nostr_Now sys;
     nostr_sign := nostr_sign sys;
     nostr_RelayConnect := nostr_RelayConnect sys;
     relay_Publish := relay_Publish sys |}.

Definition with_Getenv {W R : Type} (sys : System W R)
    (env : string -> W -> string) : System W R :=
  {| os_Getenv := env;
     os_Stat := os_Stat sys;
     os_Mkdir := os_Mkdir sys;
     ioutil_ReadFile := ioutil_ReadFile sys;
     relay_keys := relay_keys sys;
     nostr_GetPublicKey := nostr_GetPublicKey sys;
     nostr_Now := nostr_Now sys;
     nostr_sign := nostr_sign sys;
     nostr_RelayConnect := nostr_RelayConnect sys;
     relay_Publish := relay_Publish sys |}.

(** The system [sys] with the file [path] unreadable. *)
Definition unreadable {W R : Type} (sys : System W R) (path : string)
  : System W R :=
  with_ReadFile sys (fun p w =>
    if String.eqb p path then (w, ("", Some "input/output error"))
    else ioutil_ReadFile sys p w).

End Commands.

(** * Properties *)

(** ** The tag schema *)

Section TagSchemaFacts.
Import TagSchema.

Lemma sliceToMap_elem (r : gmap Z (list string)) (kind : Z) (target : string) :
  target ∈ sliceToMap r kind ↔ target ∈ default [] (r !! kind).
Proof.
  unfold sliceToMap.
  assert (G : ∀ (l : list string) (acc : gset string),
             target ∈ foldl (fun m v => {[ v ]} ∪ m) acc l
             ↔ target ∈ acc ∨ target ∈ l).
  { induction l as [|v l IH]; intros acc; simpl.
    - rewrite elem_of_nil. tauto.
    - rewrite IH, elem_of_union, elem_of_singleton, elem_of_cons. tauto. }
  rewrite G, elem_of_empty. tauto.
Qed.

Lemma contains_true (kind : Z) (name : string) :
  contains NewChkTblMap kind name = true ↔ listed kind name.
Proof.
  unfold contains, listed.
  rewrite bool_decide_eq_true, sliceToMap_elem.
  destruct (NewChkTblMap !! kind) as [l|]; simpl.
  - split; [eauto | intros (l' & [= <-] & ?); done].
  - rewrite elem_of_nil. split; [done | intros (l' & ? & ?); done].
Qed.

Lemma contains_false (kind : Z) (name : string) :
  contains NewChkTblMap kind name = false ↔ ¬ listed kind name.
Proof. rewrite <- contains_true. destruct (contains _ _ _); naive_solver. Qed.

Lemma checkTags_cons_conforms (kind : Z) (tg : Tag) (rest : Tags) :
  conforms kind tg → checkTags kind (tg :: rest) = checkTags kind rest.
Proof.
  intros (name & Hn & Hl). unfold checkTags; simpl.
  unfold tag_name in Hn. unfold index. rewrite Hn.
  apply contains_true in Hl. by rewrite Hl.
Qed.

Lemma checkTags_app_conforms (kind : Z) (pre rest : Tags) :
  Forall (conforms kind) pre → checkTags kind (pre ++ rest) = checkTags kind rest.
Proof.
  induction 1 as [|tg pre Htg _ IH]; [done|].
  simpl. by rewrite checkTags_cons_conforms.
Qed.

Lemma checkTags_cons_invalid (kind : Z) (tg : Tag) (name : string) (rest : Tags) :
  tag_name tg = Some name → ¬ listed kind name →
  checkTags kind (tg :: rest) = (Err invalid_tag, [log_invalid kind name]).
Proof.
  intros Hn Hl. unfold checkTags; simpl.
  unfold tag_name in Hn. unfold index. rewrite Hn.
  apply contains_false in Hl. by rewrite Hl.
Qed.

Lemma checkTags_cons_empty (kind : Z) (rest : Tags) :
  checkTags kind ([] :: rest) = (Panic index_out_of_range, []).
Proof. reflexivity. Qed.

(** The three ways the loop ends. *)
Lemma checkTags_cases (kind : Z) (tgs : Tags) :
  (Forall (conforms kind) tgs ∧ checkTags kind tgs = (Ok tt, []))
  ∨ (∃ pre tg name post,
        tgs = pre ++ tg :: post ∧ Forall (conforms kind) pre ∧
        tag_name tg = Some name ∧ ¬ listed kind name ∧
        checkTags kind tgs = (Err invalid_tag, [log_invalid kind name]))
  ∨ (∃ pre post,
        tgs = pre ++ [] :: post ∧ Forall (conforms kind) pre ∧
        checkTags kind tgs = (Panic index_out_of_range, [])).
Proof.
  induction tgs as [|tg tgs IH].
  - left. split; [constructor | reflexivity].
  - destruct tg as [|name fields].
    { right; right. exists [], tgs. split; [done|]. split; [constructor | reflexivity]. }
    destruct (contains NewChkTblMap kind name) eqn:Hc.
    + assert (Hconf : conforms kind (name :: fields)).
      { exists name. split; [done|]. by apply contains_true. }
      rewrite checkTags_cons_conforms by done.
      destruct IH as [[Hall Hr] | [(pre & tg & n & post & -> & Hpre & Hn & Hl & Hr)
                                  | (pre & post & -> & Hpre & Hr)]].
      * left. split; [by constructor | done].
      * right; left. exists ((name :: fields) :: pre), tg, n, post.
        repeat split; try done. by constructor.
      * right; right. exists ((name :: fields) :: pre), post.
        repeat split; try done. by constructor.
    + right; left. exists [], (name :: fields), name, tgs.
      apply contains_false in Hc.
      repeat split; try done.
      by apply checkTags_cons_invalid.
Qed.

End TagSchemaFacts.

Import TagSchema.

(** C3. For every kind and every sequence of non-empty tags, [checkTags]
    succeeds if and only if the first element of every tag is listed for the
    kind.  When it fails, it fails at the first tag whose name is not
    listed, whatever comes after it: it returns the error Inclusion of
    invalid tag in specified kind and logs one line, which holds the kind
    in decimal digits after kind : and that name after tagName : .  A kind
    that is not a key of the table has no listed name, so that validation
    fails for it as soon as there is a tag. *)
Theorem checkTags_succeeds_iff_all_listed (kind : Z) (tgs : Tags) :
  Forall (fun tg => tg ≠ []) tgs →
  ((checkTags kind tgs).1 = Ok tt ↔ Forall (conforms kind) tgs)
  ∧ ((checkTags kind tgs).1 ≠ Ok tt →
     ∃ pre tg name post,
       tgs = pre ++ tg :: post ∧ Forall (conforms kind) pre ∧
       tag_name tg = Some name ∧ ¬ listed kind name ∧
       checkTags kind tgs
       = (Err "Inclusion of invalid tag in specified kind",
          ["kind : " +:+ pretty kind +:+ ", tagName : " +:+ name]))
  ∧ (∀ pre tg name post,
       tgs = pre ++ tg :: post → Forall (conforms kind) pre →
       tag_name tg = Some name → ¬ listed kind name →
       checkTags kind tgs
       = (Err "Inclusion of invalid tag in specified kind",
          ["kind : " +:+ pretty kind +:+ ", tagName : " +:+ name]))
  ∧ (NewChkTblMap !! kind = None →
     (∀ name, ¬ listed kind name) ∧
     (tgs ≠ [] →
      (checkTags kind tgs).1
      = Err "Inclusion of invalid tag in specified kind")).
Proof.
  intros Hne.
  assert (Hnopanic : ∀ pre post, tgs ≠ pre ++ [] :: post).
  { intros pre post ->. apply Forall_app in Hne as [_ Hne].
    by inversion Hne. }
  assert (Hbad : ∀ pre tg name post,
             tgs = pre ++ tg :: post → tag_name tg = Some name →
             ¬ listed kind name → ¬ Forall (conforms kind) tgs).
  { intros pre tg name post -> Hn Hl Hall.
    apply Forall_app in Hall as [_ Hall]. inversion Hall as [|? ? Hc _]; subst.
    destruct Hc as (name' & Hn' & Hl'). congruence. }
  assert (Hfirst : ∀ pre tg name post,
             tgs = pre ++ tg :: post → Forall (conforms kind) pre →
             tag_name tg = Some name → ¬ listed kind name →
             checkTags kind tgs
             = (Err "Inclusion of invalid tag in specified kind",
                ["kind : " +:+ pretty kind +:+ ", tagName : " +:+ name])).
  { intros pre tg name post -> Hpre Hn Hl.
    rewrite checkTags_app_conforms by done.
    by rewrite (checkTags_cons_invalid kind tg name post Hn Hl). }
  split; [|split; [|split; [exact Hfirst|]]];
    destruct (checkTags_cases kind tgs)
      as [[Hall Hr] | [(pre & tg & name & post & E & Hpre & Hn & Hl & Hr)
                      | (pre & post & E & _)]];
    try (by destruct (Hnopanic pre post)).
  - by rewrite Hr.
  - rewrite Hr; simpl. split; [done|].
    intros Hall. by destruct (Hbad pre tg name post).
  - by rewrite Hr.
  - intros _. exists pre, tg, name, post.
    repeat split; try done; by apply Hfirst.
  - intros Hk. split.
    + intros name (l & Hl & _). congruence.
    + rewrite Hr. destruct tgs as [|tg tgs']; [done|]. intros _.
      inversion Hall as [|? ? (name & _ & l & Hl & _) _]; congruence.
  - intros Hk. split.
    + intros name' (l & Hl' & _). congruence.
    + by rewrite Hr.
Qed.

Lemma checkTags_succeeds_iff_all_listed_witness :
  Forall (fun tg : Tag => tg ≠ []) [["t"; "x"]; ["bogus"; "y"]]
  ∧ checkTags 1 [["t"; "x"]; ["bogus"; "y"]]
    = (Err "Inclusion of invalid tag in specified kind",
       ["kind : 1, tagName : bogus"]).
Proof.
  assert (H : Forall (fun tg : Tag => tg ≠ []) [["t"; "x"]; ["bogus"; "y"]])
    by (repeat constructor; discriminate).
  split; [exact H|].
  refine (proj1 (proj2 (proj2
            (checkTags_succeeds_iff_all_listed 1 [["t"; "x"]; ["bogus"; "y"]] H)))
            [["t"; "x"]] ["bogus"; "y"] "bogus" [] eq_refl _ eq_refl _).
  - repeat constructor. exists "t". split; [done|].
    apply contains_true. reflexivity.
  - apply contains_false. reflexivity.
Defined.

(** C10, the claim as stated: a tag sequence that contains an empty tag
    always panics.  It fails when a tag before the empty one is not listed:
    the loop has returned the error before it reaches the empty tag. *)
Lemma checkTags_empty_tag_may_return_error :
  ¬ (∀ (kind : Z) (tgs : Tags),
       [] ∈ tgs → is_panic (checkTags kind tgs).1 = true).
Proof.
  intros H. specialize (H 1 [["bogus"]; []]).
  assert (Hin : ([] : Tag) ∈ [["bogus"]; []]) by (right; left).
  specialize (H Hin). vm_compute in H. discriminate.
Qed.

(** C10, amended. [checkTags] reads position 0 of each tag it reaches.  It
    never panics on a sequence of non-empty tags.  On a sequence with an
    empty tag it panics (index out of range, nothing logged) exactly when
    every tag before the first empty one has a listed name; otherwise it
    returns the error Inclusion of invalid tag in specified kind for the
    first tag whose name is not listed, which stands before the empty tag,
    and logs the kind and that name. *)
Theorem checkTags_panics_iff (kind : Z) (tgs : Tags) :
  (is_panic (checkTags kind tgs).1 = true
   ↔ ∃ pre post, tgs = pre ++ [] :: post ∧ Forall (conforms kind) pre)
  ∧ (is_panic (checkTags kind tgs).1 = true →
     checkTags kind tgs = (Panic "runtime error: index out of range", []))
  ∧ (Forall (fun tg => tg ≠ []) tgs → is_panic (checkTags kind tgs).1 = false)
  ∧ (∀ pre post,
       tgs = pre ++ [] :: post → Forall (fun tg => tg ≠ []) pre →
       (Forall (conforms kind) pre ∧
        checkTags kind tgs = (Panic "runtime error: index out of range", []))
       ∨ (∃ pre' tg name post',
            pre = pre' ++ tg :: post' ∧ Forall (conforms kind) pre' ∧
            tag_name tg = Some name ∧ ¬ listed kind name ∧
            checkTags kind tgs
            = (Err "Inclusion of invalid tag in specified kind",
               ["kind : " +:+ pretty kind +:+ ", tagName : " +:+ name])))
  ∧ (∀ pre tg name rest,
       tgs = pre ++ tg :: rest → Forall (conforms kind) pre →
       tag_name tg = Some name → ¬ listed kind name →
       checkTags kind tgs
       = (Err "Inclusion of invalid tag in specified kind",
          ["kind : " +:+ pretty kind +:+ ", tagName : " +:+ name])).
Proof.
  assert (Hiff : is_panic (checkTags kind tgs).1 = true
           ↔ ∃ pre post, tgs = pre ++ [] :: post ∧ Forall (conforms kind) pre).
  { split.
    - destruct (checkTags_cases kind tgs)
        as [[_ Hr] | [(pre & tg & name & post & _ & _ & _ & _ & Hr)
                     | (pre & post & E & Hpre & _)]].
      + rewrite Hr. discriminate.
      + rewrite Hr. discriminate.
      + intros _. by exists pre, post.
    - intros (pre & post & -> & Hpre).
      rewrite checkTags_app_conforms by done. reflexivity. }
  assert (Hfirst : ∀ pre tg name rest,
             tgs = pre ++ tg :: rest → Forall (conforms kind) pre →
             tag_name tg = Some name → ¬ listed kind name →
             checkTags kind tgs
             = (Err "Inclusion of invalid tag in specified kind",
                ["kind : " +:+ pretty kind +:+ ", tagName : " +:+ name])).
  { intros pre tg name rest -> Hpre Hn Hl.
    rewrite checkTags_app_conforms by done.
    by rewrite (checkTags_cons_invalid kind tg name rest Hn Hl). }
  split; [exact Hiff|]. split; [|split; [|split; [|exact Hfirst]]].
  - intros (pre & post & -> & Hpre)%Hiff.
    rewrite checkTags_app_conforms by done. reflexivity.
  - intros Hne. apply not_true_is_false. intros Hp.
    apply Hiff in Hp as (pre & post & -> & _).
    apply Forall_app in Hne as [_ Hne]. by inversion Hne.
  - intros pre post E Hne.
    destruct (checkTags_cases kind pre)
      as [[Hall _] | [(pre' & tg & name & post' & E' & Hpre' & Hn & Hl & _)
                     | (pre' & post' & E' & _)]].
    + left. split; [done|]. subst tgs.
      rewrite checkTags_app_conforms by done. reflexivity.
    + right. exists pre', tg, name, post'. repeat split; try done.
      apply (Hfirst pre' tg name (post' ++ [] :: post)); try done.
      rewrite E, E'. by rewrite <- app_assoc.
    + exfalso. rewrite E' in Hne. apply Forall_app in Hne as [_ Hne].
      by inversion Hne.
Qed.

Lemma checkTags_panics_iff_witness :
  checkTags 1 [["t"; "x"]; []; ["bogus"]]
  = (Panic "runtime error: index out of range", [])
  ∧ checkTags 1 [["t"; "x"]; ["bogus"]; []]
    = (Err "Inclusion of invalid tag in specified kind",
       ["kind : 1, tagName : bogus"]).
Proof.
  split.
  - exact (proj1 (proj2 (checkTags_panics_iff 1 [["t"; "x"]; []; ["bogus"]]))
             eq_refl).
  - refine (proj2 (proj2 (proj2 (proj2
              (checkTags_panics_iff 1 [["t"; "x"]; ["bogus"]; []]))))
              [["t"; "x"]] ["bogus"] "bogus" [[]] eq_refl _ eq_refl _).
    + repeat constructor. exists "t". split; [done|].
      apply contains_true. reflexivity.
    + apply contains_false. reflexivity.
Defined.

(** ** The event builder *)

Section BuilderFacts.
Import EventBuilder.

Lemma registered_cases (cmd : string) :
  NewConvArgsTagsTbl !! cmd = None ∨ cmd = "pubMessage" ∨ cmd = "pubMessageTo".
Proof.
  unfold NewConvArgsTagsTbl. simpl list_to_map.
  rewrite !lookup_insert. repeat case_decide; auto.
Qed.

(** What [buildJson] hands to the encoder, by the shape of the arguments. *)
Lemma buildRawArg_cases (args : list string) :
  match args with
  | [] | [_] => buildRawArg args = Err err_index
  | _ :: cmd :: rest =>
      match NewConvArgsTagsTbl !! cmd with
      | None => buildRawArg args = Err (err_unsupported cmd)
      | Some binds =>
          NewSubCmdKindTbl !! cmd = Some 1 ∧
          (∀ i : nat, (4 <= i)%nat → binds !! Z.of_nat i = None) ∧
          match rest with
          | [] => buildRawArg args = Ok (mkRawArg 1 "" [])
          | [c] => buildRawArg args = Ok (mkRawArg 1 c [])
          | [c; v] =>
              ∃ name, binds !! 3 = Some [name] ∧ listed 1 name ∧
                      buildRawArg args = Ok (mkRawArg 1 c [[name; v]])
          | _ => buildRawArg args = Panic index_out_of_range
          end
      end
  end.
Proof.
  destruct args as [|prog [|cmd rest]]; [reflexivity..|].
  destruct (registered_cases cmd) as [Hn | [-> | ->]].
  - rewrite Hn. unfold buildRawArg, hasSubcommand. simpl. by rewrite Hn.
  - change (NewConvArgsTagsTbl !! "pubMessage")
      with (Some (list_to_map [(3, ["content-warning"])] : gmap Z (list string))).
    split; [reflexivity|]. split.
    { intros i Hi. simpl. apply lookup_insert_None. split; [done | lia]. }
    destruct rest as [|c [|v [|x rest]]]; try (vm_compute; reflexivity).
    exists "content-warning". split; [reflexivity|].
    split; [apply contains_true; reflexivity | vm_compute; reflexivity].
  - change (NewConvArgsTagsTbl !! "pubMessageTo")
      with (Some (list_to_map [(3, ["p"])] : gmap Z (list string))).
    split; [reflexivity|]. split.
    { intros i Hi. simpl. apply lookup_insert_None. split; [done | lia]. }
    destruct rest as [|c [|v [|x rest]]]; try (vm_compute; reflexivity).
    exists "p". split; [reflexivity|].
    split; [apply contains_true; reflexivity | vm_compute; reflexivity].
Qed.

(** A draft that is returned carries tags that pass [checkTags]. *)
Lemma buildRawArg_ok_checked (args : list string) (ret : RawArg) :
  buildRawArg args = Ok ret →
  checkTags (Kind ret) (Tags_ ret) = (Ok tt, []) ∧
  Forall (conforms (Kind ret)) (Tags_ ret).
Proof.
  intros Hok. pose proof (buildRawArg_cases args) as Hc.
  destruct args as [|prog [|cmd rest]]; [congruence..|].
  destruct (NewConvArgsTagsTbl !! cmd) as [binds|]; [|congruence].
  destruct Hc as (_ & _ & Hc).
  destruct rest as [|c [|v [|x rest]]].
  - rewrite Hc in Hok. injection Hok as <-. split; [reflexivity | constructor].
  - rewrite Hc in Hok. injection Hok as <-. split; [reflexivity | constructor].
  - destruct Hc as (name & _ & Hl & Hc). rewrite Hc in Hok.
    injection Hok as <-. simpl.
    assert (Hconf : conforms 1 [name; v]) by (exists name; done).
    split; [|by repeat constructor].
    by rewrite (checkTags_cons_conforms 1 [name; v] []).
  - congruence.
Qed.

(** The names a returned draft can carry. *)
Lemma buildRawArg_ok_tags (args : list string) (ret : RawArg) :
  buildRawArg args = Ok ret →
  Kind ret = 1
  ∧ Forall (fun tg => ∃ v, tg = ["content-warning"; v] ∨ tg = ["p"; v])
           (Tags_ ret).
Proof.
  intros Hok. pose proof (buildRawArg_cases args) as Hc.
  destruct args as [|prog [|cmd rest]]; [congruence..|].
  destruct (registered_cases cmd) as [Hn | [-> | ->]].
  - rewrite Hn in Hc. congruence.
  - destruct rest as [|c [|v [|x rest]]];
      vm_compute in Hok; simplify_eq; (split; [done|]);
      repeat constructor. by exists v; left.
  - destruct rest as [|c [|v [|x rest]]];
      vm_compute in Hok; simplify_eq; (split; [done|]);
      repeat constructor. by exists v; right.
Qed.

(** [buildJson] has no path to the error of the validator. *)
Lemma buildRawArg_no_abort (args : list string) :
  buildRawArg args ≠ Err "Inclusion of invalid tag in specified kind".
Proof.
  pose proof (buildRawArg_cases args) as Hc.
  destruct args as [|prog [|cmd rest]]; [by rewrite Hc..|].
  destruct (NewConvArgsTagsTbl !! cmd) as [binds|].
  - destruct Hc as (_ & _ & Hc).
    destruct rest as [|c [|v [|x rest]]]; try (by rewrite Hc).
    destruct Hc as (name & _ & _ & ->). done.
  - rewrite Hc. unfold err_unsupported. done.
Qed.

Lemma buildJson_loop_calls_no_checkTags (args : list string) (n i : nat)
    (ret : RawArg) :
  Forall (fun c => is_checkTags c = false) (buildJson_loop_calls args n i ret).
Proof.
  revert i ret. induction n as [|n IH]; intros i ret; [constructor|].
  cbn [buildJson_loop_calls]. apply Forall_app. split.
  - destruct i as [|[|[|i]]]; repeat constructor.
  - destruct (buildJson_step args i ret); [apply IH | constructor..].
Qed.

Lemma buildJson_calls_no_checkTags (args : list string) :
  Forall (fun c => is_checkTags c = false) (buildJson_calls args).
Proof.
  unfold buildJson_calls. apply Forall_app. split; [repeat constructor|].
  destruct (hasSubcommand _ _); [|constructor..].
  apply Forall_app. split; [apply buildJson_loop_calls_no_checkTags|].
  destruct (buildJson_loop _ _ _ _); repeat constructor.
Qed.

Lemma buildJson_calls_last (args : list string) (ret : RawArg) :
  buildRawArg args = Ok ret →
  last (buildJson_calls args) = Some (Call_json_Marshal ret).
Proof.
  unfold buildRawArg, buildJson_calls.
  destruct (hasSubcommand _ _) as [[]| |]; [|done..]. cbn [bind].
  intros ->. by rewrite !app_assoc, last_snoc.
Qed.

End BuilderFacts.

Import EventBuilder.

(** C2, the claim as stated: [buildJson] hands the tags of the draft to
    the validator before it returns.  On the arguments nostk, pubMessage,
    hello, nsfw it returns the draft with the tag content-warning, nsfw,
    and the calls of the run are those of the tables, of [hasSubcommand],
    [get], [addTags] and of the encoder: [checkTags] is not among them. *)
Lemma buildJson_makes_no_validator_call :
  buildRawArg ["nostk"; "pubMessage"; "hello"; "nsfw"]
  = Ok (mkRawArg 1 "hello" [["content-warning"; "nsfw"]])
  ∧ buildJson_calls ["nostk"; "pubMessage"; "hello"; "nsfw"]
    = [Call_NewConvArgsTagsTbl; Call_NewSubCmdKindTbl;
       Call_hasSubcommand ["nostk"; "pubMessage"; "hello"; "nsfw"];
       Call_get ["nostk"; "pubMessage"; "hello"; "nsfw"];
       Call_hasSubcommand ["nostk"; "pubMessage"; "hello"; "nsfw"];
       Call_addTags ["nostk"; "pubMessage"; "hello"; "nsfw"] 3 [];
       Call_NewConvArgsTagsTbl;
       Call_hasSubcommand ["nostk"; "pubMessage"; "hello"; "nsfw"];
       Call_json_Marshal
         (mkRawArg 1 "hello" [["content-warning"; "nsfw"]])]
  ∧ existsb is_checkTags
      (buildJson_calls ["nostk"; "pubMessage"; "hello"; "nsfw"]) = false.
Proof. repeat split; vm_compute; reflexivity. Qed.

(** C2, amended. No run of [buildJson] calls the validator, and none ends
    with its error; the encoder is the last call of a run that builds a
    draft, and it receives that draft.  All the same a returned event never
    holds a tag whose name is not listed for its kind: a draft that is built
    has kind 1 and each of its tags is named content-warning or p, the only
    names the registry binds, both listed for kind 1, so that [checkTags]
    accepts it and logs nothing.  (The encoder [json_Marshal] is
    arbitrary.) *)
Theorem buildJson_returns_only_conforming_events
    (json_Marshal : RawArg → result string) (args : list string) :
  (∀ kind tgs, Call_checkTags kind tgs ∉ buildJson_calls args)
  ∧ buildRawArg args ≠ Err "Inclusion of invalid tag in specified kind"
  ∧ (∀ ret, buildRawArg args = Ok ret →
       last (buildJson_calls args) = Some (Call_json_Marshal ret)
       ∧ Kind ret = 1
       ∧ Forall (fun tg => ∃ v, tg = ["content-warning"; v] ∨ tg = ["p"; v])
                (Tags_ ret)
       ∧ Forall (conforms (Kind ret)) (Tags_ ret)
       ∧ checkTags (Kind ret) (Tags_ ret) = (Ok tt, []))
  ∧ (∀ s, buildJson json_Marshal args = Ok s →
       ∃ ret, buildRawArg args = Ok ret ∧ json_Marshal ret = Ok s ∧
              checkTags (Kind ret) (Tags_ ret) = (Ok tt, []) ∧
              Forall (conforms (Kind ret)) (Tags_ ret)).
Proof.
  split; [|split; [|split]].
  - intros kind tgs Hin.
    pose proof (buildJson_calls_no_checkTags args) as Hall.
    rewrite Forall_forall in Hall. by apply Hall in Hin.
  - apply buildRawArg_no_abort.
  - intros ret Hok. split; [by apply buildJson_calls_last|].
    destruct (buildRawArg_ok_tags args ret Hok) as [Hk Ht].
    split; [done|]. split; [done|].
    destruct (buildRawArg_ok_checked args ret Hok). done.
  - intros s Hs. unfold buildJson in Hs.
    destruct (buildRawArg args) as [ret| |] eqn:Hb; [|done..].
    exists ret. split; [done|]. split; [done|].
    exact (buildRawArg_ok_checked args ret Hb).
Qed.

Lemma buildJson_returns_only_conforming_events_witness :
  ∃ ret,
    buildRawArg ["nostk"; "pubMessageTo"; "hi"; "abcd"] = Ok ret ∧
    Ok (Content ret) = Ok "hi" ∧
    checkTags (Kind ret) (Tags_ ret) = (Ok tt, []) ∧
    Forall (conforms (Kind ret)) (Tags_ ret).
Proof.
  exact (proj2 (proj2 (proj2 (buildJson_returns_only_conforming_events
                  (fun r => Ok (Content r))
                  ["nostk"; "pubMessageTo"; "hi"; "abcd"])))
               "hi" eq_refl).
Defined.

(** C4, on the code. When the subcommand at position 1 is not a key of the
    binding table, [buildJson] returns the unsupported-subcommand error.
    When the subcommand is registered and an argument position [i >= 3] has
    no binding, it does not return that error: element 0 of the missing
    binding is read and the program panics. *)
Theorem buildJson_registry_miss (args : list string) (cmd : string) :
  args !! 1%nat = Some cmd →
  (NewConvArgsTagsTbl !! cmd = None →
   buildRawArg args = Err (err_unsupported cmd))
  ∧ (∀ (binds : gmap Z (list string)) (i : nat),
       NewConvArgsTagsTbl !! cmd = Some binds →
       (3 <= i < length args)%nat → binds !! Z.of_nat i = None →
       buildRawArg args = Panic index_out_of_range).
Proof.
  intros Hcmd. pose proof (buildRawArg_cases args) as Hc.
  destruct args as [|prog [|cmd' rest]]; [done..|].
  injection Hcmd as ->. split.
  - intros Hn. by rewrite Hn in Hc.
  - intros binds i Hb [Hi Hlen] Hnone. rewrite Hb in Hc.
    destruct Hc as (_ & Hge & Hc).
    destruct rest as [|c [|v [|x rest]]]; simpl in Hlen; try lia; [|done].
    destruct Hc as (name & H3 & _). assert (i = 3%nat) as -> by lia.
    change (Z.of_nat 3) with 3 in Hnone. congruence.
Qed.

Lemma buildJson_registry_miss_witness :
  buildRawArg ["nostk"; "pubMessage"; "hello"; "nsfw"; "extra"]
  = Panic index_out_of_range.
Proof.
  refine (proj2 (buildJson_registry_miss
                   ["nostk"; "pubMessage"; "hello"; "nsfw"; "extra"]
                   "pubMessage" eq_refl)
                (list_to_map [(3, ["content-warning"])]) 4%nat eq_refl _ _).
  - simpl. lia.
  - reflexivity.
Defined.

(** C5. A draft that [buildJson] builds has the kind the subcommand table
    gives for the subcommand, the argument at position 2 as its content, and
    one tag [[name; value]] for each argument at a position [i >= 3], where
    [name] is the name bound to the position and [value] the argument.  The
    two examples of the spec: the plain message has kind 1, its content
    and no tag; the message to a recipient has the single tag [["p"; pk]]. *)
Theorem buildJson_kind_content_tags :
  (∀ (args : list string) (ret : RawArg),
     buildRawArg args = Ok ret →
     ∃ cmd binds,
       args !! 1%nat = Some cmd ∧
       NewSubCmdKindTbl !! cmd = Some (Kind ret) ∧
       NewConvArgsTagsTbl !! cmd = Some binds ∧
       Content ret = default "" (args !! 2%nat) ∧
       length (Tags_ ret) = (length args - 3)%nat ∧
       ∀ (i : nat) (value : string),
         (3 <= i)%nat → args !! i = Some value →
         ∃ name, binds !! Z.of_nat i = Some [name] ∧
                 Tags_ ret !! (i - 3)%nat = Some [name; value])
  ∧ (∀ (json_Marshal : RawArg → result string) (prog : string),
       buildRawArg [prog; "pubMessage"; "hello"] = Ok (mkRawArg 1 "hello" []) ∧
       buildJson json_Marshal [prog; "pubMessage"; "hello"]
       = json_Marshal (mkRawArg 1 "hello" []))
  ∧ (∀ (json_Marshal : RawArg → result string) (prog pk : string),
       buildRawArg [prog; "pubMessageTo"; "hi"; pk]
       = Ok (mkRawArg 1 "hi" [["p"; pk]]) ∧
       buildJson json_Marshal [prog; "pubMessageTo"; "hi"; pk]
       = json_Marshal (mkRawArg 1 "hi" [["p"; pk]])).
Proof.
  split; [|split].
  - intros args ret Hok. pose proof (buildRawArg_cases args) as Hc.
    destruct args as [|prog [|cmd rest]]; [congruence..|].
    destruct (NewConvArgsTagsTbl !! cmd) as [binds|] eqn:Hb; [|congruence].
    destruct Hc as (Hk & _ & Hc). exists cmd, binds.
    destruct rest as [|c [|v [|x rest]]].
    + rewrite Hc in Hok. injection Hok as <-. simpl.
      repeat split; try done. intros i value Hi Hv.
      apply lookup_lt_Some in Hv. simpl in Hv. lia.
    + rewrite Hc in Hok. injection Hok as <-. simpl.
      repeat split; try done. intros i value Hi Hv.
      apply lookup_lt_Some in Hv. simpl in Hv. lia.
    + destruct Hc as (name & H3 & _ & Hc).
      rewrite Hc in Hok. injection Hok as <-. simpl.
      repeat split; try done. intros i value Hi Hv.
      assert (i = 3%nat) as ->
        by (apply lookup_lt_Some in Hv; simpl in Hv; lia).
      simpl in Hv. injection Hv as <-. by exists name.
    + congruence.
  - intros json_Marshal prog. unfold buildJson.
    assert (H : buildRawArg [prog; "pubMessage"; "hello"]
                = Ok (mkRawArg 1 "hello" [])) by (vm_compute; reflexivity).
    by rewrite H.
  - intros json_Marshal prog pk. unfold buildJson.
    assert (H : buildRawArg [prog; "pubMessageTo"; "hi"; pk]
                = Ok (mkRawArg 1 "hi" [["p"; pk]])) by (vm_compute; reflexivity).
    by rewrite H.
Qed.

Lemma buildJson_kind_content_tags_witness :
  ∃ cmd binds,
    ["nostk"; "pubMessage"; "hello"; "nsfw"] !! 1%nat = Some cmd ∧
    NewSubCmdKindTbl !! cmd = Some 1 ∧
    NewConvArgsTagsTbl !! cmd = Some binds ∧
    "hello" = default "" (["nostk"; "pubMessage"; "hello"; "nsfw"] !! 2%nat) ∧
    length [["content-warning"; "nsfw"]] = 1%nat ∧
    ∀ (i : nat) (value : string),
      (3 <= i)%nat → ["nostk"; "pubMessage"; "hello"; "nsfw"] !! i = Some value →
      ∃ name, binds !! Z.of_nat i = Some [name] ∧
              [["content-warning"; "nsfw"]] !! (i - 3)%nat = Some [name; value].
Proof.
  exact (proj1 buildJson_kind_content_tags
           ["nostk"; "pubMessage"; "hello"; "nsfw"]
           (mkRawArg 1 "hello" [["content-warning"; "nsfw"]]) eq_refl).
Defined.

(** ** The relay fan-out and the publish command *)

Section PublisherFacts.
Import Publisher.
Context {W R : Type} (sys : System W R).

Lemma connects_app (tr1 tr2 : trace) :
  connects (tr1 ++ tr2) = connects tr1 ++ connects tr2.
Proof. apply omap_app. Qed.

Lemma published_app (tr1 tr2 : trace) :
  published (tr1 ++ tr2) = published tr1 ++ published tr2.
Proof. apply omap_app. Qed.

Lemma printed_app (tr1 tr2 : trace) :
  printed (tr1 ++ tr2) = printed tr1 ++ printed tr2.
Proof. apply omap_app. Qed.

(** What one attempt does: one connection, at most one publication of the
    event, one line. *)
Lemma publish_attempt_shape (ev : Event) (url : string) (w : W) :
  ∃ line,
    ((publish_attempt sys ev url w).2 = [Connect url; Print line]
     ∧ (nostr_RelayConnect sys url w).2 = inl line)
    ∨ (∃ relay,
         (publish_attempt sys ev url w).2
         = [Connect url; Publish url ev; Print line]
         ∧ (nostr_RelayConnect sys url w).2 = inr relay
         ∧ match (relay_Publish sys relay ev (nostr_RelayConnect sys url w).1).2
           with
           | Some err => line = err
           | None => line = "published to " +:+ url
           end).
Proof.
  unfold publish_attempt.
  destruct (nostr_RelayConnect sys url w) as [w1 [err|relay]]; simpl.
  - exists err. by left.
  - destruct (relay_Publish sys relay ev w1) as [w2 [err|]] eqn:Hp; simpl.
    + exists err. right. exists relay. by rewrite Hp.
    + eexists. right. exists relay. by rewrite Hp.
Qed.

Lemma publish_loop_cons (ev : Event) (url : string) (rl : list string) (w : W) :
  publish_loop sys ev (url :: rl) w
  = ((publish_loop sys ev rl (publish_attempt sys ev url w).1).1,
     (publish_attempt sys ev url w).2
     ++ (publish_loop sys ev rl (publish_attempt sys ev url w).1).2).
Proof.
  simpl. destruct (publish_attempt sys ev url w) as [w1 tr1]; simpl.
  by destruct (publish_loop sys ev rl w1).
Qed.

Lemma publish_loop_app (ev : Event) (rl1 rl2 : list string) (w : W) :
  publish_loop sys ev (rl1 ++ rl2) w
  = ((publish_loop sys ev rl2 (publish_loop sys ev rl1 w).1).1,
     (publish_loop sys ev rl1 w).2
     ++ (publish_loop sys ev rl2 (publish_loop sys ev rl1 w).1).2).
Proof.
  revert w. induction rl1 as [|url rl1 IH]; intros w.
  - simpl. by destruct (publish_loop sys ev rl2 w).
  - rewrite <- app_comm_cons, !publish_loop_cons, IH. simpl.
    by rewrite app_assoc.
Qed.

Lemma publish_loop_connects (ev : Event) (rl : list string) (w : W) :
  connects (publish_loop sys ev rl w).2 = rl.
Proof.
  revert w. induction rl as [|url rl IH]; intros w; [done|].
  rewrite publish_loop_cons. simpl. rewrite connects_app, IH.
  destruct (publish_attempt_shape ev url w)
    as [line [[-> _] | (relay & -> & _)]]; done.
Qed.

Lemma publish_loop_printed (ev : Event) (rl : list string) (w : W) :
  length (printed (publish_loop sys ev rl w).2) = length rl.
Proof.
  revert w. induction rl as [|url rl IH]; intros w; [done|].
  rewrite publish_loop_cons. simpl. rewrite printed_app, length_app, IH.
  destruct (publish_attempt_shape ev url w)
    as [line [[-> _] | (relay & -> & _)]]; done.
Qed.

Lemma publish_loop_published (ev : Event) (rl : list string) (w : W) :
  Forall (fun p => p.2 = ev) (published (publish_loop sys ev rl w).2).
Proof.
  revert w. induction rl as [|url rl IH]; intros w; [constructor|].
  rewrite publish_loop_cons. simpl. rewrite published_app.
  apply Forall_app. split; [|apply IH].
  destruct (publish_attempt_shape ev url w)
    as [line [[-> _] | (relay & -> & _)]]; repeat constructor.
Qed.

Lemma publish_loop_trace (ev : Event) (rl : list string) (w : W) :
  (publish_loop sys ev rl w).2
  = concat (imap (fun i url =>
                    (publish_attempt sys ev url (world_before sys ev rl w i)).2)
                 rl).
Proof.
  revert w. induction rl as [|url rl IH]; intros w; [done|].
  rewrite publish_loop_cons, imap_cons. cbn [concat snd]. f_equal.
  rewrite IH. f_equal. apply imap_ext. intros i u _.
  unfold world_before, compose. cbn [take]. by rewrite publish_loop_cons.
Qed.

End PublisherFacts.

Import Publisher.

(** C1. For every ordered list of relay URLs the loop of [publishMessage]
    connects to every URL exactly once and in list order; what it does is,
    URL after URL, exactly the calls and the one line of the outcome that
    this relay's own connection and publication reach, whatever the outcomes
    of the relays before it, so that there are as many outcomes and as many
    lines as URLs; and the loop over a list is the loop over its beginning
    followed by the loop over its end, a failure in the beginning included. *)
Theorem publish_loop_attempts_every_relay_once
    {W R : Type} (sys : System W R) (ev : Event) (rl : list string) (w : W) :
  connects (publish_loop sys ev rl w).2 = rl
  ∧ (publish_loop sys ev rl w).2
    = concat (imap (fun i url =>
                      outcome_trace ev url
                        (attempt_outcome sys ev url (world_before sys ev rl w i)))
                   rl)
  ∧ length (printed (publish_loop sys ev rl w).2) = length rl
  ∧ (∀ rl1 rl2, rl = rl1 ++ rl2 →
       (publish_loop sys ev rl w).2
       = (publish_loop sys ev rl1 w).2
         ++ (publish_loop sys ev rl2 (publish_loop sys ev rl1 w).1).2).
Proof.
  split; [apply publish_loop_connects|].
  split; [|split; [apply publish_loop_printed|]].
  - rewrite publish_loop_trace. f_equal. apply imap_ext. intros i url _.
    unfold publish_attempt, attempt_outcome.
    destruct (nostr_RelayConnect sys url _) as [w1 [err|relay]]; [done|].
    by destruct (relay_Publish sys relay ev w1) as [w2 [err|]].
  - intros rl1 rl2 ->. by rewrite publish_loop_app.
Qed.

Lemma publish_loop_attempts_every_relay_once_witness :
  connects
    (publish_loop (simple_system ("k", None) [] ["wss://b"])
       (mkEvent "" "" 0 1 [] "hello" "") ["wss://a"; "wss://b"; "wss://c"] tt).2
  = ["wss://a"; "wss://b"; "wss://c"]
  ∧ imap (fun i url =>
            attempt_outcome (simple_system ("k", None) [] ["wss://b"])
              (mkEvent "" "" 0 1 [] "hello" "") url
              (world_before (simple_system ("k", None) [] ["wss://b"])
                 (mkEvent "" "" 0 1 [] "hello" "")
                 ["wss://a"; "wss://b"; "wss://c"] tt i))
         ["wss://a"; "wss://b"; "wss://c"]
    = [Published; ConnectFailed "connection refused"; Published].
Proof.
  split.
  - exact (proj1 (publish_loop_attempts_every_relay_once
                    (simple_system ("k", None) [] ["wss://b"])
                    (mkEvent "" "" 0 1 [] "hello" "")
                    ["wss://a"; "wss://b"; "wss://c"] tt)).
  - vm_compute. reflexivity.
Defined.

Section CommandFacts.
Context {W R : Type} (sys : System W R).

Lemma Sign_fields (ev : Event) (sk : string) :
  EvTags (Sign sys ev sk) = EvTags ev
  ∧ EvContent (Sign sys ev sk) = EvContent ev
  ∧ EvKind (Sign sys ev sk) = EvKind ev.
Proof. unfold Sign. by destruct (nostr_sign sys ev sk) as [[pk id] sg]. Qed.

(** The run of [publishMessage], by the step at which it ends: either a
    pre-flight step fails and no relay has been called, or every pre-flight
    step has succeeded, the loop has run and the result is nil. *)
Lemma publishMessage_cases (s : string) (w : W) :
  (is_ok (publishMessage sys s w).2 = false
   ∧ connects (publishMessage sys s w).1.2 = []
   ∧ published (publishMessage sys s w).1.2 = [])
  ∨ (∃ w1 sk pk w2 rl,
       s ≠ "" ∧ readPrivateKey sys w = (w1, Ok sk) ∧
       nostr_GetPublicKey sys sk = Ok pk ∧
       getRelayList sys [] w1 = (w2, Ok rl) ∧
       publishMessage sys s w
       = (publish_loop sys
            (Sign sys (mkEvent "" pk (nostr_Now sys w2) KindTextNote [] s "")
               sk) rl w2,
          Ok tt)).
Proof.
  unfold publishMessage.
  destruct s as [|c s]; [by left|]. cbn [String.length Nat.ltb Nat.leb].
  destruct (readPrivateKey sys w) as [w1 [sk|e|m]]; [|by left..].
  destruct (nostr_GetPublicKey sys sk) as [pk|e|m] eqn:Hpk; [|by left..].
  destruct (getRelayList sys [] w1) as [w2 [rl|e|m]] eqn:Hrl; [|by left..].
  right. exists w1, sk, pk, w2, rl.
  repeat split; try done.
  by destruct (publish_loop sys _ rl w2).
Qed.

(** A pre-flight failure ends the command before any relay is called. *)
Lemma publishMessage_failure_before_any_relay (s : string) (w : W) :
  is_ok (publishMessage sys s w).2 = false →
  connects (publishMessage sys s w).1.2 = []
  ∧ published (publishMessage sys s w).1.2 = [].
Proof.
  intros Hf.
  destruct (publishMessage_cases s w)
    as [(_ & ? & ?) | (w1 & sk & pk & w2 & rl & _ & _ & _ & _ & Hr)]; [done|].
  rewrite Hr in Hf. discriminate.
Qed.

(** The three pre-flight failures the command returns as errors. *)
Lemma publishMessage_empty_message (w : W) :
  publishMessage sys "" w
  = (w, [Print "Nothing text message."], Err "Not set text message").
Proof. reflexivity. Qed.

Lemma publishMessage_key_error (c : ascii) (s : string) (w w1 : W) (e : string) :
  readPrivateKey sys w = (w1, Err e) →
  publishMessage sys (String c s) w
  = (w1, [Print "Nothing key pair. Make key pair."], Err e).
Proof. intros H. unfold publishMessage. cbn [String.length Nat.ltb Nat.leb]. by rewrite H. Qed.

Lemma publishMessage_relay_list_error (c : ascii) (s : string) (w w1 w2 : W)
    (sk pk e : string) :
  readPrivateKey sys w = (w1, Ok sk) → nostr_GetPublicKey sys sk = Ok pk →
  getRelayList sys [] w1 = (w2, Err e) →
  publishMessage sys (String c s) w
  = (w2, [Print "Nothing relay list. Make a relay list."], Err e).
Proof.
  intros H1 H2 H3. unfold publishMessage. cbn [String.length Nat.ltb Nat.leb].
  by rewrite H1, H2, H3.
Qed.

(** Once the pre-flight steps have succeeded the result is nil, whatever
    the relays answer. *)
Lemma publishMessage_ok_whatever_the_relays (c : ascii) (s : string)
    (w w1 w2 : W) (sk pk : string) (rl : list string) :
  readPrivateKey sys w = (w1, Ok sk) → nostr_GetPublicKey sys sk = Ok pk →
  getRelayList sys [] w1 = (w2, Ok rl) →
  (publishMessage sys (String c s) w).2 = Ok tt
  ∧ connects (publishMessage sys (String c s) w).1.2 = rl.
Proof.
  intros H1 H2 H3. unfold publishMessage. cbn [String.length Nat.ltb Nat.leb].
  rewrite H1, H2, H3.
  pose proof (publish_loop_connects sys
    (Sign sys (mkEvent "" pk (nostr_Now sys w2) KindTextNote [] (String c s) "") sk)
    rl w2) as Hc.
  by destruct (publish_loop sys _ rl w2).
Qed.

(** [main] without a text message. *)
Lemma main_pubMessage_missing_argument (args : list string) (w : W) :
  (length args < 3)%nat →
  main_pubMessage sys args w
  = (w, [Print "Nothing text message."], Fatal "Not set text message").
Proof.
  intros H. unfold main_pubMessage.
  by destruct (Nat.ltb_spec (length args) 3); [|lia].
Qed.

End CommandFacts.

(** C8, on the code. When the key file exists ([os.Stat] succeeds) and its
    content has no non-empty line, which is what [ioutil.ReadFile] leaves
    when it fails, since its error is not looked at, [readPrivateKey] reads
    [k[0]] of an empty slice: [publishMessage] panics instead of returning
    an error.  No relay has been called. *)
Theorem publishMessage_unreadable_key_panics
    {W R : Type} (sys : System W R) (c : ascii) (s : string)
    (w w1 w2 w3 : W) (dir b : string) (err : option string) :
  getDir sys w = (w1, Ok dir) →
  os_Stat sys (dir +:+ "/" +:+ hsec) w1 = (w2, None) →
  ioutil_ReadFile sys (dir +:+ "/" +:+ hsec) w2 = (w3, (b, err)) →
  filter (fun r => r ≠ "") (strings_Split_lf b) = [] →
  readPrivateKey sys w = (w3, Panic index_out_of_range)
  ∧ publishMessage sys (String c s) w = (w3, [], Panic index_out_of_range)
  ∧ ∀ prog, main_pubMessage sys [prog; "pubMessage"; String c s] w
            = (w3, [], Crash index_out_of_range).
Proof.
  intros Hd Hs Hr Hk.
  assert (Hkey : readPrivateKey sys w = (w3, Panic index_out_of_range)).
  { unfold readPrivateKey. rewrite Hd, Hs, Hr, Hk. reflexivity. }
  assert (Hpub : publishMessage sys (String c s) w
                 = (w3, [], Panic index_out_of_range)).
  { unfold publishMessage. cbn [String.length Nat.ltb Nat.leb]. by rewrite Hkey. }
  split; [done|]. split; [done|].
  intros prog. unfold main_pubMessage. simpl. by rewrite Hpub.
Qed.

Lemma publishMessage_unreadable_key_panics_witness :
  main_pubMessage
    (simple_system ("", Some "permission denied") ["wss://a"] [])
    ["nostk"; "pubMessage"; "hello"] tt
  = (tt, [], Crash index_out_of_range).
Proof.
  exact (proj2 (proj2
    (publishMessage_unreadable_key_panics
       (simple_system ("", Some "permission denied") ["wss://a"] [])
       "h"%char "ello" tt tt tt tt "/home/u/.nostk" "" (Some "permission denied")
       eq_refl eq_refl eq_refl eq_refl)) "nostk").
Defined.

(** C9. On the [pubMessage] path every event handed to a relay has no tag,
    the text of the message as its content and the text-note kind, whatever
    the content holds; when the pre-flight steps succeed, that event is the
    signed one and every relay of the list is attempted with it.  A content
    with a hashtag and a private key is published as it is: [setHashTags]
    finds a tag in it and [containsNsec1] reports it, and neither is applied. *)
Theorem publishMessage_publishes_untagged_content
    {W R : Type} (sys : System W R) (s : string) (w : W) :
  Forall (fun p => EvTags p.2 = [] ∧ EvContent p.2 = s ∧ EvKind p.2 = 1)
         (published (publishMessage sys s w).1.2)
  ∧ (∀ w1 sk pk w2 rl,
       s ≠ "" → readPrivateKey sys w = (w1, Ok sk) →
       nostr_GetPublicKey sys sk = Ok pk →
       getRelayList sys [] w1 = (w2, Ok rl) →
       connects (publishMessage sys s w).1.2 = rl ∧
       Forall (fun p =>
                 p.2 = Sign sys (mkEvent "" pk (nostr_Now sys w2) KindTextNote
                                   [] s "") sk)
              (published (publishMessage sys s w).1.2))
  ∧ ContentScanner.containsNsec1
      "#nostr nsec1qqqqqqqqqqqqqqqqqqqqqqqqqqqqqqqqqqqqqqqqqqqqqqqqqqqqqqqqqq" = true
  ∧ ContentScanner.setHashTags
      "#nostr nsec1qqqqqqqqqqqqqqqqqqqqqqqqqqqqqqqqqqqqqqqqqqqqqqqqqqqqqqqqqq" []
    = [["t"; "nostr"]]
  ∧ published
      (publishMessage (simple_system ("k", None) ["wss://a"] [])
         "#nostr nsec1qqqqqqqqqqqqqqqqqqqqqqqqqqqqqqqqqqqqqqqqqqqqqqqqqqqqqqqqqq"
         tt).1.2
    = [("wss://a",
        mkEvent "id" "pub-k" 1700000000 1 []
          "#nostr nsec1qqqqqqqqqqqqqqqqqqqqqqqqqqqqqqqqqqqqqqqqqqqqqqqqqqqqqqqqqq"
          "sig")].
Proof.
  split; [|split; [|split; [|split]]]; try (vm_compute; reflexivity).
  - destruct (publishMessage_cases sys s w)
      as [(_ & _ & ->) | (w1 & sk & pk & w2 & rl & _ & _ & _ & _ & ->)];
      [constructor|].
    cbn [fst snd].
    eapply Forall_impl; [apply publish_loop_published|].
    intros [url ev] ->. cbn [snd].
    pose proof (Sign_fields sys
      (mkEvent "" pk (nostr_Now sys w2) KindTextNote [] s "") sk) as (-> & -> & ->).
    done.
  - intros w1 sk pk w2 rl Hs H1 H2 H3.
    destruct (publishMessage_cases sys s w)
      as [(Hf & _) | (w1' & sk' & pk' & w2' & rl' & _ & H1' & H2' & H3' & Hr)].
    + destruct s as [|c s]; [done|].
      destruct (publishMessage_ok_whatever_the_relays sys c s w w1 w2 sk pk rl
                  H1 H2 H3) as [Hok _].
      rewrite Hok in Hf. discriminate.
    + rewrite H1 in H1'. injection H1' as <- <-.
      rewrite H2 in H2'. injection H2' as <-.
      rewrite H3 in H3'. injection H3' as <- <-.
      rewrite Hr. cbn [fst snd]. split.
      * apply publish_loop_connects.
      * apply publish_loop_published.
Qed.

Lemma publishMessage_publishes_untagged_content_witness :
  connects
    (publishMessage (simple_system ("k", None) ["wss://a"; "wss://b"] ["wss://a"])
       "hello #world" tt).1.2
  = ["wss://a"; "wss://b"]
  ∧ Forall (fun p =>
              p.2 = Sign (simple_system ("k", None) ["wss://a"; "wss://b"] ["wss://a"])
                      (mkEvent "" "pub-k" 1700000000 KindTextNote [] "hello #world" "")
                      "k")
      (published
         (publishMessage
            (simple_system ("k", None) ["wss://a"; "wss://b"] ["wss://a"])
            "hello #world" tt).1.2).
Proof.
  refine (proj1 (proj2
    (publishMessage_publishes_untagged_content
       (simple_system ("k", None) ["wss://a"; "wss://b"] ["wss://a"])
       "hello #world" tt)) tt "k" "pub-k" tt ["wss://a"; "wss://b"] _
       eq_refl eq_refl eq_refl).
  discriminate.
Defined.

(** ** The regular expressions *)

Section RegexpFacts.
Import Regexp.

Lemma code_range (c : ascii) : 0 <= code c < 256.
Proof.
  unfold code. pose proof (N_ascii_bounded c). lia.
Qed.

Lemma code_inj (c1 c2 : ascii) : code c1 = code c2 → c1 = c2.
Proof.
  unfold code. intros H. apply N2Z.inj in H.
  rewrite <- (ascii_N_embedding c1), <- (ascii_N_embedding c2). by rewrite H.
Qed.

Lemma byte_at_Some (t : list ascii) (pos : nat) (b : Z) :
  byte_at t pos = Some b ↔ ∃ c, t !! pos = Some c ∧ code c = b.
Proof.
  unfold byte_at, code. destruct (t !! pos) as [c|]; simpl.
  - split; [intros [= <-]; eauto | intros (c' & [= <-] & <-); done].
  - split; [done | intros (c' & ? & _); done].
Qed.

Lemma byte_at_lookup (t : list ascii) (pos : nat) (c : ascii) :
  t !! pos = Some c → byte_at t pos = Some (code c).
Proof. intros H. unfold byte_at. by rewrite H. Qed.

Lemma step_None (t : list ascii) (pos : nat) :
  step t pos = None ↔ (length t <= pos)%nat.
Proof.
  unfold step, byte_at. rewrite <- lookup_ge_None.
  destruct (t !! pos) as [c|]; simpl; [|done].
  split; [|done]. repeat case_match; done.
Qed.

Lemma step_ascii (t : list ascii) (pos : nat) (c : ascii) :
  t !! pos = Some c → code c < 128 → step t pos = Some (code c, 1%nat).
Proof.
  intros H Hc. unfold step. rewrite (byte_at_lookup _ _ _ H).
  by destruct (Z.ltb_spec (code c) 128); [|lia].
Qed.

(** A rune below 128 is a byte of the text; the bytes a wider rune covers
    after its first are continuation bytes. *)
Lemma step_Some (t : list ascii) (pos : nat) (r : Z) (w : nat) :
  step t pos = Some (r, w) →
  (1 <= w)%nat ∧ (pos + w <= length t)%nat
  ∧ (r < 128 → w = 1%nat ∧ ∃ c, t !! pos = Some c ∧ code c = r)
  ∧ (∀ j c, (0 < j < w)%nat → t !! (pos + j)%nat = Some c → 128 <= code c).
Proof.
  unfold step. intros H.
  destruct (byte_at t pos) as [s0|] eqn:H0; [|done].
  apply byte_at_Some in H0 as (c0 & Hl0 & <-).
  pose proof (lookup_lt_Some _ _ _ Hl0) as Hlen0.
  pose proof (code_range c0) as Hr0.
  destruct (Z.ltb_spec (code c0) 128) as [Hlt|Hge].
  { injection H as <- <-. split; [lia|]. split; [lia|]. split; [eauto|]. intros; lia. }
  assert (Hinv : (RuneError, 1%nat) = (r, w) →
     (1 <= w)%nat ∧ (pos + w <= length t)%nat
     ∧ (r < 128 → w = 1%nat ∧ ∃ c, t !! pos = Some c ∧ code c = r)
     ∧ (∀ j c, (0 < j < w)%nat → t !! (pos + j)%nat = Some c → 128 <= code c)).
  { intros [= <- <-]. unfold RuneError. split; [lia|]. split; [lia|]. split; [lia|]. intros; lia. }
  unfold seq_len in H.
  repeat case_match; simplify_eq; try (by apply Hinv).
  all: repeat match goal with
    | H : byte_at _ _ = Some _ |- _ =>
        apply byte_at_Some in H as (? & ? & <-)
    | H : _ && _ = true |- _ => apply andb_true_iff in H as [? ?]
    end.
  all: unfold second_ok, is_cont in *.
  all: repeat match goal with
    | H : _ && _ = true |- _ => apply andb_true_iff in H as [? ?]
    end.
  all: clear Hinv.
  all: repeat match goal with
    | H : (_ <=? _) = true |- _ => apply Z.leb_le in H
    | H : (_ <? _) = true |- _ => apply Z.ltb_lt in H
    | H : (_ <? _) = false |- _ => apply Z.ltb_ge in H
    | H : lookup (_ + ?n)%nat _ = Some _ |- _ =>
        let H' := fresh "Hlen" in
        pose proof (lookup_lt_Some _ _ _ H) as H'; revert H
    end; intros.
  all: repeat match goal with
    | H : context [if ?b then _ else _] |- _ =>
        destruct (Z.eqb_spec (code c0) 224), (Z.eqb_spec (code c0) 240),
                 (Z.eqb_spec (code c0) 237), (Z.eqb_spec (code c0) 244)
    end.
  all: try lia.
  all: (split; [lia|]; split; [lia|]; split; [lia|]).
  all: intros j c [Hj1 Hj2] Hc.
  all: repeat match goal with
    | H : _ !! (_ + ?n)%nat = Some ?x |- _ =>
        destruct (decide (j = n)) as [->|];
        [assert (c = x) as -> by congruence; lia | clear H]
    end.
  all: lia.
Qed.

Lemma step_skips_no_ascii (t : list ascii) (pos p : nat) (r : Z) (w : nat)
    (c : ascii) :
  step t pos = Some (r, w) → (pos < p)%nat → t !! p = Some c → code c < 128 →
  (pos + w <= p)%nat.
Proof.
  intros Hs Hlt Hp Hc.
  destruct (step_Some _ _ _ _ Hs) as (_ & _ & _ & Hin).
  destruct (decide (pos + w <= p)%nat) as [|Hn]; [done|].
  specialize (Hin (p - pos)%nat c).
  replace (pos + (p - pos))%nat with p in Hin by lia.
  specialize (Hin ltac:(lia) Hp). lia.
Qed.

Lemma drop_lookup_cons (t : list ascii) (pos : nat) (c : ascii) :
  t !! pos = Some c → drop pos t = c :: drop (S pos) t.
Proof. intros H. by rewrite (drop_S _ _ _ H). Qed.

Lemma occurs_at_cons (a : ascii) (l t : list ascii) (pos : nat) :
  occurs_at (a :: l) t pos ↔ t !! pos = Some a ∧ occurs_at l t (S pos).
Proof.
  unfold occurs_at. cbn [length].
  destruct (t !! pos) as [c|] eqn:Hc.
  - rewrite (drop_lookup_cons _ _ _ Hc). cbn [take].
    split; [intros [= -> ?]; done | intros [[= ->] ->]; done].
  - apply lookup_ge_None in Hc. rewrite drop_ge by lia. cbn [take].
    split; [done | intros [? _]; done].
Qed.


Lemma run_Cat (r1 r2 : regex) (t : list ascii) (pos : nat)
    (k : nat → option nat) :
  run (Cat r1 r2) t pos k = run r1 t pos (fun pos' => run r2 t pos' k).
Proof. reflexivity. Qed.

Lemma run_Alt (r1 r2 : regex) (t : list ascii) (pos : nat)
    (k : nat → option nat) :
  run (Alt r1 r2) t pos k
  = match run r1 t pos k with Some e => Some e | None => run r2 t pos k end.
Proof. reflexivity. Qed.

Lemma run_Cls_Some (p : Z → bool) (t : list ascii) (pos : nat)
    (k : nat → option nat) (e : nat) :
  run (Cls p) t pos k = Some e →
  ∃ c w, step t pos = Some (c, w) ∧ p c = true ∧ k (pos + w)%nat = Some e.
Proof.
  simpl. destruct (step t pos) as [[c w]|]; [|done].
  destruct (p c) eqn:Hp; [|done]. eauto.
Qed.

Lemma run_Cls_ascii (p : Z → bool) (t : list ascii) (pos : nat)
    (k : nat → option nat) (c : ascii) :
  t !! pos = Some c → code c < 128 →
  run (Cls p) t pos k = if p (code c) then k (S pos) else None.
Proof.
  intros H Hc. simpl. rewrite (step_ascii _ _ _ H Hc).
  by replace (pos + 1)%nat with (S pos) by lia.
Qed.

Lemma run_Cls_end (p : Z → bool) (t : list ascii) (pos : nat)
    (k : nat → option nat) :
  (length t <= pos)%nat → run (Cls p) t pos k = None.
Proof. intros H. simpl. apply step_None in H. by rewrite H. Qed.

Lemma run_Lit_Some (l t : list ascii) (pos : nat) (k : nat → option nat)
    (e : nat) :
  Forall (fun c => code c < 128) l →
  run (Lit l) t pos k = Some e →
  occurs_at l t pos ∧ k (pos + length l)%nat = Some e.
Proof.
  intros Hl. revert pos. induction Hl as [|a l Ha _ IH]; intros pos Hr.
  - simpl in Hr. split; [done|]. by rewrite Nat.add_0_r.
  - cbn [Lit] in Hr. rewrite run_Cat in Hr.
    apply run_Cls_Some in Hr as (c & w & Hs & Hc & Hk).
    apply Z.eqb_eq in Hc. subst c.
    destruct (step_Some _ _ _ _ Hs) as (_ & _ & Hasc & _).
    destruct (Hasc Ha) as (-> & c' & Hl' & Hcode).
    apply code_inj in Hcode. subst c'.
    replace (pos + 1)%nat with (S pos) in Hk by lia.
    apply IH in Hk as [Ho Hk]. split.
    + by apply occurs_at_cons.
    + cbn [length]. by replace (pos + S (length l))%nat
                        with (S pos + length l)%nat by lia.
Qed.

Lemma run_Lit_occurs (l t : list ascii) (pos : nat) (k : nat → option nat) :
  Forall (fun c => code c < 128) l → occurs_at l t pos →
  run (Lit l) t pos k = k (pos + length l)%nat.
Proof.
  intros Hl. revert pos. induction Hl as [|a l Ha _ IH]; intros pos Ho.
  - simpl. by rewrite Nat.add_0_r.
  - apply occurs_at_cons in Ho as [Hp Ho].
    cbn [Lit]. rewrite run_Cat.
    rewrite (run_Cls_ascii _ _ _ _ _ Hp Ha).
    change (Z.of_N (N_of_ascii a)) with (code a).
    rewrite Z.eqb_refl, (IH _ Ho).
    cbn [length]. f_equal. lia.
Qed.

Lemma run_Rep_Cls_Some (p : Z → bool) (n : nat) (t : list ascii) (pos : nat)
    (k : nat → option nat) (e : nat) :
  (∀ c, p c = true → c < 128) →
  run (Rep n (Cls p)) t pos k = Some e →
  length (take n (drop pos t)) = n
  ∧ Forall (fun c => p (code c) = true) (take n (drop pos t))
  ∧ k (pos + n)%nat = Some e.
Proof.
  intros Hp. revert pos. induction n as [|n IH]; intros pos Hr.
  - simpl in Hr. rewrite Nat.add_0_r. by rewrite take_0.
  - cbn [Rep] in Hr. rewrite run_Cat in Hr.
    apply run_Cls_Some in Hr as (c & w & Hs & Hc & Hk).
    destruct (step_Some _ _ _ _ Hs) as (_ & _ & Hasc & _).
    destruct (Hasc (Hp _ Hc)) as (-> & c' & Hl' & <-).
    replace (pos + 1)%nat with (S pos) in Hk by lia.
    apply IH in Hk as (Hlen & Hall & Hk).
    rewrite (drop_lookup_cons _ _ _ Hl'). cbn [take length].
    split; [by rewrite Hlen|]. split; [by constructor|].
    by replace (pos + S n)%nat with (S pos + n)%nat by lia.
Qed.

Lemma run_Rep_Cls_match (p : Z → bool) (n : nat) (t : list ascii) (pos : nat)
    (k : nat → option nat) :
  length (take n (drop pos t)) = n →
  Forall (fun c => p (code c) = true ∧ code c < 128) (take n (drop pos t)) →
  run (Rep n (Cls p)) t pos k = k (pos + n)%nat.
Proof.
  revert pos. induction n as [|n IH]; intros pos Hlen Hall.
  - simpl. by rewrite Nat.add_0_r.
  - destruct (t !! pos) as [c|] eqn:Hc.
    2:{ apply lookup_ge_None in Hc. rewrite drop_ge in Hlen by lia. done. }
    rewrite (drop_lookup_cons _ _ _ Hc) in Hlen, Hall.
    cbn [take length] in Hlen, Hall.
    apply Forall_cons in Hall as [[Hpc Hasc] Hall].
    cbn [Rep]. rewrite run_Cat.
    rewrite (run_Cls_ascii _ _ _ _ _ Hc Hasc), Hpc, IH by (done || lia).
    f_equal. lia.
Qed.

Lemma search_Some (r : regex) (t : list ascii) (fuel pos b e : nat) :
  search r t fuel pos = Some (b, e) →
  (pos <= b)%nat ∧ match_at r t b = Some e.
Proof.
  revert pos. induction fuel as [|fuel IH]; intros pos; simpl.
  - destruct (match_at r t pos) eqn:Hm; [|done].
    intros [= <- <-]. done.
  - destruct (match_at r t pos) eqn:Hm.
    + intros [= <- <-]. done.
    + destruct (step t pos) as [[c w]|] eqn:Hs; [|done].
      intros H. apply IH in H as [Hle Hm']. split; [lia | done].
Qed.

Lemma search_None (r : regex) (t : list ascii) (fuel pos : nat) :
  (∀ q, (pos <= q)%nat → match_at r t q = None) →
  search r t fuel pos = None.
Proof.
  revert pos. induction fuel as [|fuel IH]; intros pos Hn; simpl.
  - by rewrite Hn.
  - rewrite Hn by done. destruct (step t pos) as [[c w]|]; [|done].
    apply IH. intros q Hq. apply Hn. lia.
Qed.

(** The search does not step over a position that holds an ASCII byte. *)
Lemma search_finds (r : regex) (t : list ascii) (fuel pos p e : nat)
    (c : ascii) :
  match_at r t p = Some e → t !! p = Some c → code c < 128 →
  (pos <= p)%nat → (p - pos <= fuel)%nat →
  ∃ b e', search r t fuel pos = Some (b, e') ∧ (pos <= b <= p)%nat
          ∧ match_at r t b = Some e'.
Proof.
  intros Hm Hp Hc. revert pos.
  induction fuel as [|fuel IH]; intros pos Hle Hfuel.
  - assert (pos = p) as -> by lia. simpl. rewrite Hm.
    exists p, e. split; [done|]. split; [lia | done].
  - simpl. destruct (match_at r t pos) as [e0|] eqn:Hm0.
    + exists pos, e0. split; [done|]. split; [lia | done].
    + assert (pos < p)%nat.
      { destruct (decide (pos = p)) as [->|]; [congruence | lia]. }
      destruct (step t pos) as [[c' w]|] eqn:Hs.
      2:{ apply step_None in Hs. apply lookup_lt_Some in Hp. lia. }
      pose proof (step_skips_no_ascii _ _ _ _ _ _ Hs H Hp Hc).
      destruct (step_Some _ _ _ _ Hs) as (Hw & _).
      destruct (IH (pos + w)%nat) as (b & e' & Hsr & Hb & Hmb); [lia..|].
      exists b, e'. split; [done|]. split; [lia | done].
Qed.


Lemma allMatches_cons (r : regex) (t : list ascii) (fuel pos b e : nat)
    (prev : option nat) :
  search r t (length t) pos = Some (b, e) → (pos < e)%nat →
  allMatches r t (S fuel) pos prev
  = (b, e) :: (if Nat.leb e (length t)
               then allMatches r t fuel e (Some e) else []).
Proof.
  intros Hs He. cbn [allMatches]. rewrite Hs.
  destruct (Nat.eqb_spec e pos) as [->|_]; [lia|]. done.
Qed.

Lemma allMatches_nil (r : regex) (t : list ascii) (fuel pos : nat)
    (prev : option nat) :
  search r t (length t) pos = None → allMatches r t fuel pos prev = [].
Proof. intros Hs. destruct fuel; [done|]. cbn [allMatches]. by rewrite Hs. Qed.

Lemma allMatches_sound (r : regex) (t : list ascii) (fuel pos : nat)
    (prev : option nat) (b e : nat) :
  (b, e) ∈ allMatches r t fuel pos prev → match_at r t b = Some e.
Proof.
  revert pos prev. induction fuel as [|fuel IH]; intros pos prev.
  - simpl. by intros ?%elem_of_nil.
  - cbn [allMatches].
    destruct (search r t (length t) pos) as [[b0 e0]|] eqn:Hs;
      [|by intros ?%elem_of_nil].
    apply search_Some in Hs as [_ Hm]. cbv zeta.
    set (rest := if Nat.leb _ _ then _ else _).
    assert (Hrest : (b, e) ∈ rest → match_at r t b = Some e).
    { unfold rest. destruct (Nat.leb _ _); [apply IH | by intros ?%elem_of_nil]. }
    destruct (negb _); [|done].
    intros [[= -> ->] | Hin]%elem_of_cons; [done | by apply Hrest].
Qed.


(** *** Repetition of a class over ASCII text *)

Lemma run_length_le (p : Z → bool) (l : list ascii) :
  (run_length p l <= length l)%nat.
Proof.
  induction l as [|c l IH]; simpl; [lia|]. destruct (p (code c)); simpl; lia.
Qed.

Lemma try_down_shift (k : nat → option nat) (pos n : nat) :
  try_down k pos (S n)
  = match try_down k (S pos) n with Some e => Some e | None => k pos end.
Proof.
  induction n as [|n IH].
  - simpl. by replace (pos + 1)%nat with (S pos) by lia.
  - change (try_down k pos (S (S n)))
      with (match k (pos + S (S n))%nat with
            | Some e => Some e | None => try_down k pos (S n) end).
    rewrite IH. cbn [try_down].
    replace (pos + S (S n))%nat with (S pos + S n)%nat by lia.
    by destruct (k (S pos + S n)%nat).
Qed.

Lemma try_down_hit (k : nat → option nat) (pos n j e : nat) :
  (j <= n)%nat → k (pos + j)%nat = Some e →
  (∀ i, (j < i <= n)%nat → k (pos + i)%nat = None) →
  try_down k pos n = Some e.
Proof.
  intros Hj Hk. induction n as [|n IH]; intros Hnone.
  - assert (j = 0%nat) as -> by lia. simpl.
    by rewrite Nat.add_0_r in Hk.
  - cbn [try_down]. destruct (decide (j = S n)) as [->|Hne].
    + by rewrite Hk.
    + rewrite Hnone by lia. apply IH; [lia|]. intros i Hi. apply Hnone. lia.
Qed.


Lemma star_loop_Cls (p : Z → bool) (t : list ascii) (k : nat → option nat)
    (fuel pos : nat) :
  Forall (fun c => code c < 128) t →
  (run_length p (drop pos t) < fuel)%nat →
  star_loop (run (Cls p) t) k fuel pos
  = try_down k pos (run_length p (drop pos t)).
Proof.
  intros Hasc. revert pos. induction fuel as [|fuel IH]; intros pos Hf; [lia|].
  cbn [star_loop].
  destruct (t !! pos) as [c|] eqn:Hc.
  - assert (Hcode : code c < 128).
    { exact (Forall_lookup_1 _ _ _ _ Hasc Hc). }
    rewrite (run_Cls_ascii _ _ _ _ _ Hc Hcode).
    rewrite (drop_lookup_cons _ _ _ Hc) in Hf |- *. cbn [run_length] in Hf |- *.
    destruct (p (code c)); [|done].
    destruct (Nat.ltb_spec pos (S pos)); [|lia].
    rewrite IH by lia. by rewrite try_down_shift.
  - apply lookup_ge_None in Hc.
    rewrite run_Cls_end by done. by rewrite drop_ge by lia.
Qed.

Lemma run_Star_Cls (p : Z → bool) (t : list ascii) (pos : nat)
    (k : nat → option nat) :
  Forall (fun c => code c < 128) t →
  run (Star (Cls p)) t pos k = try_down k pos (run_length p (drop pos t)).
Proof.
  intros Hasc. cbn [run]. apply star_loop_Cls; [done|].
  pose proof (run_length_le p (drop pos t)). rewrite length_drop in H. lia.
Qed.

End RegexpFacts.

(** ** The private-key scan *)

Section ScannerFacts.
Import Regexp ContentScanner.

Lemma list_ascii_app (a b : string) :
  list_ascii_of_string (a +:+ b)
  = list_ascii_of_string a ++ list_ascii_of_string b.
Proof. induction a as [|c a IH]; simpl; [done | by rewrite IH]. Qed.

Lemma string_of_list_app (a b : list ascii) :
  string_of_list_ascii (a ++ b)
  = string_of_list_ascii a +:+ string_of_list_ascii b.
Proof. induction a as [|c a IH]; simpl; [done | by rewrite IH]. Qed.

Lemma list_ascii_length (s : string) :
  length (list_ascii_of_string s) = String.length s.
Proof. induction s as [|c s IH]; simpl; [done | by rewrite IH]. Qed.

Lemma occurs_at_split (l t : list ascii) (q : nat) :
  occurs_at l t q → t = take q t ++ l ++ drop (q + length l) t.
Proof.
  unfold occurs_at. intros H.
  rewrite <- (take_drop q t) at 1. f_equal.
  rewrite <- (take_drop (length l) (drop q t)) at 1. rewrite H. f_equal.
  by rewrite drop_drop.
Qed.

Lemma occurs_at_middle (a l b : list ascii) :
  occurs_at l (a ++ l ++ b) (length a).
Proof.
  unfold occurs_at. rewrite drop_app_length. by rewrite take_app_length.
Qed.

Lemma occurs_at_lt (l t : list ascii) (q : nat) :
  occurs_at l t q → l ≠ [] → (q + length l <= length t)%nat.
Proof.
  unfold occurs_at. intros H Hl.
  assert (Hlen : length (take (length l) (drop q t)) = length l) by by rewrite H.
  rewrite length_take, length_drop in Hlen.
  destruct l; [done|]. cbn [length] in *. lia.
Qed.

Lemma nsec1_ascii : Forall (fun c => code c < 128) nsec1.
Proof. repeat constructor. Qed.

Lemma alnum_ascii (c : Z) : alnum c = true → c < 128.
Proof. unfold alnum. lia. Qed.

Lemma match_at_key_Some (t : list ascii) (b e : nat) :
  match_at re_nsec1_key t b = Some e →
  e = (b + 63)%nat ∧ occurs_at nsec1 t b
  ∧ length (take 58 (drop (b + 5) t)) = 58%nat
  ∧ Forall (fun c => alnum (code c) = true) (take 58 (drop (b + 5) t)).
Proof.
  unfold match_at, re_nsec1_key. rewrite run_Cat. intros H.
  apply (run_Lit_Some _ _ _ _ _ nsec1_ascii) in H as [Ho H].
  apply (run_Rep_Cls_Some _ _ _ _ _ _ alnum_ascii) in H as (Hlen & Hall & [= <-]).
  change (length nsec1) with 5%nat in *.
  repeat split; try done. lia.
Qed.

Lemma match_at_key_occurs (t : list ascii) (b : nat) :
  occurs_at nsec1 t b →
  length (take 58 (drop (b + 5) t)) = 58%nat →
  Forall (fun c => alnum (code c) = true) (take 58 (drop (b + 5) t)) →
  match_at re_nsec1_key t b = Some (b + 63)%nat.
Proof.
  intros Ho Hlen Hall. unfold match_at, re_nsec1_key. rewrite run_Cat.
  rewrite (run_Lit_occurs _ _ _ _ nsec1_ascii Ho).
  change (length nsec1) with 5%nat.
  rewrite run_Rep_Cls_match; [f_equal; lia | done |].
  eapply Forall_impl; [exact Hall|]. intros c Hc. split; [done|].
  by apply alnum_ascii.
Qed.

Lemma MatchString_nsec1 (s : string) :
  MatchString (Lit nsec1) s = true
  ↔ ∃ q, occurs_at nsec1 (list_ascii_of_string s) q.
Proof.
  unfold MatchString. rewrite bool_decide_eq_true.
  set (t := list_ascii_of_string s). split.
  - intros [[b e] Hs]. apply search_Some in Hs as [_ Hm].
    unfold match_at in Hm.
    apply (run_Lit_Some _ _ _ _ _ nsec1_ascii) in Hm as [Ho _]. eauto.
  - intros [q Ho].
    assert (Hm : match_at (Lit nsec1) t q = Some (q + 5)%nat).
    { unfold match_at. by rewrite (run_Lit_occurs _ _ _ _ nsec1_ascii Ho). }
    pose proof Ho as Ho'. apply occurs_at_cons in Ho' as [Hq _].
    destruct (search_finds (Lit nsec1) t (length t) 0 q _ _ Hm Hq)
      as (b & e & Hs & _); [done | lia | | by rewrite Hs].
    apply lookup_lt_Some in Hq. lia.
Qed.


Lemma from5_slice (t : list ascii) (b : nat) :
  from5 (string_of_list_ascii (slice t b (b + 63)))
  = string_of_list_ascii (take 58 (drop (b + 5) t)).
Proof.
  unfold from5, slice. rewrite list_ascii_of_string_of_list_ascii.
  replace (b + 63 - b)%nat with 63%nat by lia.
  f_equal. rewrite <- drop_drop.
  change 63%nat with (5 + 58)%nat. by rewrite <- take_drop_commute.
Qed.

Lemma MatchString_nsec1_list (l : list ascii) :
  MatchString (Lit nsec1) (string_of_list_ascii l) = true
  ↔ ∃ q, occurs_at nsec1 l q.
Proof.
  rewrite MatchString_nsec1. by rewrite list_ascii_of_string_of_list_ascii.
Qed.

(** What the loop of [containsNsec1] answers for one match. *)
Lemma containsNsec1_loop_cons (t : list ascii) (b : nat) (rest : list string) :
  containsNsec1_loop (string_of_list_ascii (slice t b (b + 63)) :: rest)
  = if MatchString (Lit nsec1)
         (string_of_list_ascii (take 58 (drop (b + 5) t)))
    then containsNsec1_loop rest else true.
Proof.
  cbn [containsNsec1_loop]. rewrite from5_slice.
  by destruct (MatchString _ _).
Qed.

(** The prefix has no border: two occurrences do not overlap. *)
Lemma nsec1_no_overlap (t : list ascii) (b p : nat) :
  occurs_at nsec1 t b → occurs_at nsec1 t p → (b < p)%nat → (b + 5 <= p)%nat.
Proof.
  intros Hb Hp Hlt.
  destruct (decide (b + 5 <= p)%nat) as [|Hn]; [done|]. exfalso.
  apply occurs_at_cons in Hp as [Hp _].
  unfold nsec1 in Hb. simpl in Hb.
  repeat (apply occurs_at_cons in Hb as [? Hb]).
  assert (p = S b ∨ p = S (S b) ∨ p = S (S (S b)) ∨ p = S (S (S (S b))))
    as [-> | [-> | [-> | ->]]] by lia; congruence.
Qed.

(** A clean token that no earlier match of the scan overlaps is reached by
    the scan and reported. *)
Lemma key_scan_matches (t : list ascii) (p : nat) :
  occurs_at nsec1 t p →
  length (take 58 (drop (p + 5) t)) = 58%nat →
  Forall (fun c => alnum (code c) = true) (take 58 (drop (p + 5) t)) →
  ¬ (∃ q, occurs_at nsec1 (take 58 (drop (p + 5) t)) q) →
  ∀ fuel pos prev,
    (pos <= p)%nat → (p - pos < fuel)%nat →
    (∀ b e, (b, e) ∈ allMatches re_nsec1_key t fuel pos prev →
            (b < p)%nat → (e <= p)%nat) →
    containsNsec1_loop
      ((fun m => string_of_list_ascii (slice t m.1 m.2))
         <$> allMatches re_nsec1_key t fuel pos prev) = true.
Proof.
  intros Hp Hlen Hall Hclean.
  pose proof (match_at_key_occurs t p Hp Hlen Hall) as Hm.
  pose proof Hp as Hp'. apply occurs_at_cons in Hp' as [Hn _].
  pose proof (occurs_at_lt _ _ _ Hp ltac:(done)) as Hplen.
  induction fuel as [|fuel IH]; intros pos prev Hle Hfuel Hfar; [lia|].
  destruct (search_finds re_nsec1_key t (length t) pos p _ _ Hm Hn)
    as (b & e & Hs & Hb & Hmb); [done | lia | |].
  { apply lookup_lt_Some in Hn. lia. }
  pose proof (match_at_key_Some _ _ _ Hmb) as (-> & Hob & _ & _).
  rewrite (allMatches_cons _ _ _ _ _ _ _ Hs) in Hfar |- * by lia.
  rewrite fmap_cons. cbn [fst snd]. rewrite containsNsec1_loop_cons.
  destruct (decide (b = p)) as [->|Hne].
  - destruct (MatchString _ _) eqn:HM; [|done].
    by apply MatchString_nsec1_list in HM.
  - destruct (MatchString _ _); [|done].
    assert (b + 63 <= p)%nat.
    { apply (Hfar b); [by left | lia]. }
    change (length nsec1) with 5%nat in Hplen.
    destruct (Nat.leb_spec (b + 63) (length t)); [|lia].
    apply IH; [lia | lia |].
    intros b' e' Hin. apply Hfar. by right.
Qed.

(** The token that the pattern matches at an offset of a text. *)
Lemma token_at_offset (text : string) (b : nat) :
  let t := list_ascii_of_string text in
  occurs_at nsec1 t b →
  length (take 58 (drop (b + 5) t)) = 58%nat →
  text = string_of_list_ascii (take b t) +:+ "nsec1" +:+
         string_of_list_ascii (take 58 (drop (b + 5) t)) +:+
         string_of_list_ascii (drop (b + 63) t)
  ∧ String.length (string_of_list_ascii (take b t)) = b.
Proof.
  intros t Ho Hlen. split.
  - change "nsec1" with (string_of_list_ascii nsec1).
    rewrite <- !string_of_list_app.
    rewrite <- (string_of_list_ascii_of_string text) at 1. f_equal. fold t.
    rewrite (occurs_at_split _ _ _ Ho) at 1. f_equal. f_equal.
    change (length nsec1) with 5%nat.
    rewrite <- (take_drop 58 (drop (b + 5) t)) at 1. f_equal.
    rewrite drop_drop. f_equal. lia.
  - rewrite <- list_ascii_length, list_ascii_of_string_of_list_ascii.
    apply length_take_le.
    pose proof (occurs_at_lt _ _ _ Ho ltac:(done)). lia.
Qed.
Lemma containsNsec1_loop_true (ms : list string) :
  containsNsec1_loop ms = true →
  ∃ m, m ∈ ms ∧ MatchString (Lit nsec1) (from5 m) = false.
Proof.
  induction ms as [|m ms IH]; [done|]. cbn [containsNsec1_loop].
  destruct (MatchString _ _) eqn:Hm; simpl.
  - intros (m' & Hin & Hm')%IH. exists m'. split; [by right | done].
  - intros _. exists m. split; [by left | done].
Qed.

(** A leak that is reported is a token at some offset of the text. *)
Lemma containsNsec1_true_inv (text : string) :
  containsNsec1 text = true →
  ∃ b, let t := list_ascii_of_string text in
       occurs_at nsec1 t b
       ∧ length (take 58 (drop (b + 5) t)) = 58%nat
       ∧ Forall (fun c => alnum (code c) = true) (take 58 (drop (b + 5) t))
       ∧ ¬ (∃ q, occurs_at nsec1 (take 58 (drop (b + 5) t)) q).
Proof.
  unfold containsNsec1, FindAllString.
  intros (m & Hin & Hm)%containsNsec1_loop_true.
  apply list_elem_of_fmap in Hin as ([b e] & -> & Hin).
  apply allMatches_sound in Hin.
  apply match_at_key_Some in Hin as (-> & Ho & Hlen & Hall).
  exists b. cbn [fst snd] in Hm. rewrite from5_slice in Hm.
  repeat split; try done.
  intros Hq. apply MatchString_nsec1_list in Hq. congruence.
Qed.

Lemma occurs_at_shift (l a t : list ascii) (q : nat) :
  occurs_at l (a ++ t) (length a + q) ↔ occurs_at l t q.
Proof. unfold occurs_at. by rewrite drop_app_add. Qed.

Lemma occurs_at_inside (l a t : list ascii) (q : nat) :
  (q + length l <= length a)%nat →
  occurs_at l (a ++ t) q ↔ occurs_at l a q.
Proof.
  intros H. unfold occurs_at. rewrite drop_app_le by lia.
  rewrite take_app_le; [done|]. rewrite length_drop. lia.
Qed.

Lemma str_contains_occurs (l : list ascii) (s : string) (q : nat) :
  occurs_at l (list_ascii_of_string s) q →
  ∃ a b, s = a +:+ string_of_list_ascii l +:+ b
         ∧ (l ≠ [] → String.length a = q)
         ∧ length (list_ascii_of_string b)
           = (length (list_ascii_of_string s) - (q + length l))%nat.
Proof.
  intros Ho. pose proof (occurs_at_split _ _ _ Ho) as Hs.
  exists (string_of_list_ascii (take q (list_ascii_of_string s))),
         (string_of_list_ascii (drop (q + length l) (list_ascii_of_string s))).
  split; [|split].
  - rewrite <- !string_of_list_app, <- Hs.
    by rewrite string_of_list_ascii_of_string.
  - intros Hl. apply (occurs_at_lt _ _ _ Ho) in Hl.
    rewrite <- list_ascii_length, list_ascii_of_string_of_list_ascii.
    apply length_take_le. lia.
  - by rewrite list_ascii_of_string_of_list_ascii, length_drop.
Qed.

Lemma occurs_str_contains (sub s : string) :
  str_contains sub s →
  ∃ q, occurs_at (list_ascii_of_string sub) (list_ascii_of_string s) q.
Proof.
  intros (a & b & ->). exists (length (list_ascii_of_string a)).
  rewrite !list_ascii_app. apply occurs_at_middle.
Qed.

(** The text made of copies of the prefix. *)
Lemma str_repeat_periodic (n b : nat) :
  let t := list_ascii_of_string (str_repeat "nsec1" n) in
  occurs_at nsec1 t b → (b + 10 <= length t)%nat →
  occurs_at nsec1 t (b + 5).
Proof.
  revert b. induction n as [|n IH]; intros b t Ho Hlen.
  - simpl in Hlen. lia.
  - subst t. cbn [str_repeat] in *. rewrite list_ascii_app in *.
    change (list_ascii_of_string "nsec1") with nsec1 in *.
    rewrite length_app in Hlen. change (length nsec1) with 5%nat in Hlen.
    destruct (decide (5 <= b)%nat) as [Hb|Hb].
    + replace b with (length nsec1 + (b - 5))%nat in Ho
        by (change (length nsec1) with 5%nat; lia).
      apply occurs_at_shift in Ho. apply IH in Ho; [|lia].
      replace (b + 5)%nat with (length nsec1 + (b - 5 + 5))%nat
        by (change (length nsec1) with 5%nat; lia).
      by apply occurs_at_shift.
    + apply occurs_at_cons in Ho as [Hn _].
      destruct b as [|[|[|[|[|b]]]]]; try (simpl in Hn; congruence); [|lia].
      change (0 + 5)%nat with (length nsec1 + 0)%nat.
      apply occurs_at_shift.
      destruct n as [|n]; [simpl in Hlen; lia|].
      cbn [str_repeat]. rewrite list_ascii_app.
      apply (occurs_at_middle []).
Qed.

End ScannerFacts.

Import Regexp ContentScanner.

(** C6, the claim as stated: every content that contains a token made of
    the prefix and 58 alphanumeric characters is reported, unless the token
    is made only of copies of the prefix.  A token whose 58 characters begin
    with the prefix again is not reported, although other characters follow:
    the guard of the loop looks for the prefix anywhere in them.  Nor is the
    prefix followed by a key: the scan takes its first match at the leading
    prefix, skips it for the same reason, and resumes after it, inside the
    key. *)
Lemma containsNsec1_misses_tokens :
  containsNsec1 ("nsec1" +:+ "nsec1qpzry9x8gf2tvdw0s3jn54khce6mua7lqpzry9x8gf2tvdw0s3jn5") = false
  ∧ containsNsec1 ("nsec1" +:+ "nsec1" +:+ "qpzry9x8gf2tvdw0s3jn54khce6mua7lqpzry9x8gf2tvdw0s3jn54khce") = false
  ∧ ¬ (∀ pre tail post : string,
         String.length tail = 58%nat → alphanumeric tail →
         ¬ only_prefix_copies ("nsec1" +:+ tail) →
         containsNsec1 (pre +:+ "nsec1" +:+ tail +:+ post) = true).
Proof.
  split; [vm_compute; reflexivity|]. split; [vm_compute; reflexivity|].
  intros H.
  specialize (H "" "nsec1qpzry9x8gf2tvdw0s3jn54khce6mua7lqpzry9x8gf2tvdw0s3jn5" "").
  assert (Hfalse : containsNsec1
    ("" +:+ "nsec1" +:+ "nsec1qpzry9x8gf2tvdw0s3jn54khce6mua7lqpzry9x8gf2tvdw0s3jn5" +:+ "")
    = false) by (vm_compute; reflexivity).
  rewrite H in Hfalse; [discriminate | reflexivity | | ].
  - unfold alphanumeric. simpl. repeat constructor.
  - intros (n & rest & Hn).
    destruct n as [|[|[|n]]]; simpl in Hn; discriminate.
Qed.

(** C6, amended. [containsNsec1] reports every content that contains a
    token made of the prefix and 58 alphanumeric characters which do not
    contain the prefix again, when no earlier match of the scan overlaps the
    token, the matches being the leftmost ones that do not overlap; in
    particular when no token begins in the 62 bytes before it.  What becomes
    of a token that an earlier match overlaps is left open.  What the
    function reports is always such a token; a content in which every token
    holds the prefix again in its 58 characters is not reported, and so a
    content made only of copies of the prefix is not. *)
Theorem containsNsec1_reports_clean_tokens :
  (∀ pre tail post : string,
     String.length tail = 58%nat → alphanumeric tail →
     ¬ str_contains "nsec1" tail →
     (∀ b e,
        (b, e) ∈ FindAllStringIndex re_nsec1_key
                   (pre +:+ "nsec1" +:+ tail +:+ post) →
        (b < String.length pre)%nat → (e <= String.length pre)%nat) →
     containsNsec1 (pre +:+ "nsec1" +:+ tail +:+ post) = true)
  ∧ (∀ pre tail post : string,
       String.length tail = 58%nat → alphanumeric tail →
       ¬ str_contains "nsec1" tail →
       (∀ a key c,
          pre +:+ "nsec1" +:+ tail +:+ post = a +:+ "nsec1" +:+ key +:+ c →
          String.length key = 58%nat → alphanumeric key →
          (String.length a < String.length pre)%nat →
          (String.length a + 63 <= String.length pre)%nat) →
       containsNsec1 (pre +:+ "nsec1" +:+ tail +:+ post) = true)
  ∧ (∀ text : string,
       containsNsec1 text = true →
       ∃ pre tail post,
         text = pre +:+ "nsec1" +:+ tail +:+ post ∧
         String.length tail = 58%nat ∧ alphanumeric tail ∧
         ¬ str_contains "nsec1" tail)
  ∧ (∀ text : string,
       (∀ pre tail post,
          text = pre +:+ "nsec1" +:+ tail +:+ post →
          String.length tail = 58%nat → alphanumeric tail →
          str_contains "nsec1" tail) →
       containsNsec1 text = false)
  ∧ (∀ n : nat, containsNsec1 (str_repeat "nsec1" n) = false).
Proof.
  assert (Hsound : ∀ text : string,
       containsNsec1 text = true →
       ∃ pre tail post,
         text = pre +:+ "nsec1" +:+ tail +:+ post ∧
         String.length tail = 58%nat ∧ alphanumeric tail ∧
         ¬ str_contains "nsec1" tail).
  { intros text (b & Ho & Hlen & Hall & Hclean)%containsNsec1_true_inv.
    set (t := list_ascii_of_string text) in *.
    exists (string_of_list_ascii (take b t)),
           (string_of_list_ascii (take 58 (drop (b + 5) t))),
           (string_of_list_ascii (drop (b + 63) t)).
    split; [|split; [|split]].
    - by apply token_at_offset.
    - by rewrite <- list_ascii_length, list_ascii_of_string_of_list_ascii.
    - unfold alphanumeric. by rewrite list_ascii_of_string_of_list_ascii.
    - intros (q & Hq)%occurs_str_contains.
      rewrite list_ascii_of_string_of_list_ascii in Hq. eauto. }
  assert (Hscan : ∀ pre tail post : string,
     String.length tail = 58%nat → alphanumeric tail →
     ¬ str_contains "nsec1" tail →
     (∀ b e,
        (b, e) ∈ FindAllStringIndex re_nsec1_key
                   (pre +:+ "nsec1" +:+ tail +:+ post) →
        (b < String.length pre)%nat → (e <= String.length pre)%nat) →
     containsNsec1 (pre +:+ "nsec1" +:+ tail +:+ post) = true).
  { intros pre tail post Hlen Hall Hclean Hfar.
    unfold containsNsec1, FindAllString.
    unfold FindAllStringIndex in Hfar. cbv zeta in Hfar.
    rewrite <- list_ascii_length in Hfar.
    rewrite !list_ascii_app in Hfar |- *.
    change (list_ascii_of_string "nsec1") with nsec1 in Hfar |- *.
    set (lp := list_ascii_of_string pre) in *.
    set (lt := list_ascii_of_string tail) in *.
    set (lq := list_ascii_of_string post) in *.
    assert (Hlt : length lt = 58%nat) by (unfold lt; by rewrite list_ascii_length).
    assert (Htail : take 58 (drop (length lp + 5) (lp ++ nsec1 ++ lt ++ lq)) = lt).
    { rewrite drop_app_add. rewrite (drop_app_length' nsec1 _ 5) by done.
      by apply take_app_length'. }
    apply (key_scan_matches _ (length lp)).
    + apply occurs_at_middle.
    + by rewrite Htail.
    + by rewrite Htail.
    + rewrite Htail. intros (q & Hq). apply Hclean.
      apply str_contains_occurs in Hq as (a & b & -> & _).
      by exists a, b.
    + lia.
    + rewrite !length_app. change (length nsec1) with 5%nat. lia.
    + exact Hfar. }
  split; [exact Hscan|]. split; [|split; [exact Hsound|split]].
  - intros pre tail post Hlen Hall Hclean Hfar.
    apply Hscan; try done.
    intros b e Hin Hlt.
    apply allMatches_sound in Hin.
    apply match_at_key_Some in Hin as (-> & Ho & Hl & Ha).
    destruct (token_at_offset _ b Ho Hl) as [E Eb].
    specialize (Hfar _ _ _ E).
    rewrite Eb in Hfar. apply Hfar; [| |done].
    + by rewrite <- list_ascii_length, list_ascii_of_string_of_list_ascii.
    + unfold alphanumeric. by rewrite list_ascii_of_string_of_list_ascii.
  - intros text Hdirty. apply not_true_is_false.
    intros (pre & tail & post & E & Hlen & Hall & Hclean)%Hsound.
    apply Hclean. by apply (Hdirty pre tail post).
  - intros n. apply not_true_is_false.
    intros (b & Ho & Hlen & _ & Hclean)%containsNsec1_true_inv.
    apply Hclean. exists 0%nat.
    rewrite length_take, length_drop in Hlen.
    apply str_repeat_periodic in Ho; [|lia].
    unfold occurs_at in *. rewrite drop_0, take_take.
    change (length nsec1) with 5%nat in *. by rewrite Nat.min_l by lia.
Qed.

Lemma str_contains_nsec1 (s : string) :
  str_contains "nsec1" s ↔ MatchString (Lit nsec1) s = true.
Proof.
  rewrite MatchString_nsec1. split.
  - apply occurs_str_contains.
  - intros (q & Hq). apply str_contains_occurs in Hq as (a & b & -> & _).
    by exists a, b.
Qed.

Lemma containsNsec1_reports_clean_tokens_witness :
  containsNsec1
    ("nsec1: " +:+ "nsec1" +:+
     "qpzry9x8gf2tvdw0s3jn54khce6mua7lqpzry9x8gf2tvdw0s3jn54khce" +:+ " oops")
  = true.
Proof.
  refine (proj1 containsNsec1_reports_clean_tokens "nsec1: "
            "qpzry9x8gf2tvdw0s3jn54khce6mua7lqpzry9x8gf2tvdw0s3jn54khce"
            " oops" eq_refl _ _ _).
  - unfold alphanumeric. simpl. repeat constructor.
  - intros H%str_contains_nsec1. vm_compute in H. discriminate.
  - intros b e Hin.
    assert (E : FindAllStringIndex re_nsec1_key
                  ("nsec1: " +:+ "nsec1" +:+
                   "qpzry9x8gf2tvdw0s3jn54khce6mua7lqpzry9x8gf2tvdw0s3jn54khce"
                   +:+ " oops") = [(7%nat, 70%nat)])
      by (vm_compute; reflexivity).
    rewrite E in Hin. apply list_elem_of_singleton in Hin as [= -> ->].
    cbn. lia.
Defined.

(** ** Hashtags *)

Section HashtagFacts.
Import Regexp ContentScanner.

Local Abbreviation tok := (list_ascii_of_string "#foo#bar#").
Local Abbreviation sharp := ("#"%char).










Section Token.
Context (lp lq : list ascii).
Hypothesis Hlp : Forall (fun c => code c < 128 ∧ code c ≠ 35) lp.
Hypothesis Hlq : Forall (fun c => code c < 128 ∧ code c ≠ 35) lq.

Local Abbreviation t := (lp ++ tok ++ lq).
Local Abbreviation P := (length lp).








Lemma run_Bol (t0 : list ascii) (pos : nat) (k : nat → option nat) :
  run Bol t0 pos k = if Nat.eqb pos 0 then k pos else None.
Proof. reflexivity. Qed.






End Token.

Lemma replaceAll_no_match (r : regex) (t : list ascii) (fuel pos last : nat) :
  search r t (length t) pos = None →
  replaceAll r t fuel pos last = drop last t.
Proof. intros H. destruct fuel; [done|]. cbn [replaceAll]. by rewrite H. Qed.


End HashtagFacts.

Import Regexp ContentScanner.





(** * Further properties of the code *)

Import TagSchema EventBuilder Publisher Regexp ContentScanner.
Import HexStrings PlainContent Commands.

(** ** Prefixes in tags *)

Lemma String_prefix_iff (p s : string) :
  String.prefix p s = true ↔ ∃ r, s = p +:+ r.
Proof.
  revert s. induction p as [|a p IH]; intros s.
  - destruct s; simpl; (split; [intros _; eexists; reflexivity | done]).
  - destruct s as [|b s]; simpl.
    + split; [done | intros (r & ?); done].
    + destruct (ascii_dec a b) as [->|Hne].
      * rewrite IH. split; intros (r & Hr); exists r;
          [by rewrite Hr | by injection Hr].
      * split; [done | intros (r & Hr); by injection Hr].
Qed.

(** X1. [hasPrefix] answers true exactly when some field of some tag, the
    name included, begins with the prefix; with the empty prefix it answers
    true as soon as a tag has a field, and false for tags without fields. *)
Theorem hasPrefix_iff (tgs : Tags) (pref : string) :
  (hasPrefix tgs pref = true
   ↔ ∃ tg s r, tg ∈ tgs ∧ s ∈ tg ∧ s = pref +:+ r)
  ∧ (hasPrefix tgs "" = true ↔ ∃ tg, tg ∈ tgs ∧ tg ≠ []).
Proof.
  assert (Hiff : ∀ pref', hasPrefix tgs pref' = true
           ↔ ∃ tg s r, tg ∈ tgs ∧ s ∈ tg ∧ s = pref' +:+ r).
  { intros pref'. unfold hasPrefix. rewrite existsb_exists. split.
    - intros (tg & Htg & Hex). apply existsb_exists in Hex as (s & Hs & Hp).
      apply String_prefix_iff in Hp as (r & ->).
      exists tg, (pref' +:+ r), r.
      by rewrite !list_elem_of_In.
    - intros (tg & s & r & Htg & Hs & ->). exists tg.
      rewrite <- list_elem_of_In. split; [done|].
      apply existsb_exists. exists (pref' +:+ r).
      rewrite <- list_elem_of_In. split; [done|].
      apply String_prefix_iff. by exists r. }
  split; [apply Hiff|]. rewrite Hiff. split.
  - intros (tg & s & r & Htg & Hs & _). exists tg. split; [done|].
    intros ->. by apply elem_of_nil in Hs.
  - intros (tg & Htg & Hne). destruct tg as [|s tg]; [done|].
    exists (s :: tg), s, s. split; [done|]. split; [by left | done].
Qed.

(** ** Hexadecimal strings *)

Section HexFacts.

Lemma hexdigit_ascii (c : Z) : hexdigit c = true → c < 128.
Proof. unfold hexdigit. lia. Qed.

Lemma search_dollar_Some (r : regex) (t : list ascii) (fuel pos b e : nat) :
  search_dollar r t fuel pos = Some (b, e) →
  (pos <= b)%nat ∧ match_at_dollar r t b = Some e.
Proof.
  revert pos. induction fuel as [|fuel IH]; intros pos; simpl.
  - destruct (match_at_dollar r t pos) eqn:Hm; [|done].
    intros [= <- <-]. done.
  - destruct (match_at_dollar r t pos) eqn:Hm.
    + intros [= <- <-]. done.
    + destruct (step t pos) as [[c w]|] eqn:Hs; [|done].
      intros H. apply IH in H as [Hle Hm']. split; [lia | done].
Qed.

Lemma search_dollar_here (r : regex) (t : list ascii) (fuel pos e : nat) :
  match_at_dollar r t pos = Some e →
  search_dollar r t fuel pos = Some (pos, e).
Proof. intros H. destruct fuel; simpl; by rewrite H. Qed.

Lemma run_Bol_first (r : regex) (t : list ascii) (b : nat)
    (k : nat → option nat) (e : nat) :
  run (Cat Bol r) t b k = Some e → b = 0%nat ∧ run r t 0 k = Some e.
Proof.
  rewrite run_Cat, run_Bol. destruct (Nat.eqb_spec b 0) as [->|]; done.
Qed.

Lemma at_end_Some (t : list ascii) (n e : nat) :
  at_end t n = Some e ↔ n = length t ∧ e = n.
Proof.
  unfold at_end. destruct (Nat.eqb_spec n (length t)) as [Heq|Hne].
  - split; [intros [= <-]; done | intros [_ ->]; done].
  - split; [done | intros [? _]; done].
Qed.

(** What a greedy repetition of an ASCII class has consumed when the
    pattern matches. *)
Lemma star_loop_Cls_inv (p : Z → bool) (t : list ascii)
    (k : nat → option nat) (fuel pos e : nat) :
  (∀ c, p c = true → c < 128) →
  star_loop (run (Cls p) t) k fuel pos = Some e →
  ∃ n, length (take n (drop pos t)) = n
       ∧ Forall (fun c => p (code c) = true) (take n (drop pos t))
       ∧ k (pos + n)%nat = Some e.
Proof.
  intros Hp. revert pos. induction fuel as [|fuel IH]; intros pos Hs.
  - exists 0%nat. rewrite Nat.add_0_r, take_0. by repeat split.
  - cbn [star_loop] in Hs.
    destruct (run (Cls p) t pos _) as [e'|] eqn:Hr.
    + injection Hs as ->.
      apply run_Cls_Some in Hr as (c & w & Hst & Hc & Hk).
      destruct (step_Some _ _ _ _ Hst) as (_ & _ & Hasc & _).
      destruct (Hasc (Hp _ Hc)) as (-> & a & Ha & <-).
      destruct (Nat.ltb_spec pos (pos + 1)); [|lia].
      apply IH in Hk as (n & Hlen & Hall & Hk).
      exists (S n). rewrite (drop_lookup_cons _ _ _ Ha). cbn [take length].
      replace (drop (S pos) t) with (drop (pos + 1) t)
        by (f_equal; lia).
      split; [by rewrite Hlen|]. split; [by constructor|].
      by replace (pos + S n)%nat with (pos + 1 + n)%nat by lia.
    + exists 0%nat. rewrite Nat.add_0_r, take_0. by repeat split.
Qed.

Lemma run_length_all (p : Z → bool) (l : list ascii) :
  Forall (fun c => p (code c) = true) l → run_length p l = length l.
Proof.
  induction 1 as [|c l Hc _ IH]; simpl; [done|]. by rewrite Hc, IH.
Qed.

Lemma hexadecimal_ascii (l : list ascii) :
  Forall (fun c => hexdigit (code c) = true) l →
  Forall (fun c => code c < 128) l.
Proof.
  intros H. eapply Forall_impl; [exact H|]. intros c. apply hexdigit_ascii.
Qed.

(** What the two tests accept is made of hexadecimal digits. *)
Lemma is64HexString_hexadecimal (s : string) :
  is64HexString s = true → String.length s = 64%nat ∧ hexadecimal s.
Proof.
  unfold is64HexString, hexadecimal, MatchString_dollar.
  rewrite <- list_ascii_length.
  set (t := list_ascii_of_string s).
  destruct (Nat.eqb_spec (length t) 64) as [Hlen|Hlen]; cbn [negb]; [|done].
  rewrite bool_decide_eq_true.
  intros [[b e] Hs]. split; [done|].
  apply search_dollar_Some in Hs as [_ Hm].
  apply run_Bol_first in Hm as [-> Hm].
  apply (run_Rep_Cls_Some _ _ _ _ _ _ hexdigit_ascii) in Hm as (_ & Hall & _).
  by rewrite drop_0, take_ge in Hall by lia.
Qed.

Lemma isHexString_hexadecimal (s : string) :
  isHexString s = true → s ≠ "" ∧ hexadecimal s.
Proof.
  unfold isHexString, hexadecimal, MatchString_dollar.
  set (t := list_ascii_of_string s).
  assert (Hne : s ≠ "" ↔ t ≠ []).
  { unfold t. destruct s; simpl; split; done. }
  rewrite Hne, bool_decide_eq_true.
  intros [[b e] Hs].
  apply search_dollar_Some in Hs as [_ Hm].
  apply run_Bol_first in Hm as [-> Hm].
  unfold Plus in Hm. rewrite run_Cat in Hm.
  apply run_Cls_Some in Hm as (c & w & Hst & Hc & Hk).
  destruct (step_Some _ _ _ _ Hst) as (_ & _ & Hasc & _).
  destruct (Hasc (hexdigit_ascii _ Hc)) as (-> & a & Ha & <-).
  cbn [run] in Hk.
  apply (star_loop_Cls_inv _ _ _ _ _ _ hexdigit_ascii) in Hk
    as (n & Hlen & Hall & Hend).
  apply at_end_Some in Hend as [Hend _].
  split; [by intros Ht; rewrite Ht in Ha|].
  rewrite <- (drop_0 t), (drop_lookup_cons _ _ _ Ha).
  constructor; [done|].
  change (0 + 1)%nat with 1%nat in Hall.
  rewrite take_ge in Hall; [done|]. rewrite length_drop. lia.
Qed.

Lemma hexadecimal_is64HexString (s : string) :
  String.length s = 64%nat ∧ hexadecimal s → is64HexString s = true.
Proof.
  unfold is64HexString, hexadecimal, MatchString_dollar.
  rewrite <- list_ascii_length.
  set (t := list_ascii_of_string s).
  intros [Hlen Hall]. rewrite Hlen. cbn [Nat.eqb negb].
  rewrite bool_decide_eq_true. exists (0%nat, 64%nat).
  apply search_dollar_here. unfold match_at_dollar, re_hex64.
  rewrite run_Cat, run_Bol. cbn [Nat.eqb].
  rewrite run_Rep_Cls_match.
  - apply at_end_Some. by rewrite Hlen.
  - rewrite length_take, length_drop. lia.
  - rewrite take_ge by (rewrite length_drop; lia).
    eapply Forall_impl; [exact Hall|]. intros c Hc. split; [done|].
    by apply hexdigit_ascii.
Qed.

Lemma hexadecimal_isHexString (s : string) :
  s ≠ "" ∧ hexadecimal s → isHexString s = true.
Proof.
  unfold isHexString, hexadecimal, MatchString_dollar.
  set (t := list_ascii_of_string s).
  assert (Hne : s ≠ "" ↔ t ≠ []).
  { unfold t. destruct s; simpl; split; done. }
  rewrite Hne, bool_decide_eq_true.
  intros [Ht Hall]. destruct t as [|a l] eqn:Et; [done|].
  exists (0%nat, length t). rewrite <- Et. apply search_dollar_here.
  unfold match_at_dollar, re_hex, Plus.
  assert (Hasc : Forall (fun c => code c < 128) t).
  { rewrite Et. by apply hexadecimal_ascii. }
  assert (Ha : t !! 0%nat = Some a) by by rewrite Et.
  apply Forall_cons in Hall as [Hca Hl].
  rewrite run_Cat, run_Bol. cbn [Nat.eqb].
  rewrite run_Cat, (run_Cls_ascii _ _ _ _ _ Ha) by by apply hexdigit_ascii.
  rewrite Hca, (run_Star_Cls _ _ _ _ Hasc).
  assert (Hd : drop 1 t = l) by by rewrite Et.
  rewrite Hd, (run_length_all _ _ Hl).
  apply (try_down_hit _ _ _ (length l)); [lia | | intros; lia].
  apply at_end_Some. rewrite Et. simpl. split; lia.
Qed.

End HexFacts.

(** X2. [is64HexString] answers true exactly for the strings of 64 bytes
    that are all hexadecimal digits, in either case. *)
Theorem is64HexString_iff (s : string) :
  is64HexString s = true ↔ String.length s = 64%nat ∧ hexadecimal s.
Proof.
  split; [apply is64HexString_hexadecimal | apply hexadecimal_is64HexString].
Qed.

(** X3. [isHexString] answers true exactly for the non-empty strings whose
    bytes are all hexadecimal digits: the empty string is refused, and so is
    a string with a final line feed. *)
Theorem isHexString_iff (s : string) :
  isHexString s = true ↔ s ≠ "" ∧ hexadecimal s.
Proof.
  split; [apply isHexString_hexadecimal | apply hexadecimal_isHexString].
Qed.

(** X4. [is64HexString] is [isHexString] restricted to the strings of 64
    bytes: the test of the length and the bounded repetition add nothing
    else. *)
Theorem is64HexString_is_isHexString_of_length_64 (s : string) :
  is64HexString s = isHexString s && Nat.eqb (String.length s) 64.
Proof.
  destruct (is64HexString s) eqn:H64.
  - apply is64HexString_hexadecimal in H64 as [Hlen Hall].
    rewrite Hlen, hexadecimal_isHexString; [done|].
    split; [|done]. intros ->. done.
  - destruct (isHexString s) eqn:Hh; [|done].
    destruct (Nat.eqb_spec (String.length s) 64) as [Hlen|]; [|done].
    apply isHexString_hexadecimal in Hh as [_ Hall].
    by rewrite hexadecimal_is64HexString in H64.
Qed.

(** ** The tag setters *)

Section SetterFacts.

Lemma checkTags_ok_conforms (kind : Z) (tgs : Tags) :
  checkTags kind tgs = (Ok tt, []) ↔ Forall (conforms kind) tgs.
Proof.
  split.
  - intros Hok.
    destruct (checkTags_cases kind tgs)
      as [[Hall _] | [(pre & tg & name & post & _ & _ & _ & _ & Hr)
                     | (pre & post & _ & _ & Hr)]]; [done| |];
      rewrite Hr in Hok; discriminate.
  - intros Hall. rewrite <- (app_nil_r tgs).
    by rewrite checkTags_app_conforms.
Qed.

Lemma setHashTags_app (buf : string) (tgs : Tags) :
  setHashTags buf tgs
  = tgs ++ ((fun m => ["t"; ReplaceAllString_empty re_strip m])
              <$> FindAllString re_hashtag buf).
Proof.
  unfold setHashTags. generalize (FindAllString re_hashtag buf) as ms.
  intros ms. revert tgs. induction ms as [|m ms IH]; intros tgs; simpl.
  - by rewrite app_nil_r.
  - rewrite IH. unfold ExTag_getNostrTag. by rewrite <- app_assoc.
Qed.

Lemma conforms_1_t (v : string) : conforms 1 ["t"; v].
Proof. exists "t". split; [done|]. by apply contains_true. Qed.

Lemma conforms_1_p (v : string) : conforms 1 ["p"; v].
Proof. exists "p". split; [done|]. by apply contains_true. Qed.

Lemma conforms_1_cw (v : string) : conforms 1 ["content-warning"; v].
Proof. exists "content-warning". split; [done|]. by apply contains_true. Qed.

End SetterFacts.

(** X5. The three setters only append: the tags already there stay in
    place, [setPerson] adds the tag p with its argument,
    [setContentWarning] the tag content-warning with its argument, and
    [setHashTags] one [t] tag per match, in the order of the matches.  A tag
    list that passes the schema of the text note (kind 1) still passes it
    after any of them. *)
Theorem setters_keep_text_note_tags_valid (tgs : Tags) (p r buf : string) :
  checkTags 1 tgs = (Ok tt, []) →
  (setPerson p tgs = tgs ++ [["p"; p]]
   ∧ checkTags 1 (setPerson p tgs) = (Ok tt, []))
  ∧ (setContentWarning r tgs = tgs ++ [["content-warning"; r]]
     ∧ checkTags 1 (setContentWarning r tgs) = (Ok tt, []))
  ∧ (setHashTags buf tgs
     = tgs ++ ((fun m => ["t"; ReplaceAllString_empty re_strip m])
                 <$> FindAllString re_hashtag buf)
     ∧ checkTags 1 (setHashTags buf tgs) = (Ok tt, [])).
Proof.
  intros Hok%checkTags_ok_conforms.
  split; [|split]; (split; [done || apply setHashTags_app|]);
    apply checkTags_ok_conforms.
  - apply Forall_app. split; [done|]. repeat constructor. apply conforms_1_p.
  - apply Forall_app. split; [done|]. repeat constructor. apply conforms_1_cw.
  - rewrite setHashTags_app. apply Forall_app. split; [done|].
    apply Forall_fmap, Forall_true. intros m. apply conforms_1_t.
Qed.

Lemma setters_keep_text_note_tags_valid_witness :
  setPerson "abcd" [["e"; "abcd"]] = [["e"; "abcd"]; ["p"; "abcd"]]
  ∧ checkTags 1 (setHashTags "hello #world" [["e"; "abcd"]]) = (Ok tt, []).
Proof.
  split.
  - exact (proj1 (proj1
      (setters_keep_text_note_tags_valid [["e"; "abcd"]] "abcd" ""
         "hello #world" eq_refl))).
  - exact (proj2 (proj2 (proj2
      (setters_keep_text_note_tags_valid [["e"; "abcd"]] "abcd" ""
         "hello #world" eq_refl)))).
Defined.

(** X6. The schema of the repost (kind 6) lists only [e] and [p]: on a tag
    list that passes it, [setPerson] keeps it valid, whereas the tag of
    [setContentWarning] and the first tag of [setHashTags] are refused with
    the error Inclusion of invalid tag in specified kind, and the line
    logged is kind : 6, tagName : followed by content-warning or t. *)
Theorem setters_on_repost_tags (tgs : Tags) (p r buf : string) :
  checkTags 6 tgs = (Ok tt, []) →
  checkTags 6 (setPerson p tgs) = (Ok tt, [])
  ∧ checkTags 6 (setContentWarning r tgs)
    = (Err "Inclusion of invalid tag in specified kind",
       ["kind : 6, tagName : content-warning"])
  ∧ (FindAllString re_hashtag buf ≠ [] →
     checkTags 6 (setHashTags buf tgs)
     = (Err "Inclusion of invalid tag in specified kind",
        ["kind : 6, tagName : t"])).
Proof.
  intros Hok%checkTags_ok_conforms. split; [|split].
  - apply checkTags_ok_conforms. apply Forall_app. split; [done|].
    repeat constructor. exists "p". split; [done|]. by apply contains_true.
  - unfold setContentWarning. by rewrite checkTags_app_conforms.
  - intros Hm. rewrite setHashTags_app, checkTags_app_conforms by done.
    destruct (FindAllString re_hashtag buf) as [|m ms]; [done|].
    reflexivity.
Qed.

Lemma setters_on_repost_tags_witness :
  checkTags 6 (setHashTags "hello #world" [["e"; "abcd"]])
  = (Err "Inclusion of invalid tag in specified kind",
     ["kind : 6, tagName : t"]).
Proof.
  refine (proj2 (proj2
    (setters_on_repost_tags [["e"; "abcd"]] "" "" "hello #world" eq_refl)) _).
  vm_compute. discriminate.
Defined.

(** ** Texts without hash sign *)

Section HashFreeFacts.

(** A rune of the class of the hash signs begins with the byte [#] or with
    the byte 0xEF. *)
Lemma step_hash_byte (t : list ascii) (q : nat) (c : Z) (w : nat) :
  step t q = Some (c, w) → hash c = true →
  ∃ a, t !! q = Some a ∧ (code a = 35 ∨ code a = 239).
Proof.
  unfold step. intros H Hh.
  destruct (byte_at t q) as [s0|] eqn:H0; [|done].
  apply byte_at_Some in H0 as (c0 & Hl0 & <-).
  exists c0. split; [done|].
  pose proof (code_range c0) as Hr0.
  assert (Hc : c = 35 ∨ c = 65119 ∨ c = 65283) by (unfold hash in Hh; lia).
  clear Hh.
  destruct (Z.ltb_spec (code c0) 128) as [Hlt|Hge].
  { injection H as <- <-. lia. }
  unfold seq_len, RuneError in H.
  repeat case_match; simplify_eq; try lia.
  all: repeat match goal with
    | H : byte_at _ _ = Some _ |- _ =>
        apply byte_at_Some in H as (? & ? & <-)
    | H : _ && _ = true |- _ => apply andb_true_iff in H as [? ?]
    end.
  all: unfold second_ok, is_cont in *.
  all: repeat match goal with
    | H : _ && _ = true |- _ => apply andb_true_iff in H as [? ?]
    end.
  all: repeat match goal with
    | H : (_ <=? _) = true |- _ => apply Z.leb_le in H
    | H : (_ <? _) = true |- _ => apply Z.ltb_lt in H
    | H : (_ <? _) = false |- _ => apply Z.ltb_ge in H
    end.
  all: repeat match goal with
    | H : context [if ?b then _ else _] |- _ =>
        destruct (Z.eqb_spec (code c0) 224), (Z.eqb_spec (code c0) 240),
                 (Z.eqb_spec (code c0) 237), (Z.eqb_spec (code c0) 244)
    end.
  all: lia.
Qed.

Lemma hash_head_byte (r : regex) (t : list ascii) (b : nat)
    (k : nat → option nat) (e : nat) :
  run (Cat (Alt Bol (Cls space)) (Cat (Cls hash) r)) t b k = Some e →
  ∃ q a, t !! q = Some a ∧ (code a = 35 ∨ code a = 239).
Proof.
  rewrite run_Cat, run_Alt.
  assert (Hhash : ∀ q, run (Cat (Cls hash) r) t q k = Some e →
                       ∃ q a, t !! q = Some a ∧ (code a = 35 ∨ code a = 239)).
  { intros q Hq. rewrite run_Cat in Hq.
    apply run_Cls_Some in Hq as (c & w & Hs & Hh & _).
    exists q. by apply (step_hash_byte _ _ _ _ Hs). }
  destruct (run Bol t b _) as [e0|] eqn:Hb.
  - intros [= ->]. rewrite run_Bol in Hb.
    destruct (Nat.eqb b 0); [|done]. by apply (Hhash b).
  - intros Hr. apply run_Cls_Some in Hr as (c & w & _ & _ & Hk).
    by apply (Hhash (b + w)%nat).
Qed.

Lemma search_hash_free (r : regex) (t : list ascii) (fuel pos : nat) :
  Forall (fun c => code c ≠ 35 ∧ code c ≠ 239) t →
  search (Cat (Alt Bol (Cls space)) (Cat (Cls hash) r)) t fuel pos = None.
Proof.
  intros Hfree. apply search_None. intros q _.
  destruct (match_at _ t q) as [e|] eqn:Hm; [|done]. exfalso.
  apply hash_head_byte in Hm as (q' & a & Ha & Hcode).
  destruct (Forall_lookup_1 _ _ _ _ Hfree Ha) as [? ?]. lia.
Qed.

End HashFreeFacts.

(** X7. A content in which no byte is [#] or 0xEF, the first byte of the
    two other hash signs, has no hashtag: [excludeHashtagsParsign] returns
    it unchanged and [setHashTags] adds no tag. *)
Theorem hash_free_content_is_left_alone (s : string) (tgs : Tags) :
  hash_free s →
  excludeHashtagsParsign s = Ok s ∧ setHashTags s tgs = tgs.
Proof.
  intros Hfree. split.
  - unfold excludeHashtagsParsign, ReplaceAllString_empty. f_equal.
    rewrite replaceAll_no_match by by apply search_hash_free.
    by rewrite drop_0, string_of_list_ascii_of_string.
  - unfold setHashTags, FindAllString.
    rewrite allMatches_nil; [done|]. by apply search_hash_free.
Qed.

Ltac hash_free_literal :=
  unfold hash_free; simpl;
  repeat (constructor; [split; discriminate|]); constructor.

Lemma hash_free_content_is_left_alone_witness :
  excludeHashtagsParsign "price: 5$ | こんにちは" = Ok "price: 5$ | こんにちは"
  ∧ setHashTags "price: 5$ | こんにちは" [["p"; "abcd"]] = [["p"; "abcd"]].
Proof.
  apply (hash_free_content_is_left_alone "price: 5$ | こんにちは").
  hash_free_literal.
Defined.

(** ** The registries of the builder *)

Section RegistryFacts.

Lemma kind_registered_cases (cmd : string) :
  (NewSubCmdKindTbl !! cmd = None ∧ NewConvArgsTagsTbl !! cmd = None)
  ∨ cmd = "pubMessage" ∨ cmd = "pubMessageTo".
Proof.
  unfold NewSubCmdKindTbl, NewConvArgsTagsTbl. simpl list_to_map.
  rewrite !lookup_insert. repeat case_decide; auto.
Qed.

Lemma hasSubcommand_agree (args : list string) :
  hasSubcommand NewSubCmdKindTbl args = hasSubcommand NewConvArgsTagsTbl args.
Proof.
  unfold hasSubcommand. destruct (Nat.leb _ _); [done|].
  destruct (index args subCommandName) as [cmd| |]; [|done..]. simpl.
  destruct (kind_registered_cases cmd) as [[-> ->] | [-> | ->]]; done.
Qed.

End RegistryFacts.

(** X8. The two registries of the builder go together: they have the same
    subcommands, so that the lookup of the kind cannot fail once the
    bindings have been found, and every tag name bound to an argument
    position is listed in the tag schema for the kind of its subcommand. *)
Theorem registries_are_consistent :
  (∀ cmd, is_Some (NewSubCmdKindTbl !! cmd)
          ↔ is_Some (NewConvArgsTagsTbl !! cmd))
  ∧ (∀ args, hasSubcommand NewConvArgsTagsTbl args = Ok tt →
             get NewSubCmdKindTbl args = Ok 1)
  ∧ (∀ cmd kind binds i names name,
       NewSubCmdKindTbl !! cmd = Some kind →
       NewConvArgsTagsTbl !! cmd = Some binds →
       binds !! i = Some names → name ∈ names → listed kind name).
Proof.
  split; [|split].
  - intros cmd.
    destruct (kind_registered_cases cmd) as [[-> ->] | [-> | ->]];
      [done | |]; split; intros _; by eexists.
  - intros args Hok. unfold get. rewrite hasSubcommand_agree, Hok. simpl.
    unfold hasSubcommand in Hok.
    destruct (Nat.leb _ _); [done|].
    destruct (index args subCommandName) as [cmd| |]; [|done..].
    simpl in *.
    destruct (kind_registered_cases cmd) as [[_ Hn] | [-> | ->]];
      [by rewrite Hn in Hok | done | done].
  - intros cmd kind binds i names name Hk Hb Hi Hin.
    apply contains_true.
    destruct (kind_registered_cases cmd) as [[Hn _] | [-> | ->]];
      [congruence | |].
    + change (NewSubCmdKindTbl !! "pubMessage") with (Some 1) in Hk.
      change (NewConvArgsTagsTbl !! "pubMessage")
        with (Some (list_to_map [(3, ["content-warning"])]
                      : gmap Z (list string))) in Hb.
      injection Hk as <-. injection Hb as <-. simpl in Hi.
      apply lookup_insert_Some in Hi as [[_ <-] | [_ Hi]]; [|done].
      apply list_elem_of_singleton in Hin as ->. reflexivity.
    + change (NewSubCmdKindTbl !! "pubMessageTo") with (Some 1) in Hk.
      change (NewConvArgsTagsTbl !! "pubMessageTo")
        with (Some (list_to_map [(3, ["p"])] : gmap Z (list string))) in Hb.
      injection Hk as <-. injection Hb as <-. simpl in Hi.
      apply lookup_insert_Some in Hi as [[_ <-] | [_ Hi]]; [|done].
      apply list_elem_of_singleton in Hin as ->. reflexivity.
Qed.

Lemma registries_are_consistent_witness : listed 1 "p".
Proof.
  refine (proj2 (proj2 registries_are_consistent)
            "pubMessageTo" 1 (list_to_map [(3, ["p"])]) 3 ["p"] "p"
            eq_refl eq_refl eq_refl _).
  by left.
Defined.

(** X9. For a registered subcommand [buildJson] never returns an error:
    with at most four arguments it builds a draft, with the subcommand alone
    a draft whose content is empty, and with five arguments or more it
    panics. *)
Theorem buildJson_of_registered_subcommand (args : list string) (cmd : string) :
  args !! 1%nat = Some cmd → is_Some (NewConvArgsTagsTbl !! cmd) →
  ((length args <= 4)%nat → is_ok (buildRawArg args) = true)
  ∧ (length args = 2%nat → buildRawArg args = Ok (mkRawArg 1 "" []))
  ∧ ((5 <= length args)%nat → buildRawArg args = Panic index_out_of_range).
Proof.
  intros Hcmd [binds Hb]. pose proof (buildRawArg_cases args) as Hc.
  destruct args as [|prog [|cmd' rest]]; [done..|].
  injection Hcmd as ->. rewrite Hb in Hc. destruct Hc as (_ & _ & Hc).
  destruct rest as [|c [|v [|x rest]]]; simpl length.
  - rewrite Hc. repeat split; try done. lia.
  - rewrite Hc. repeat split; try done; lia.
  - destruct Hc as (name & _ & _ & ->). repeat split; try done; lia.
  - rewrite Hc. repeat split; try done; lia.
Qed.

Lemma buildJson_of_registered_subcommand_witness :
  buildRawArg ["nostk"; "pubMessageTo"] = Ok (mkRawArg 1 "" []).
Proof.
  refine (proj1 (proj2
    (buildJson_of_registered_subcommand ["nostk"; "pubMessageTo"]
       "pubMessageTo" eq_refl _)) eq_refl).
  by eexists.
Defined.

(** ** Hexadecimal keys and the private-key scan *)

(** X10. [containsNsec1] looks for the bech32 form only: a private key in
    the hexadecimal form, which [is64HexString] accepts, is never
    reported. *)
Theorem containsNsec1_misses_hex_keys (s : string) :
  is64HexString s = true → containsNsec1 s = false.
Proof.
  intros [_ Hhex]%is64HexString_hexadecimal. apply not_true_is_false.
  intros (b & Ho & _)%containsNsec1_true_inv.
  apply occurs_at_cons in Ho as [Hn _].
  pose proof (Forall_lookup_1 _ _ _ _ Hhex Hn) as Hd. simpl in Hd.
  discriminate.
Qed.

Lemma containsNsec1_misses_hex_keys_witness :
  containsNsec1
    "3bf0c63fcb93463407af97a5e5ee64fa883d107ef9e558472c4eb9aaaefa459d"
  = false.
Proof.
  apply containsNsec1_misses_hex_keys. vm_compute. reflexivity.
Defined.

(** ** Reading the key, the profile and the relay list *)

Section LineFacts.

Lemma split_lines_lf (cur t : list ascii) :
  split_lines cur (newline :: t)
  = string_of_list_ascii (rev cur) :: split_lines [] t.
Proof. reflexivity. Qed.

Lemma split_lines_one_line (l cur t : list ascii) :
  Forall (fun c => c ≠ newline) l →
  split_lines cur (l ++ t) = split_lines (rev l ++ cur) t.
Proof.
  intros Hl. revert cur. induction Hl as [|c l Hc _ IH]; intros cur; [done|].
  simpl. destruct (Ascii.eqb_spec c newline) as [->|_]; [done|].
  rewrite IH. by rewrite <- app_assoc.
Qed.

Lemma split_lines_blank (l t : list ascii) :
  Forall (fun c => c = newline) l →
  filter (fun r => r ≠ "") (split_lines [] (l ++ t))
  = filter (fun r => r ≠ "") (split_lines [] t).
Proof.
  induction 1 as [|c l -> _ IH]; [done|].
  rewrite <- app_comm_cons, split_lines_lf. simpl.
  by rewrite filter_cons_False by (intros H; by apply H).
Qed.

Lemma remove_lf_one_line (b : string) :
  Forall (fun c => c ≠ newline) (list_ascii_of_string (remove_lf b)).
Proof.
  unfold remove_lf. rewrite list_ascii_of_string_of_list_ascii.
  apply Forall_forall. by intros c [Hc _]%list_elem_of_filter.
Qed.

End LineFacts.

(** X11. [readPrivateKey] returns the first non-empty line of the key
    file: the line feeds before it, the line feed after it and the lines
    that follow are left out, and the error of the read is not looked
    at. *)
Theorem readPrivateKey_returns_first_line
    {W R : Type} (sys : System W R) (w w1 w2 w3 : W)
    (dir blank key rest : string) (err : option string) :
  getDir sys w = (w1, Ok dir) →
  os_Stat sys (dir +:+ "/" +:+ hsec) w1 = (w2, None) →
  ioutil_ReadFile sys (dir +:+ "/" +:+ hsec) w2
  = (w3, (blank +:+ key +:+ rest, err)) →
  blank_lines blank → key ≠ "" → one_line key →
  (rest = "" ∨ ∃ r, rest = String newline r) →
  readPrivateKey sys w = (w3, Ok key).
Proof.
  intros Hd Hs Hr Hblank Hkey Hone Hrest.
  unfold readPrivateKey. rewrite Hd, Hs, Hr. f_equal.
  unfold strings_Split_lf. rewrite !list_ascii_app.
  rewrite split_lines_blank by done.
  rewrite split_lines_one_line, app_nil_r by done.
  assert (Hk : string_of_list_ascii (rev (rev (list_ascii_of_string key))) = key).
  { by rewrite rev_involutive, string_of_list_ascii_of_string. }
  destruct Hrest as [-> | [r ->]].
  - simpl. rewrite Hk. by rewrite filter_cons_True by done.
  - change (list_ascii_of_string (String newline r))
      with (newline :: list_ascii_of_string r).
    rewrite split_lines_lf, Hk. by rewrite filter_cons_True by done.
Qed.

Lemma readPrivateKey_returns_first_line_witness :
  readPrivateKey
    (simple_system
       (String newline "" +:+ "abcd" +:+ String newline "ef", None) [] [])
    tt
  = (tt, Ok "abcd").
Proof.
  refine (readPrivateKey_returns_first_line
            (simple_system
               (String newline "" +:+ "abcd" +:+ String newline "ef", None)
               [] [])
            tt tt tt tt "/home/u/.nostk"
            (String newline "") "abcd" (String newline "ef") None
            _ _ _ _ _ _ _); [reflexivity | reflexivity | reflexivity | | | | ].
  - repeat constructor.
  - discriminate.
  - unfold one_line. simpl. repeat (constructor; [discriminate|]). constructor.
  - right. by eexists.
Defined.

(** X12. [readProfile] and [readRelayList] return the content of their
    file with the line feeds taken out.  When the read fails,
    [readRelayList] returns the error, whereas [readProfile], which does
    not look at it, returns what was read as a success. *)
Theorem readProfile_ignores_read_error
    {W R F : Type} (host : Host W R F) (w w1 w2 w3 : W)
    (d name b : string) (err : option string) :
  getDir (host_system host) w = (w1, Ok d) →
  os_Stat (host_system host) (d +:+ "/" +:+ name) w1 = (w2, None) →
  ioutil_ReadFile (host_system host) (d +:+ "/" +:+ name) w2
  = (w3, (b, err)) →
  (name = profile →
   readProfile host w = (w3, Ok (remove_lf b)))
  ∧ (name = relays →
     readRelayList (host_system host) w
     = (w3, match err with Some e => Err e | None => Ok (remove_lf b) end))
  ∧ one_line (remove_lf b).
Proof.
  intros Hd Hs Hr. split; [|split].
  - intros ->. unfold readProfile. by rewrite Hd, Hs, Hr.
  - intros ->. unfold readRelayList. rewrite Hd, Hs, Hr. by destruct err.
  - apply remove_lf_one_line.
Qed.

Lemma readProfile_ignores_read_error_witness :
  readProfile
    (simple_host
       (with_ReadFile (simple_system ("k", None) [] [])
          (fun _ w => (w, ("{}", Some "input/output error")))) [] []) tt
  = (tt, Ok "{}")
  ∧ readRelayList
      (with_ReadFile (simple_system ("k", None) [] [])
         (fun _ w => (w, ("{}", Some "input/output error")))) tt
    = (tt, Err "input/output error").
Proof.
  split.
  - exact (proj1 (readProfile_ignores_read_error
             (simple_host
                (with_ReadFile (simple_system ("k", None) [] [])
                   (fun _ w => (w, ("{}", Some "input/output error")))) [] [])
             tt tt tt tt "/home/u/.nostk" profile "{}"
             (Some "input/output error") eq_refl eq_refl eq_refl) eq_refl).
  - exact (proj1 (proj2 (readProfile_ignores_read_error
             (simple_host
                (with_ReadFile (simple_system ("k", None) [] [])
                   (fun _ w => (w, ("{}", Some "input/output error")))) [] [])
             tt tt tt tt "/home/u/.nostk" relays "{}"
             (Some "input/output error") eq_refl eq_refl eq_refl)) eq_refl).
Defined.

(** ** Publishing the profile and the relay list *)

Section ProfileFacts.
Context {W R F : Type} (host : Host W R F).

(** The run of [publishProfile], by the step at which it ends. *)
Lemma publishProfile_cases (w : W) :
  (is_ok (publishProfile host w).2 = false
   ∧ connects (publishProfile host w).1.2 = []
   ∧ published (publishProfile host w).1.2 = [])
  ∨ (∃ w0 s w1 sk pk w2 rl,
       readProfile host w = (w0, Ok s) ∧
       readPrivateKey (host_system host) w0 = (w1, Ok sk) ∧
       nostr_GetPublicKey (host_system host) sk = Ok pk ∧
       getRelayList (host_system host) [] w1 = (w2, Ok rl) ∧
       publishProfile host w
       = (publish_loop (host_system host)
            (Sign (host_system host)
               (mkEvent "" pk (nostr_Now (host_system host) w2)
                  KindSetMetadata [] s "") sk) rl w2,
          Ok tt)).
Proof.
  unfold publishProfile.
  destruct (readProfile host w) as [w0 [s|e|m]] eqn:Hs; [|by left..].
  destruct (readPrivateKey (host_system host) w0) as [w1 [sk|e|m]] eqn:Hsk;
    [|by left..].
  destruct (nostr_GetPublicKey (host_system host) sk) as [pk|e|m] eqn:Hpk;
    [|by left..].
  destruct (getRelayList (host_system host) [] w1) as [w2 [rl|e|m]] eqn:Hrl;
    [|by left..].
  right. exists w0, s, w1, sk, pk, w2, rl. repeat split; try done.
  by destruct (publish_loop (host_system host) _ rl w2).
Qed.

(** The loop of [publishRelayList] makes the calls of the loop of
    [publishMessage]. *)
Lemma publishRelayList_attempt_calls (ev : Event) (url : string) (w : W) :
  (publishRelayList_attempt host ev url w).1
  = (publish_attempt (host_system host) ev url w).1
  ∧ connects (publishRelayList_attempt host ev url w).2
    = connects (publish_attempt (host_system host) ev url w).2
  ∧ published (publishRelayList_attempt host ev url w).2
    = published (publish_attempt (host_system host) ev url w).2.
Proof.
  unfold publishRelayList_attempt, publish_attempt.
  destruct (nostr_RelayConnect (host_system host) url w) as [w1 [e|r]];
    [done|].
  by destruct (relay_Publish (host_system host) r ev w1) as [w2 [e|]].
Qed.

Lemma publishRelayList_loop_cons (ev : Event) (url : string)
    (rl : list string) (w : W) :
  publishRelayList_loop host ev (url :: rl) w
  = ((publishRelayList_loop host ev rl
        (publishRelayList_attempt host ev url w).1).1,
     (publishRelayList_attempt host ev url w).2
     ++ (publishRelayList_loop host ev rl
           (publishRelayList_attempt host ev url w).1).2).
Proof.
  simpl. destruct (publishRelayList_attempt host ev url w) as [w1 tr1]; simpl.
  by destruct (publishRelayList_loop host ev rl w1).
Qed.

Lemma publishRelayList_loop_calls (ev : Event) (rl : list string) (w : W) :
  (publishRelayList_loop host ev rl w).1
  = (publish_loop (host_system host) ev rl w).1
  ∧ connects (publishRelayList_loop host ev rl w).2
    = connects (publish_loop (host_system host) ev rl w).2
  ∧ published (publishRelayList_loop host ev rl w).2
    = published (publish_loop (host_system host) ev rl w).2.
Proof.
  revert w. induction rl as [|url rl IH]; intros w; [done|].
  rewrite publishRelayList_loop_cons, publish_loop_cons. cbn [fst snd].
  destruct (publishRelayList_attempt_calls ev url w) as (-> & Hc & Hp).
  destruct (IH (publish_attempt (host_system host) ev url w).1)
    as (-> & Hc' & Hp').
  by rewrite !connects_app, !published_app, Hc, Hp, Hc', Hp'.
Qed.

(** The run of [publishRelayList], by the step at which it ends. *)
Lemma publishRelayList_cases (w : W) :
  (is_ok (publishRelayList host w).2 = false
   ∧ connects (publishRelayList host w).1.2 = []
   ∧ published (publishRelayList host w).1.2 = [])
  ∨ (∃ w0 b w0' p w1 sk pk w2 rl,
       readRelayList (host_system host) w = (w0, Ok b) ∧
       relay_entries host b w0 = (w0', Ok p) ∧
       readPrivateKey (host_system host) w0' = (w1, Ok sk) ∧
       nostr_GetPublicKey (host_system host) sk = Ok pk ∧
       getRelayList (host_system host) [] w1 = (w2, Ok rl) ∧
       publishRelayList host w
       = (publishRelayList_loop host
            (Sign (host_system host)
               (mkEvent "" pk (nostr_Now (host_system host) w2)
                  KindRelayListMetadata
                  ((fun e => relay_tag e.1 e.2) <$> p) "" "") sk) rl w2,
          Ok tt)).
Proof.
  unfold publishRelayList.
  destruct (readRelayList (host_system host) w) as [w0 [b|e|m]] eqn:Hb;
    [|by left..].
  destruct (relay_entries host b w0) as [w0' [p|e|m]] eqn:Hp; [|by left..].
  destruct (readPrivateKey (host_system host) w0') as [w1 [sk|e|m]] eqn:Hsk;
    [|by left..].
  destruct (nostr_GetPublicKey (host_system host) sk) as [pk|e|m] eqn:Hpk;
    [|by left..].
  destruct (getRelayList (host_system host) [] w1) as [w2 [rl|e|m]] eqn:Hrl;
    [|by left..].
  right. exists w0, b, w0', p, w1, sk, pk, w2, rl. repeat split; try done.
  by destruct (publishRelayList_loop host _ rl w2).
Qed.

Lemma relay_tag_cases (i : string) (f : RwFlag) :
  relay_tag i f
  = "r" :: i :: (if Read f && Write f then []
                 else if Read f then ["read"]
                 else if Write f then ["write"] else []).
Proof. unfold relay_tag. by destruct (Read f), (Write f). Qed.

End ProfileFacts.

(** X13. [publishProfile] sends to every relay of the list one event of
    kind 0 without tags whose content is the profile file without its line
    feeds, whatever that content is (an empty one too); when a step before
    the loop fails, no relay is called. *)
Theorem publishProfile_publishes_profile
    {W R F : Type} (host : Host W R F) (w : W) :
  Forall (fun p => EvKind p.2 = 0 ∧ EvTags p.2 = [])
         (published (publishProfile host w).1.2)
  ∧ (is_ok (publishProfile host w).2 = false →
     connects (publishProfile host w).1.2 = []
     ∧ published (publishProfile host w).1.2 = [])
  ∧ (∀ w0 s w1 sk pk w2 rl,
       readProfile host w = (w0, Ok s) →
       readPrivateKey (host_system host) w0 = (w1, Ok sk) →
       nostr_GetPublicKey (host_system host) sk = Ok pk →
       getRelayList (host_system host) [] w1 = (w2, Ok rl) →
       (publishProfile host w).2 = Ok tt
       ∧ connects (publishProfile host w).1.2 = rl
       ∧ Forall (fun p =>
                   p.2 = Sign (host_system host)
                           (mkEvent "" pk (nostr_Now (host_system host) w2)
                              KindSetMetadata [] s "") sk)
                (published (publishProfile host w).1.2)).
Proof.
  split; [|split].
  - destruct (publishProfile_cases host w)
      as [(_ & _ & ->) | (w0 & s & w1 & sk & pk & w2 & rl & _ & _ & _ & _ & ->)];
      [constructor|]. cbn [fst snd].
    eapply Forall_impl; [apply publish_loop_published|].
    intros p ->.
    destruct (Sign_fields (host_system host)
                (mkEvent "" pk (nostr_Now (host_system host) w2)
                   KindSetMetadata [] s "") sk) as (-> & _ & ->).
    done.
  - intros Hr.
    destruct (publishProfile_cases host w)
      as [(_ & ? & ?) | (w0 & s & w1 & sk & pk & w2 & rl & _ & _ & _ & _ & E)];
      [done|]. by rewrite E in Hr.
  - intros w0 s w1 sk pk w2 rl H0 H1 H2 H3.
    destruct (publishProfile_cases host w)
      as [(Hr & _ & _)
         | (w0' & s' & w1' & sk' & pk' & w2' & rl' & E0 & E1 & E2 & E3 & E)].
    + exfalso. revert Hr. unfold publishProfile.
      rewrite H0, H1, H2, H3.
      by destruct (publish_loop (host_system host) _ rl w2).
    + rewrite H0 in E0. simplify_eq. rewrite H1 in E1. simplify_eq.
      rewrite H2 in E2. simplify_eq. rewrite H3 in E3. simplify_eq.
      rewrite E. cbn [fst snd]. split; [done|].
      split; [apply publish_loop_connects | apply publish_loop_published].
Qed.

Lemma publishProfile_publishes_profile_witness :
  (publishProfile
     (simple_host
        (unreadable (simple_system ("k", None) ["wss://a"; "wss://b"] [])
           "/home/u/.nostk/profile.json") [] []) tt).2
  = Ok tt
  ∧ connects
      (publishProfile
     (simple_host
        (unreadable (simple_system ("k", None) ["wss://a"; "wss://b"] [])
           "/home/u/.nostk/profile.json") [] []) tt).1.2
    = ["wss://a"; "wss://b"]
  ∧ Forall (fun p => EvContent p.2 = "")
      (published
         (publishProfile
     (simple_host
        (unreadable (simple_system ("k", None) ["wss://a"; "wss://b"] [])
           "/home/u/.nostk/profile.json") [] []) tt).1.2).
Proof.
  destruct (proj2 (proj2 (publishProfile_publishes_profile
     (simple_host
        (unreadable (simple_system ("k", None) ["wss://a"; "wss://b"] [])
           "/home/u/.nostk/profile.json") [] []) tt))
              tt "" tt "k" "pub-k" tt ["wss://a"; "wss://b"]
              eq_refl eq_refl eq_refl eq_refl) as (Hr & Hc & Hp).
  split; [exact Hr|]. split; [exact Hc|].
  eapply Forall_impl; [exact Hp|]. by intros p ->.
Defined.

(** X14. The tag [publishRelayList] builds for a relay is r, the URL and
    a marker: read when only the read flag is set, write when only the
    write flag is set, none when the flags are equal.  So a relay with
    neither flag gets the tag of a relay with both. *)
Theorem relay_tag_marks_one_sided_relays (i : string) (f : RwFlag) :
  take 2 (relay_tag i f) = ["r"; i]
  ∧ (drop 2 (relay_tag i f) = ["read"] ↔ Read f = true ∧ Write f = false)
  ∧ (drop 2 (relay_tag i f) = ["write"] ↔ Read f = false ∧ Write f = true)
  ∧ (drop 2 (relay_tag i f) = [] ↔ Read f = Write f)
  ∧ (∀ i' f', relay_tag i f = relay_tag i' f'
              ↔ i = i' ∧ (f = f' ∨ (Read f = Write f ∧ Read f' = Write f'))).
Proof.
  rewrite relay_tag_cases. cbn [take drop].
  split; [done|].
  split; [destruct f as [[] []]; cbn;
          (split; [intros [=] | intros [[=] [=]]]); done|].
  split; [destruct f as [[] []]; cbn;
          (split; [intros [=] | intros [[=] [=]]]); done|].
  split; [destruct f as [[] []]; cbn; split; intros [=]; done|].
  intros i' f'. rewrite relay_tag_cases.
  destruct f as [[] []], f' as [[] []]; cbn; split;
    try (intros [-> [[=] | [[=] [=]]]]; done);
    intros H; simplify_eq; (split; [done|]); (by left) || (by right).
Qed.

(** X15. [publishRelayList] sends to every relay of the list one event
    of kind 10002 with an empty content and one r tag for each entry of the
    decoded relay file, in the order of the iteration; its loop makes the
    relay calls of the loop of [publishMessage]; when a step before the
    loop fails, no relay is called, and when the relay file cannot be read
    or decoded nothing is printed either. *)
Theorem publishRelayList_publishes_relay_tags
    {W R F : Type} (host : Host W R F) (w : W) :
  Forall (fun p => EvKind p.2 = 10002 ∧ EvContent p.2 = "")
         (published (publishRelayList host w).1.2)
  ∧ (is_ok (publishRelayList host w).2 = false →
     connects (publishRelayList host w).1.2 = []
     ∧ published (publishRelayList host w).1.2 = [])
  ∧ (∀ w0 e, readRelayList (host_system host) w = (w0, Err e) →
             publishRelayList host w = (w0, [], Err e))
  ∧ (∀ w0 b w0' e,
       readRelayList (host_system host) w = (w0, Ok b) →
       relay_entries host b w0 = (w0', Err e) →
       publishRelayList host w = (w0', [], Err e))
  ∧ (∀ w0 b w0' p w1 sk pk w2 rl,
       readRelayList (host_system host) w = (w0, Ok b) →
       relay_entries host b w0 = (w0', Ok p) →
       readPrivateKey (host_system host) w0' = (w1, Ok sk) →
       nostr_GetPublicKey (host_system host) sk = Ok pk →
       getRelayList (host_system host) [] w1 = (w2, Ok rl) →
       (publishRelayList host w).2 = Ok tt
       ∧ connects (publishRelayList host w).1.2 = rl
       ∧ Forall (fun q =>
                   length (EvTags q.2) = length p
                   ∧ (fun t => t !! 0%nat) <$> EvTags q.2
                     = (fun _ => Some "r") <$> p
                   ∧ (fun t => t !! 1%nat) <$> EvTags q.2
                     = (fun e => Some e.1) <$> p
                   ∧ q.2 = Sign (host_system host)
                             (mkEvent "" pk (nostr_Now (host_system host) w2)
                                KindRelayListMetadata
                                ((fun e => relay_tag e.1 e.2) <$> p) "" "")
                             sk)
                (published (publishRelayList host w).1.2)
       ∧ published (publishRelayList host w).1.2
         = published
             (publish_loop (host_system host)
                (Sign (host_system host)
                   (mkEvent "" pk (nostr_Now (host_system host) w2)
                      KindRelayListMetadata
                      ((fun e => relay_tag e.1 e.2) <$> p) "" "") sk)
                rl w2).2).
Proof.
  split; [|split; [|split; [|split]]].
  - destruct (publishRelayList_cases host w)
      as [(_ & _ & ->)
         | (w0 & b & w0' & p & w1 & sk & pk & w2 & rl
            & _ & _ & _ & _ & _ & ->)];
      [constructor|]. cbn [fst snd].
    rewrite (proj2 (proj2 (publishRelayList_loop_calls host _ rl w2))).
    eapply Forall_impl; [apply publish_loop_published|].
    intros q ->.
    destruct (Sign_fields (host_system host)
                (mkEvent "" pk (nostr_Now (host_system host) w2)
                   KindRelayListMetadata
                   ((fun e => relay_tag e.1 e.2) <$> p) "" "") sk)
      as (_ & -> & ->).
    done.
  - intros Hr.
    destruct (publishRelayList_cases host w)
      as [(_ & ? & ?)
         | (w0 & b & w0' & p & w1 & sk & pk & w2 & rl
            & _ & _ & _ & _ & _ & E)];
      [done|]. by rewrite E in Hr.
  - intros w0 e H0. unfold publishRelayList. by rewrite H0.
  - intros w0 b w0' e H0 H1. unfold publishRelayList. by rewrite H0, H1.
  - intros w0 b w0' p w1 sk pk w2 rl H0 H1 H2 H3 H4.
    assert (E : publishRelayList host w
                = (publishRelayList_loop host
                     (Sign (host_system host)
                        (mkEvent "" pk (nostr_Now (host_system host) w2)
                           KindRelayListMetadata
                           ((fun e => relay_tag e.1 e.2) <$> p) "" "") sk)
                     rl w2, Ok tt)).
    { unfold publishRelayList. rewrite H0, H1, H2, H3, H4.
      by destruct (publishRelayList_loop host _ rl w2). }
    rewrite E. cbn [fst snd].
    destruct (publishRelayList_loop_calls host
                (Sign (host_system host)
                   (mkEvent "" pk (nostr_Now (host_system host) w2)
                      KindRelayListMetadata
                      ((fun e => relay_tag e.1 e.2) <$> p) "" "") sk) rl w2)
      as (_ & -> & ->).
    split; [done|]. split; [apply publish_loop_connects|].
    split; [|done].
    eapply Forall_impl; [apply publish_loop_published|].
    intros q ->.
    destruct (Sign_fields (host_system host)
                (mkEvent "" pk (nostr_Now (host_system host) w2)
                   KindRelayListMetadata
                   ((fun e => relay_tag e.1 e.2) <$> p) "" "") sk)
      as (-> & _ & _).
    cbn [EvTags]. rewrite length_fmap, <- !list_fmap_compose.
    split; [done|]. split; [|split; [|done]];
      apply list_fmap_ext; intros ? [i f] _; cbn;
      by rewrite relay_tag_cases.
Qed.

Lemma publishRelayList_publishes_relay_tags_witness :
  (publishRelayList
     (simple_host (simple_system ("k", None) ["wss://a"; "wss://b"] [])
        [("wss://a", mkRwFlag true false); ("wss://b", mkRwFlag false false)]
        []) tt).2
  = Ok tt
  ∧ Forall (fun q =>
              EvTags q.2 = [["r"; "wss://a"; "read"]; ["r"; "wss://b"]])
      (published
         (publishRelayList
            (simple_host (simple_system ("k", None) ["wss://a"; "wss://b"] [])
               [("wss://a", mkRwFlag true false);
                ("wss://b", mkRwFlag false false)] []) tt).1.2).
Proof.
  destruct (proj2 (proj2 (proj2 (proj2
              (publishRelayList_publishes_relay_tags
                 (simple_host
                    (simple_system ("k", None) ["wss://a"; "wss://b"] [])
                    [("wss://a", mkRwFlag true false);
                     ("wss://b", mkRwFlag false false)] []) tt))))
              tt "{}" tt
              [("wss://a", mkRwFlag true false);
               ("wss://b", mkRwFlag false false)]
              tt "k" "pub-k" tt ["wss://a"; "wss://b"]
              eq_refl eq_refl eq_refl eq_refl eq_refl) as (Hr & _ & Hp & _).
  split; [exact Hr|].
  eapply Forall_impl; [exact Hp|]. by intros q (_ & _ & _ & ->).
Defined.

(** ** Key files, skeletons and the editor *)

Section FileFacts.
Context {W R F : Type} (host : Host W R F).

Lemma getDir_Ok (sys : System W R) (w w1 : W) (d : string) :
  getDir sys w = (w1, Ok d) →
  os_Getenv sys "HOME" w ≠ "" ∧ d = os_Getenv sys "HOME" w +:+ secretDir.
Proof.
  unfold getDir.
  destruct (String.eqb_spec (os_Getenv sys "HOME" w) "") as [->|Hne];
    [done|].
  destruct (os_Stat sys _ w) as [w' [e|]].
  - destruct (os_Mkdir sys _ w') as [w'' [e'|]]; [done|].
    intros [= _ <-]. done.
  - intros [= _ <-]. done.
Qed.

Lemma getDir_unset (sys : System W R) (w : W) :
  os_Getenv sys "HOME" w = "" →
  getDir sys w = (w, Err "Not set HOME environmental variables").
Proof. intros H. unfold getDir. by rewrite H. Qed.

(** What saving one key does. *)
Lemma save_key_cases (name dn key : string) (w : W) :
  (∃ w1 e, save_key host name dn key w
           = (w1, [Create (dn +:+ "/" +:+ name)], Err e))
  ∨ (∃ w1, save_key host name dn key w
           = (w1, [Create (dn +:+ "/" +:+ name);
                   FileWrite (dn +:+ "/" +:+ name) key;
                   Close (dn +:+ "/" +:+ name)], Ok tt)).
Proof.
  unfold save_key.
  destruct (os_Create host _ w) as [w1 [e|fp]]; [left; by eexists _, _|].
  destruct (file_WriteString host fp key w1) as [w2 r].
  right. by eexists.
Qed.

Lemma write_result_0 (fp : F) (l : string) (rl : list string) (w : W) :
  write_result host fp (l :: rl) w 0
  = Some (file_WriteString host fp (l +:+ String newline "") w).2.
Proof. reflexivity. Qed.

Lemma write_result_S (fp : F) (l : string) (rl : list string) (w : W)
    (i : nat) :
  write_result host fp (l :: rl) w (S i)
  = write_result host fp rl
      (file_WriteString host fp (l +:+ String newline "") w).1 i.
Proof. reflexivity. Qed.

(** The loop of [saveRelays]: the writes made are those of the first [n]
    relays; all but the last of them have succeeded; the loop returns nil
    when the last has succeeded too, which then is the write of the last
    relay, and the error of the last write otherwise. *)
Lemma saveRelays_loop_stops (fp : F) (path : string) (rl : list string)
    (w : W) :
  ∃ n, (n <= length rl)%nat
       ∧ (saveRelays_loop host fp path rl w).1.2
         = (fun l => FileWrite path (l +:+ String newline "")) <$> take n rl
       ∧ (∀ i, (S i < n)%nat → write_result host fp rl w i = Some None)
       ∧ ((saveRelays_loop host fp path rl w).2 = Ok tt →
          n = length rl
          ∧ ∀ i, (i < n)%nat → write_result host fp rl w i = Some None)
       ∧ (∀ e, (saveRelays_loop host fp path rl w).2 = Err e →
               ∃ i, n = S i ∧ write_result host fp rl w i = Some (Some e))
       ∧ is_panic (saveRelays_loop host fp path rl w).2 = false.
Proof.
  revert w. induction rl as [|l rl IH]; intros w.
  - exists 0%nat. repeat split; try done; intros; lia.
  - cbn [saveRelays_loop].
    destruct (file_WriteString host fp (l +:+ String newline "") w)
      as [w1 [e|]] eqn:Hw.
    + exists 1%nat. cbn. split; [lia|]. split; [done|].
      split; [intros; lia|]. split; [done|]. split; [|done].
      intros e' [= <-]. exists 0%nat. split; [done|].
      by rewrite write_result_0, Hw.
    + destruct (IH w1) as (n & Hn & Htr & Hpre & Hok & Herr & Hpanic).
      destruct (saveRelays_loop host fp path rl w1) as [[w2 tr] r].
      cbn [fst snd] in *. exists (S n). cbn [length take fmap list_fmap].
      assert (H0 : write_result host fp (l :: rl) w 0 = Some None)
        by by rewrite write_result_0, Hw.
      assert (HS : ∀ i, write_result host fp (l :: rl) w (S i)
                        = write_result host fp rl w1 i)
        by (intros i; by rewrite write_result_S, Hw).
      split; [lia|]. split; [by rewrite Htr|].
      split; [|split; [|split; [|done]]].
      * intros [|i] Hi; [done|]. rewrite HS. apply Hpre. lia.
      * intros Hr. destruct (Hok Hr) as [-> Hall]. split; [done|].
        intros [|i] Hi; [done|]. rewrite HS. apply Hall. lia.
      * intros e Hr. destruct (Herr e Hr) as (i & -> & Hi).
        exists (S i). split; [done|]. by rewrite HS.
Qed.

Lemma created_app (tr1 tr2 : list action) :
  created (tr1 ++ tr2) = created tr1 ++ created tr2.
Proof. apply omap_app. Qed.

Lemma written_app (tr1 tr2 : list action) :
  written (tr1 ++ tr2) = written tr1 ++ written tr2.
Proof. apply omap_app. Qed.

Lemma closed_app (tr1 tr2 : list action) :
  closed (tr1 ++ tr2) = closed tr1 ++ closed tr2.
Proof. apply omap_app. Qed.

Lemma projections_of_writes (path : string) (ls : list string) :
  created ((fun l => FileWrite path (l +:+ String newline "")) <$> ls) = []
  ∧ closed ((fun l => FileWrite path (l +:+ String newline "")) <$> ls) = []
  ∧ written ((fun l => FileWrite path (l +:+ String newline "")) <$> ls)
    = (fun l => (path, l +:+ String newline "")) <$> ls.
Proof.
  induction ls as [|l ls (IH1 & IH2 & IH3)]; [done|].
  cbn. unfold created, closed, written in *. cbn.
  by rewrite IH1, IH2, IH3.
Qed.

Lemma file_error_None (path text : string) (w : W) :
  file_error host path text w = None → create_refused host path w = false.
Proof.
  unfold file_error, create_refused.
  by destruct (os_Create host path w) as [w1 [e|fp]].
Qed.

(** One file of [initEnv] in the directory [d], by what the host answers. *)
Lemma create_file_run (name text d : string) (w : W) :
  (∀ w', getDir (host_system host) w' = (w', Ok d)) →
  create_file host name text w
  = (world_after_file host (d +:+ "/" +:+ name) text w,
     if create_refused host (d +:+ "/" +:+ name) w
     then [Create (d +:+ "/" +:+ name)]
     else [Create (d +:+ "/" +:+ name);
           FileWrite (d +:+ "/" +:+ name) text;
           Close (d +:+ "/" +:+ name)],
     match file_error host (d +:+ "/" +:+ name) text w with
     | Some e => Err e
     | None => Ok tt
     end).
Proof.
  intros Hd.
  unfold create_file, world_after_file, create_refused, file_error.
  rewrite Hd.
  destruct (os_Create host _ w) as [w1 [e|fp]]; [done|].
  by destruct (file_WriteString host fp text w1) as [w2 [e|]].
Qed.

End FileFacts.

(** X16. [genKey] saves the keys in the order secret key, public key,
    encoded secret key, encoded public key, in the files .hsec, .hpub,
    .nsec and .npub of the directory .nostk of the home directory.  It
    stops at the first file that cannot be created, leaving the earlier
    files written and closed; a failing write is not noticed. *)
Theorem genKey_saves_keys_in_order
    {W R F : Type} (host : Host W R F) (w w1 w2 : W)
    (d sk pk ns np : string) :
  getDir (host_system host) w = (w1, Ok d) →
  genHexKey host w1 = (w2, Ok (sk, pk)) →
  genNKey host sk pk = Ok (ns, np) →
  d = os_Getenv (host_system host) "HOME" w +:+ "/.nostk"
  ∧ ∃ n : nat,
      written (genKey host w).1.2
      = take n [(d +:+ "/.hsec", sk); (d +:+ "/.hpub", pk);
                (d +:+ "/.nsec", ns); (d +:+ "/.npub", np)]
      ∧ closed (genKey host w).1.2
        = take n [d +:+ "/.hsec"; d +:+ "/.hpub"; d +:+ "/.nsec";
                  d +:+ "/.npub"]
      ∧ (((genKey host w).2 = Ok tt ∧ n = 4%nat
          ∧ created (genKey host w).1.2
            = [d +:+ "/.hsec"; d +:+ "/.hpub"; d +:+ "/.nsec";
               d +:+ "/.npub"])
         ∨ (∃ e, (genKey host w).2 = Err e ∧ (n < 4)%nat
                 ∧ created (genKey host w).1.2
                   = take (S n) [d +:+ "/.hsec"; d +:+ "/.hpub";
                                 d +:+ "/.nsec"; d +:+ "/.npub"])).
Proof.
  intros Hd Hg Hn. split; [by apply getDir_Ok in Hd as [_ ->]|].
  unfold genKey. rewrite Hd, Hg, Hn.
  unfold and_then, saveHSecKey, saveHPubKey, saveNSecKey, saveNPubKey, done_.
  destruct (save_key_cases host hsec d sk w2) as [(v1 & e & ->) | (v1 & ->)].
  { exists 0%nat. repeat split. right. exists e. repeat split. lia. }
  destruct (save_key_cases host hpub d pk v1) as [(v2 & e & ->) | (v2 & ->)].
  { exists 1%nat. repeat split. right. exists e. repeat split. lia. }
  destruct (save_key_cases host nsec d ns v2) as [(v3 & e & ->) | (v3 & ->)].
  { exists 2%nat. repeat split. right. exists e. repeat split. lia. }
  destruct (save_key_cases host npub d np v3) as [(v4 & e & ->) | (v4 & ->)].
  { exists 3%nat. repeat split. right. exists e. repeat split. lia. }
  exists 4%nat. repeat split. by left.
Qed.

Lemma genKey_saves_keys_in_order_witness :
  created
    (genKey (simple_host (simple_system ("k", None) [] []) []
               ["/home/u/.nostk/.nsec"]) tt).1.2
  = ["/home/u/.nostk/.hsec"; "/home/u/.nostk/.hpub"; "/home/u/.nostk/.nsec"]
  ∧ written
      (genKey (simple_host (simple_system ("k", None) [] []) []
                 ["/home/u/.nostk/.nsec"]) tt).1.2
    = [("/home/u/.nostk/.hsec", "5ec"); ("/home/u/.nostk/.hpub", "pub-5ec")].
Proof.
  destruct (genKey_saves_keys_in_order
              (simple_host (simple_system ("k", None) [] []) []
                 ["/home/u/.nostk/.nsec"])
              tt tt tt "/home/u/.nostk" "5ec" "pub-5ec" "nsec15ec"
              "npub1pub-5ec" eq_refl eq_refl eq_refl) as [_ _].
  split; vm_compute; reflexivity.
Defined.

(** X17. [saveRelays] creates relays.json in the directory and writes the
    relays in order, each followed by a line feed.  It stops at the first
    write that fails and returns its error: the writes before it have
    succeeded and no relay after it is written.  It returns nil only when
    every relay has been written without error.  The file is closed as the
    last action in both cases. *)
Theorem saveRelays_writes_lines
    {W R F : Type} (host : Host W R F) (rl : list string) (w w1 w2 : W)
    (dn : string) (fp : F) :
  getDir (host_system host) w = (w1, Ok dn) →
  os_Create host (dn +:+ "/relays.json") w1 = (w2, inr fp) →
  ∃ n : nat,
    (n <= length rl)%nat
    ∧ written (saveRelays host rl w).1.2
      = (fun l => (dn +:+ "/relays.json", l +:+ String newline ""))
          <$> take n rl
    ∧ created (saveRelays host rl w).1.2 = [dn +:+ "/relays.json"]
    ∧ closed (saveRelays host rl w).1.2 = [dn +:+ "/relays.json"]
    ∧ last (saveRelays host rl w).1.2 = Some (Close (dn +:+ "/relays.json"))
    ∧ (∀ i, (S i < n)%nat → write_result host fp rl w2 i = Some None)
    ∧ ((saveRelays host rl w).2 = Ok tt →
       n = length rl
       ∧ ∀ i, (i < n)%nat → write_result host fp rl w2 i = Some None)
    ∧ (∀ e, (saveRelays host rl w).2 = Err e →
            ∃ i, n = S i ∧ write_result host fp rl w2 i = Some (Some e))
    ∧ is_panic (saveRelays host rl w).2 = false.
Proof.
  intros Hd Hc. unfold saveRelays. rewrite Hd.
  change (dn +:+ "/" +:+ relays) with (dn +:+ "/relays.json").
  rewrite Hc.
  destruct (saveRelays_loop_stops host fp (dn +:+ "/relays.json") rl w2)
    as (n & Hn & Htr & Hpre & Hok & Herr & Hpanic).
  destruct (saveRelays_loop host fp (dn +:+ "/relays.json") rl w2)
    as [[w3 tr] r].
  cbn [fst snd] in *. subst tr. exists n.
  destruct (projections_of_writes (dn +:+ "/relays.json") (take n rl))
    as (E1 & E2 & E3).
  split; [done|]. split.
  { change (written (?a :: ?t)) with (written t).
    by rewrite written_app, E3, app_nil_r. }
  split.
  { change (created (Create ?p :: ?t)) with (p :: created t).
    by rewrite created_app, E1. }
  split.
  { change (closed (Create ?p :: ?t)) with (closed t).
    by rewrite closed_app, E2. }
  split; [by rewrite app_comm_cons, last_snoc|].
  done.
Qed.

Lemma saveRelays_writes_lines_witness :
  (saveRelays
     (failing_writes (simple_host (simple_system ("k", None) [] []) [] [])
        ["wss://b" +:+ String newline ""])
     ["wss://a"; "wss://b"; "wss://c"] tt).2
  = Err "no space left on device"
  ∧ written
      (saveRelays
         (failing_writes (simple_host (simple_system ("k", None) [] []) [] [])
            ["wss://b" +:+ String newline ""])
         ["wss://a"; "wss://b"; "wss://c"] tt).1.2
    = [("/home/u/.nostk/relays.json", "wss://a" +:+ String newline "");
       ("/home/u/.nostk/relays.json", "wss://b" +:+ String newline "")].
Proof.
  destruct (saveRelays_writes_lines
              (failing_writes
                 (simple_host (simple_system ("k", None) [] []) [] [])
                 ["wss://b" +:+ String newline ""])
              ["wss://a"; "wss://b"; "wss://c"] tt tt tt "/home/u/.nostk"
              "/home/u/.nostk/relays.json" eq_refl eq_refl)
    as (n & _ & Hw & _ & _ & _ & _ & _ & Herr & _).
  assert (Hr : (saveRelays
     (failing_writes (simple_host (simple_system ("k", None) [] []) [] [])
        ["wss://b" +:+ String newline ""])
     ["wss://a"; "wss://b"; "wss://c"] tt).2
     = Err "no space left on device") by (vm_compute; reflexivity).
  split; [exact Hr|].
  destruct (Herr _ Hr) as (i & -> & Hi). rewrite Hw.
  destruct i as [|[|[|i]]]; vm_compute in Hi; try discriminate.
  reflexivity.
Defined.

(** X18. With the directory [d] in place, [initEnv] creates
    profile.json, relays.json and customemoji.json in this order, each
    with its skeleton.  It stops at the first file that [os.Create] refuses
    or whose write fails, and returns that error: the files before it have
    been created, written without error and closed, the files after it are
    not touched, and the file itself is left created only, or created,
    written to and closed.  It returns nil only when the three files have
    been created and written without error. *)
Theorem initEnv_creates_skeletons_in_order
    {W R F : Type} (host : Host W R F) (d : string) (w : W) :
  (∀ w', getDir (host_system host) w' = (w', Ok d)) →
  ∃ m n : nat,
    created (initEnv host w).1.2
    = take m [d +:+ "/profile.json"; d +:+ "/relays.json";
              d +:+ "/customemoji.json"]
    ∧ written (initEnv host w).1.2
      = take n [(d +:+ "/profile.json", profile_skeleton);
                (d +:+ "/relays.json", relays_skeleton);
                (d +:+ "/customemoji.json", emoji_skeleton)]
    ∧ closed (initEnv host w).1.2
      = take n [d +:+ "/profile.json"; d +:+ "/relays.json";
                d +:+ "/customemoji.json"]
    ∧ (n <= m <= n + 1)%nat
    ∧ (∀ k, (S k < m)%nat →
            file_result host (skeleton_files d) w k = Some None)
    ∧ ((initEnv host w).2 = Ok tt →
       m = 3%nat ∧ n = 3%nat
       ∧ ∀ k, (k < 3)%nat →
              file_result host (skeleton_files d) w k = Some None)
    ∧ (∀ e, (initEnv host w).2 = Err e →
            ∃ k f,
              m = S k ∧ skeleton_files d !! k = Some f
              ∧ file_result host (skeleton_files d) w k = Some (Some e)
              ∧ n = if create_refused host f.1
                         (world_at_file host (skeleton_files d) w k)
                    then k else S k)
    ∧ is_panic (initEnv host w).2 = false.
Proof.
  intros Hd. unfold initEnv, and_then, createProfile, createRelayList,
    createCustomEmojiList, done_.
  rewrite (create_file_run host profile profile_skeleton d w Hd).
  assert (R0 : file_result host (skeleton_files d) w 0
               = Some (file_error host (d +:+ "/" +:+ profile)
                         profile_skeleton w)) by reflexivity.
  assert (R1 : file_result host (skeleton_files d) w 1
               = Some (file_error host (d +:+ "/" +:+ relays) relays_skeleton
                         (world_at_file host (skeleton_files d) w 1)))
    by reflexivity.
  assert (R2 : file_result host (skeleton_files d) w 2
               = Some (file_error host (d +:+ "/" +:+ emoji) emoji_skeleton
                         (world_at_file host (skeleton_files d) w 2)))
    by reflexivity.
  change (world_after_file host (d +:+ "/" +:+ profile) profile_skeleton w)
    with (world_at_file host (skeleton_files d) w 1).
  destruct (file_error host (d +:+ "/" +:+ profile) profile_skeleton w)
    as [e1|] eqn:E1.
  { exists 1%nat,
      (if create_refused host (d +:+ "/" +:+ profile) w then 0 else 1)%nat.
    cbn [fst snd].
    split; [by destruct (create_refused _ _ _)|].
    split; [by destruct (create_refused _ _ _)|].
    split; [by destruct (create_refused _ _ _)|].
    split; [destruct (create_refused _ _ _); lia|].
    split; [intros; lia|]. split; [done|]. split; [|done].
    intros e [= <-]. exists 0%nat, (d +:+ "/" +:+ profile, profile_skeleton).
    by rewrite R0. }
  rewrite (file_error_None host _ _ _ E1).
  rewrite (create_file_run host relays relays_skeleton d _ Hd).
  change (world_after_file host (d +:+ "/" +:+ relays) relays_skeleton
            (world_at_file host (skeleton_files d) w 1))
    with (world_at_file host (skeleton_files d) w 2).
  destruct (file_error host (d +:+ "/" +:+ relays) relays_skeleton
              (world_at_file host (skeleton_files d) w 1)) as [e2|] eqn:E2.
  { exists 2%nat,
      (if create_refused host (d +:+ "/" +:+ relays)
            (world_at_file host (skeleton_files d) w 1) then 1 else 2)%nat.
    cbn [fst snd].
    split; [by destruct (create_refused _ _ _)|].
    split; [by destruct (create_refused _ _ _)|].
    split; [by destruct (create_refused _ _ _)|].
    split; [destruct (create_refused _ _ _); lia|].
    split; [intros [|k] Hk; [by rewrite R0 | lia]|].
    split; [done|]. split; [|done].
    intros e [= <-]. exists 1%nat, (d +:+ "/" +:+ relays, relays_skeleton).
    by rewrite R1. }
  rewrite (file_error_None host _ _ _ E2).
  rewrite (create_file_run host emoji emoji_skeleton d _ Hd).
  destruct (file_error host (d +:+ "/" +:+ emoji) emoji_skeleton
              (world_at_file host (skeleton_files d) w 2)) as [e3|] eqn:E3.
  { exists 3%nat,
      (if create_refused host (d +:+ "/" +:+ emoji)
            (world_at_file host (skeleton_files d) w 2) then 2 else 3)%nat.
    cbn [fst snd].
    split; [by destruct (create_refused _ _ _)|].
    split; [by destruct (create_refused _ _ _)|].
    split; [by destruct (create_refused _ _ _)|].
    split; [destruct (create_refused _ _ _); lia|].
    split; [intros [|[|k]] Hk; [by rewrite R0 | by rewrite R1 | lia]|].
    split; [done|]. split; [|done].
    intros e [= <-]. exists 2%nat, (d +:+ "/" +:+ emoji, emoji_skeleton).
    by rewrite R2. }
  rewrite (file_error_None host _ _ _ E3).
  exists 3%nat, 3%nat. cbn [fst snd].
  split; [done|]. split; [done|]. split; [done|]. split; [lia|].
  split; [intros [|[|k]] Hk; [by rewrite R0 | by rewrite R1 | lia]|].
  split; [|done].
  intros _. split; [done|]. split; [done|].
  intros [|[|[|k]]] Hk; [by rewrite R0 | by rewrite R1 | by rewrite R2 | lia].
Qed.

Lemma initEnv_creates_skeletons_in_order_witness :
  (initEnv
     (failing_writes (simple_host (simple_system ("k", None) [] []) [] [])
        [relays_skeleton]) tt).2
  = Err "no space left on device"
  ∧ created
      (initEnv
         (failing_writes (simple_host (simple_system ("k", None) [] []) [] [])
            [relays_skeleton]) tt).1.2
    = ["/home/u/.nostk/profile.json"; "/home/u/.nostk/relays.json"].
Proof.
  destruct (initEnv_creates_skeletons_in_order
              (failing_writes
                 (simple_host (simple_system ("k", None) [] []) [] [])
                 [relays_skeleton])
              "/home/u/.nostk" tt (fun w' => match w' with tt => eq_refl end))
    as (m & n & Hc & _ & _ & _ & _ & _ & Herr & _).
  assert (Hr : (initEnv
     (failing_writes (simple_host (simple_system ("k", None) [] []) [] [])
        [relays_skeleton]) tt).2
     = Err "no space left on device") by (vm_compute; reflexivity).
  split; [exact Hr|].
  destruct (Herr _ Hr) as (k & f & -> & _ & Hk & _). rewrite Hc.
  destruct k as [|[|[|k]]]; vm_compute in Hk; try discriminate.
  reflexivity.
Defined.

(** X19. [editRelayList] and [editProfile] look at EDITOR before
    anything else and return its error without any action when it is
    empty.  They start the editor at most once, as the last action, with
    the value of EDITOR, on relays.json or profile.json of the directory,
    and only after [os.Stat] has found that file. *)
Theorem edit_commands_run_editor_on_existing_file
    {W R F : Type} (host : Host W R F) (w : W) (name line missing : string) :
  (os_Getenv (host_system host) "EDITOR" w = "" →
   edit_file host name line missing w
   = (w, [], Err "Not set EDITOR environmental variables"))
  ∧ (length (edit_file host name line missing w).1.2 <= 1)%nat
  ∧ (∀ ed p, Run ed p ∈ (edit_file host name line missing w).1.2 →
       ed = os_Getenv (host_system host) "EDITOR" w ∧ ed ≠ ""
       ∧ ∃ w1 d w2,
           getDir (host_system host) w = (w1, Ok d)
           ∧ p = d +:+ "/" +:+ name
           ∧ os_Stat (host_system host) p w1 = (w2, None)
           ∧ (edit_file host name line missing w).2
             = match (exec_Run host ed p w2).2 with
               | Some err => Err err
               | None => Ok tt
               end)
  ∧ editRelayList host = edit_file host "relays.json"
      (quoted "Not found relay list. Use 'nostk init'") "Not found relay list"
  ∧ editProfile host = edit_file host "profile.json"
      "Not found profile file." "Not found profile file".
Proof.
  split; [|split; [|split; [|done]]].
  - intros He. unfold edit_file. by rewrite He.
  - unfold edit_file. repeat case_match; cbn; lia.
  - intros ed p. unfold edit_file.
    destruct (String.eqb_spec (os_Getenv (host_system host) "EDITOR" w) "")
      as [He|He]; [by intros ?%elem_of_nil|].
    destruct (getDir (host_system host) w) as [w1 [d|e|m]] eqn:Hd;
      [|by intros ?%elem_of_nil..].
    destruct (os_Stat (host_system host) (d +:+ "/" +:+ name) w1)
      as [w2 [e|]] eqn:Hs.
    { cbn. by intros [=]%list_elem_of_singleton. }
    destruct (exec_Run host _ (d +:+ "/" +:+ name) w2) as [w3 r] eqn:Hx.
    assert (Hin : Run ed p ∈ [Run (os_Getenv (host_system host) "EDITOR" w)
                                (d +:+ "/" +:+ name)] →
                  ed = os_Getenv (host_system host) "EDITOR" w
                  ∧ p = d +:+ "/" +:+ name).
    { by intros [= -> ->]%list_elem_of_singleton. }
    destruct r as [err|]; cbn; intros [-> ->]%Hin;
      (split; [done|]); (split; [done|]);
      exists w1, d, w2; rewrite Hx; by repeat split.
Qed.

Lemma edit_commands_run_editor_on_existing_file_witness :
  editRelayList
    (simple_host
       (with_Getenv (simple_system ("k", None) [] [])
          (fun name _ => if String.eqb name "HOME" then "" else "")) [] []) tt
  = (tt, [], Err "Not set EDITOR environmental variables").
Proof.
  exact (proj1 (edit_commands_run_editor_on_existing_file
           (simple_host
              (with_Getenv (simple_system ("k", None) [] [])
                 (fun name _ => if String.eqb name "HOME" then "" else ""))
              [] []) tt "relays.json"
           (quoted "Not found relay list. Use 'nostk init'")
           "Not found relay list") eq_refl).
Defined.

(** ** The dispatch of main *)

Section MainFacts.
Context {W R F : Type} (host : Host W R F).

(** The switch of [main] on a command line with a subcommand. *)
Lemma main_dispatch (a cmd : string) (rest : list string) (w : W) :
  main host (a :: cmd :: rest) w
  = if String.eqb cmd "help" then (w, Out <$> dispHelp, Exit 0)
    else if String.eqb cmd "--help" then (w, Out <$> dispHelp, Exit 0)
    else if String.eqb cmd "-h" then (w, Out <$> dispHelp, Exit 0)
    else if String.eqb cmd "init" then run_command (initEnv host w)
    else if String.eqb cmd "genkey" then run_command (genKey host w)
    else if String.eqb cmd "lsRelays" then run_command (listRelays host w)
    else if String.eqb cmd "editRelays" then
      run_command (editRelayList host w)
    else if String.eqb cmd "editProfile" then
      run_command (editProfile host w)
    else if String.eqb cmd "pubProfile" then
      run_publish (publishProfile host w)
    else if String.eqb cmd "pubRelays" then
      run_publish (publishRelayList host w)
    else if String.eqb cmd "pubMessage" then
      match main_pubMessage (host_system host) (a :: cmd :: rest) w with
      | (w1, tr, e) => (w1, Out <$> tr, e)
      end
    else (w, [], Exit 0).
Proof. reflexivity. Qed.

Lemma lookup_1_Some (args : list string) (cmd : string) :
  args !! 1%nat = Some cmd → ∃ a rest, args = a :: cmd :: rest.
Proof.
  destruct args as [|a [|c rest]]; [done..|]. intros [= ->]. by eexists _, _.
Qed.

Lemma main_pubMessage_take (sys : System W R) (args : list string) (w : W) :
  main_pubMessage sys args w = main_pubMessage sys (take 3 args) w.
Proof. by destruct args as [|a [|c [|s rest]]]. Qed.

Section HomeUnset.
Context (w : W) (Hhome : os_Getenv (host_system host) "HOME" w = "").

Lemma readRelayList_unset :
  readRelayList (host_system host) w
  = (w, Err "Not set HOME environmental variables").
Proof. unfold readRelayList. by rewrite getDir_unset. Qed.

Lemma readPrivateKey_unset :
  readPrivateKey (host_system host) w
  = (w, Err "Not set HOME environmental variables").
Proof. unfold readPrivateKey. by rewrite getDir_unset. Qed.

Lemma readProfile_unset :
  readProfile host w = (w, Err "Not set HOME environmental variables").
Proof. unfold readProfile. by rewrite getDir_unset. Qed.

Lemma create_file_unset (name text : string) :
  create_file host name text w
  = (w, [], Err "Not set HOME environmental variables").
Proof. unfold create_file. by rewrite getDir_unset. Qed.

Lemma initEnv_unset :
  initEnv host w = (w, [], Err "Not set HOME environmental variables").
Proof.
  unfold initEnv, and_then, createProfile. by rewrite create_file_unset.
Qed.

Lemma genKey_unset :
  genKey host w = (w, [], Err "Not set HOME environmental variables").
Proof. unfold genKey. by rewrite getDir_unset. Qed.

Lemma listRelays_unset :
  listRelays host w = (w, [], Err "Not set HOME environmental variables").
Proof. unfold listRelays. by rewrite readRelayList_unset. Qed.

Lemma publishRelayList_unset :
  publishRelayList host w
  = (w, [], Err "Not set HOME environmental variables").
Proof. unfold publishRelayList. by rewrite readRelayList_unset. Qed.

Lemma publishProfile_unset :
  publishProfile host w
  = (w, [Print (quoted ("Not found your profile. Use 'nostk init' and " +:+
                        "'nostk editProfile'."))],
     Err "Not set HOME environmental variables").
Proof. unfold publishProfile. by rewrite readProfile_unset. Qed.

Lemma publishMessage_unset (s : string) :
  s ≠ "" →
  publishMessage (host_system host) s w
  = (w, [Print "Nothing key pair. Make key pair."],
     Err "Not set HOME environmental variables").
Proof.
  intros Hs. unfold publishMessage. destruct s as [|c s]; [done|].
  cbn [String.length Nat.ltb Nat.leb]. by rewrite readPrivateKey_unset.
Qed.

Lemma edit_file_unset (name line missing : string) :
  os_Getenv (host_system host) "EDITOR" w ≠ "" →
  edit_file host name line missing w
  = (w, [], Err "Not set HOME environmental variables").
Proof.
  intros He. unfold edit_file.
  destruct (String.eqb_spec (os_Getenv (host_system host) "EDITOR" w) "");
    [done|].
  by rewrite getDir_unset.
Qed.

End HomeUnset.

End MainFacts.

(** X20. With HOME empty every command that needs the directory ends
    through [log.Fatal] with the error of [getDir], leaves the world as it
    was and does nothing but print: init, genkey, lsRelays and pubRelays
    print nothing, the edit commands print nothing when EDITOR is set,
    pubProfile prints that the profile was not found and pubMessage, given
    a text, that there is no key pair. *)
Theorem commands_end_on_unset_HOME
    {W R F : Type} (host : Host W R F) (args : list string) (cmd : string)
    (w : W) :
  os_Getenv (host_system host) "HOME" w = "" →
  args !! 1%nat = Some cmd →
  ((cmd ∈ ["init"; "genkey"; "lsRelays"; "pubRelays"]
    ∨ (cmd ∈ ["editRelays"; "editProfile"]
       ∧ os_Getenv (host_system host) "EDITOR" w ≠ "")) →
   main host args w
   = (w, [], Fatal "Not set HOME environmental variables"))
  ∧ (cmd = "pubProfile" →
     main host args w
     = (w, [Out (Print (quoted ("Not found your profile. Use 'nostk init' " +:+
                                "and 'nostk editProfile'.")))],
        Fatal "Not set HOME environmental variables"))
  ∧ (cmd = "pubMessage" →
     ∀ s, args !! 2%nat = Some s → s ≠ "" →
          main host args w
          = (w, [Out (Print "Nothing key pair. Make key pair.")],
             Fatal "Not set HOME environmental variables")).
Proof.
  intros Hhome (a & rest & ->)%lookup_1_Some.
  rewrite main_dispatch. split; [|split].
  - intros [Hc | [Hc He]].
    + repeat (apply elem_of_cons in Hc as [-> | Hc]);
        [..|by apply elem_of_nil in Hc]; cbn [String.eqb Ascii.eqb Bool.eqb];
        unfold run_command, run_publish.
      * by rewrite initEnv_unset.
      * by rewrite genKey_unset.
      * by rewrite listRelays_unset.
      * by rewrite publishRelayList_unset.
    + repeat (apply elem_of_cons in Hc as [-> | Hc]);
        [..|by apply elem_of_nil in Hc]; cbn [String.eqb Ascii.eqb Bool.eqb];
        unfold run_command, editRelayList, editProfile;
        by rewrite edit_file_unset.
  - intros ->. cbn [String.eqb Ascii.eqb Bool.eqb]. unfold run_publish.
    by rewrite publishProfile_unset.
  - intros -> s Hs Hne. cbn [String.eqb Ascii.eqb Bool.eqb].
    destruct rest as [|s' rest]; [done|]. cbn in Hs. simplify_eq.
    unfold main_pubMessage. cbn [length Nat.ltb Nat.leb index lookup].
    cbn. by rewrite publishMessage_unset.
Qed.

Lemma commands_end_on_unset_HOME_witness :
  main
    (simple_host
       (with_Getenv (simple_system ("k", None) [] []) (fun _ _ => "")) [] [])
    ["nostk"; "pubMessage"; "hello"] tt
  = (tt, [Out (Print "Nothing key pair. Make key pair.")],
     Fatal "Not set HOME environmental variables").
Proof.
  refine (proj2 (proj2 (commands_end_on_unset_HOME
            (simple_host
               (with_Getenv (simple_system ("k", None) [] [])
                  (fun _ _ => "")) [] [])
            ["nostk"; "pubMessage"; "hello"] "pubMessage" tt
            eq_refl eq_refl)) eq_refl "hello" eq_refl _).
  discriminate.
Defined.

(** X21. Without a subcommand, or with help, --help or -h, [main]
    prints the ten lines of the usage and ends with status 0.  With a
    subcommand that the switch does not name it does nothing at all and
    ends with status 0 as well; lsRelay, which the usage lists, is such a
    subcommand, the switch having lsRelays. *)
Theorem main_without_known_subcommand
    {W R F : Type} (host : Host W R F) (args : list string) (w : W) :
  ((length args < 2)%nat
   ∨ (∃ cmd, args !! 1%nat = Some cmd ∧ cmd ∈ ["help"; "--help"; "-h"]) →
   main host args w = (w, Out <$> dispHelp, Exit 0))
  ∧ (∀ cmd, args !! 1%nat = Some cmd →
       cmd ∉ ["help"; "--help"; "-h"; "init"; "genkey"; "lsRelays";
              "editRelays"; "editProfile"; "pubProfile"; "pubRelays";
              "pubMessage"] →
       main host args w = (w, [], Exit 0))
  ∧ (args !! 1%nat = Some "lsRelay" → main host args w = (w, [], Exit 0))
  ∧ Print "        lsRelay : Show relay list" ∈ dispHelp
  ∧ length dispHelp = 10%nat.
Proof.
  assert (Hunknown : ∀ cmd, args !! 1%nat = Some cmd →
       cmd ∉ ["help"; "--help"; "-h"; "init"; "genkey"; "lsRelays";
              "editRelays"; "editProfile"; "pubProfile"; "pubRelays";
              "pubMessage"] →
       main host args w = (w, [], Exit 0)).
  { intros cmd (a & rest & ->)%lookup_1_Some Hc.
    rewrite main_dispatch.
    repeat (apply not_elem_of_cons in Hc as [?%String.eqb_neq Hc]).
    by repeat case_match. }
  split; [|split; [exact Hunknown|split]].
  - intros [Hl | (cmd & (a & rest & ->)%lookup_1_Some & Hc)].
    + destruct args as [|a [|c rest]]; [done..|]. cbn in Hl. lia.
    + rewrite main_dispatch.
      repeat (apply elem_of_cons in Hc as [-> | Hc]);
        [..|by apply elem_of_nil in Hc]; done.
  - intros H. apply (Hunknown _ H).
    rewrite !not_elem_of_cons.
    repeat (split; [discriminate|]). apply not_elem_of_nil.
  - split; [|done]. unfold dispHelp. rewrite !elem_of_cons.
    do 4 right. by left.
Qed.

Lemma main_without_known_subcommand_witness :
  main (simple_host (simple_system ("k", None) ["wss://a"] []) [] [])
    ["nostk"; "lsRelay"] tt
  = (tt, [], Exit 0).
Proof.
  exact (proj1 (proj2 (proj2 (main_without_known_subcommand
           (simple_host (simple_system ("k", None) ["wss://a"] []) [] [])
           ["nostk"; "lsRelay"] tt))) eq_refl).
Defined.

(** X22. [main] reads the subcommand and, for pubMessage, the argument
    after it, and nothing else of the command line: the arguments after
    the third never change what it does, and for every other subcommand
    those after the second do not either. *)
Theorem main_reads_two_arguments
    {W R F : Type} (host : Host W R F) (args : list string) (w : W) :
  main host args w = main host (take 3 args) w
  ∧ (∀ cmd, args !! 1%nat = Some cmd → cmd ≠ "pubMessage" →
            main host args w = main host (take 2 args) w).
Proof.
  split.
  - destruct args as [|a [|c [|s rest]]]; [done..|].
    cbn [take]. rewrite !main_dispatch.
    by rewrite (main_pubMessage_take (host_system host) (a :: c :: s :: rest)).
  - intros cmd (a & rest & ->)%lookup_1_Some Hc%String.eqb_neq.
    cbn [take]. rewrite !main_dispatch, Hc. done.
Qed.

Lemma main_reads_two_arguments_witness :
  main (simple_host (simple_system ("k", None) ["wss://a"] []) [] [])
    ["nostk"; "genkey"; "more"; "words"] tt
  = main (simple_host (simple_system ("k", None) ["wss://a"] []) [] [])
      ["nostk"; "genkey"] tt.
Proof.
  refine (proj2 (main_reads_two_arguments
            (simple_host (simple_system ("k", None) ["wss://a"] []) [] [])
            ["nostk"; "genkey"; "more"; "words"] tt) "genkey" eq_refl _).
  discriminate.
Defined.

(** ** Listing the relays *)

Lemma string_app_inv_head (u a b : string) : u +:+ a = u +:+ b → a = b.
Proof. induction u as [|c u IH]; simpl; [done|]. intros [= H]. by apply IH. Qed.

(** X23. [listRelays] prints one line for each entry of the decoded relay
    file, in the order of the iteration, and nothing when the file cannot
    be read or decoded.  The line of a relay shows both flags, so that it
    tells the four settings of a relay apart. *)
Theorem listRelays_prints_every_entry
    {W R F : Type} (host : Host W R F) (w : W) :
  (is_ok (listRelays host w).2 = false → (listRelays host w).1.2 = [])
  ∧ (∀ w1 b w2 p,
       readRelayList (host_system host) w = (w1, Ok b) →
       relay_entries host b w1 = (w2, Ok p) →
       (listRelays host w).2 = Ok tt
       ∧ omap (fun a => match a with Out (Print l) => Some l | _ => None end)
              (listRelays host w).1.2
         = relay_line <$> p
       ∧ length (listRelays host w).1.2 = length p)
  ∧ (∀ u f f', relay_line (u, f) = relay_line (u, f') → f = f').
Proof.
  split; [|split].
  - unfold listRelays.
    destruct (readRelayList (host_system host) w) as [w1 [b|e|m]]; [|done..].
    by destruct (relay_entries host b w1) as [w2 [p|e|m]].
  - intros w1 b w2 p Hb Hp. unfold listRelays. rewrite Hb, Hp. cbn [fst snd].
    split; [done|]. split; [|by rewrite length_fmap].
    clear Hp. induction p as [|e p IH]; [done|]. cbn. by rewrite IH.
  - intros u [r1 w1] [r2 w2]. unfold relay_line. cbn [fst snd Read Write].
    intros H%string_app_inv_head.
    destruct r1, w1, r2, w2; vm_compute in H; (reflexivity || discriminate H).
Qed.

Lemma listRelays_prints_every_entry_witness :
  omap (fun a => match a with Out (Print l) => Some l | _ => None end)
    (listRelays
       (simple_host (simple_system ("k", None) [] [])
          [("wss://a", mkRwFlag true false); ("wss://b", mkRwFlag false false)]
          []) tt).1.2
  = ["wss://a R:true W:false"; "wss://b R:false W:false"].
Proof.
  exact (proj1 (proj2 (proj1 (proj2 (listRelays_prints_every_entry
           (simple_host (simple_system ("k", None) [] [])
              [("wss://a", mkRwFlag true false);
               ("wss://b", mkRwFlag false false)] []) tt))
           tt "{}" tt
           [("wss://a", mkRwFlag true false);
            ("wss://b", mkRwFlag false false)] eq_refl eq_refl))).
Defined.
